(* ===================================================================== *)
(* 4-in-a-Row server: the Match state machine (type Game) and the        *)
(* Session Director (type GameManager, with private rooms), embedded     *)
(* shallowly, with the bot's choice of a column and the arguments of the *)
(* statistics update.                                                    *)
(*                                                                       *)
(* A handler that holds its mutex for its whole body is a function from  *)
(* the shared store to an outcome.  Two handlers do part of their work   *)
(* outside the lock: handleCreatePrivateRoom generates the room code     *)
(* before it takes the lock, and handleReconnect starts a goroutine that *)
(* takes none; for these the oracle of the call says how the part        *)
(* outside the lock went.                                                *)
(* Pointers are indices into two object stores, Go maps are gmaps,       *)
(* `time.AfterFunc` callbacks are recorded as armed timers and `go`      *)
(* statements as spawned tasks.  A send on a closed channel and a close  *)
(* of a closed channel panic, as in Go.  Of a transport the store keeps  *)
(* whether Close() was called on it by one of the embedded functions or  *)
(* by the deferred function of ReadMessages (WriteMessages, which closes *)
(* its transport when it returns, is not embedded).  Wall-clock fields   *)
(* (StartTime, EndTime) and the channel capacity are left out.           *)
(* ===================================================================== *)

From Stdlib Require Import ZArith Lia Ascii.
From stdpp Require Import gmap strings list fin_maps functions.

Local Open Scope Z_scope.

(* --------------------------------------------------------------------- *)
(* Board engine                                                          *)
(* --------------------------------------------------------------------- *)

Definition Rows : Z := 6.
Definition Cols : Z := 7.

Definition Empty : Z := 0.
Definition Player1 : Z := 1.
Definition Player2 : Z := 2.

(* Board [Rows][Cols]int : a list of rows, each a list of cells. *)
Abbreviation Board := (list (list Z)) (only parsing).

(* The zero value of the array, as NewGame leaves it. *)
Definition zeroBoard : Board :=
  replicate (Z.to_nat Rows) (replicate (Z.to_nat Cols) Empty).

Definition board_wf (b : Board) : Prop :=
  length b = Z.to_nat Rows ∧ Forall (λ row, length row = Z.to_nat Cols) b.

Definition in_bounds (r c : Z) : bool :=
  (0 <=? r) && (r <? Rows) && (0 <=? c) && (c <? Cols).

(* g.Board[r][c] as an rvalue.  The source only reads indices inside the
   array (Go panics outside); outside, the model reads Empty. *)
Definition cell (b : Board) (r c : Z) : Z :=
  if in_bounds r c
  then default Empty (b !! Z.to_nat r ≫= λ row, row !! Z.to_nat c)
  else Empty.

(* g.Board[r][c] = v *)
Definition set_cell (b : Board) (r c v : Z) : Board :=
  alter (λ row, <[Z.to_nat c := v]> row) (Z.to_nat r) b.

(* The loop of makeMove: rows n-1, n-2, ..., 0 are still to be tried. *)
Fixpoint makeMove_rows (n : nat) (b : Board) (col playerNum : Z)
  : option (Z * Board) :=
  match n with
  | O => None
  | S n' =>
      let r := Z.of_nat n' in
      if cell b r col =? Empty
      then Some (r, set_cell b r col playerNum)
      else makeMove_rows n' b col playerNum
  end.

Inductive moveResult :=
| Placed (row : Z) (b : Board)
| MoveError (row : Z) (err : string).

Definition makeMove (b : Board) (col playerNum : Z) : moveResult :=
  if (col <? 0) || (col >=? Cols) then MoveError (-1) "Invalid column"
  else match makeMove_rows (Z.to_nat Rows) b col playerNum with
       | Some (r, b') => Placed r b'
       | None => MoveError (-1) "Column is full"
       end.

(* One counting loop of checkWin.  The four loops differ in the start
   cell, the loop condition and the step (dr, dc); the body is the same:
   count consecutive cells of playerNum, return true at the fourth,
   reset on any other cell.  A loop runs at most Rows + Cols times. *)
Fixpoint count_line (fuel : nat) (b : Board) (playerNum : Z)
    (cond : Z → Z → bool) (dr dc : Z) (r c count : Z) : bool :=
  match fuel with
  | O => false
  | S fuel' =>
      if cond r c then
        if cell b r c =? playerNum then
          if count + 1 >=? 4 then true
          else count_line fuel' b playerNum cond dr dc (r + dr) (c + dc) (count + 1)
        else count_line fuel' b playerNum cond dr dc (r + dr) (c + dc) 0
      else false
  end.

Definition line_fuel : nat := Z.to_nat (Rows + Cols).

Definition checkWin (b : Board) (lastRow lastCol playerNum : Z) : bool :=
  (* horizontal: for c := 0; c < Cols; c++ *)
  if count_line line_fuel b playerNum (λ _ c, c <? Cols) 0 1 lastRow 0 0 then true
  (* vertical: for r := 0; r < Rows; r++ *)
  else if count_line line_fuel b playerNum (λ r _, r <? Rows) 1 0 0 lastCol 0 then true
  (* top-left to bottom-right *)
  else if count_line line_fuel b playerNum (λ r c, (r <? Rows) && (c <? Cols)) 1 1
            (lastRow - Z.min lastRow lastCol) (lastCol - Z.min lastRow lastCol) 0
       then true
  (* bottom-left to top-right *)
  else count_line line_fuel b playerNum (λ r c, (r >=? 0) && (c <? Cols)) (-1) 1
         (lastRow + Z.min (Rows - 1 - lastRow) lastCol)
         (lastCol - Z.min (Rows - 1 - lastRow) lastCol) 0.

(* for c := 0; c < Cols; c++ { if g.Board[0][c] == Empty { return false } } *)
Fixpoint checkDraw_cols (fuel : nat) (b : Board) (c : Z) : bool :=
  match fuel with
  | O => true
  | S fuel' =>
      if c <? Cols then
        if cell b 0 c =? Empty then false else checkDraw_cols fuel' b (c + 1)
      else true
  end.

Definition checkDraw (b : Board) : bool :=
  checkDraw_cols (Z.to_nat Cols) b 0.

(* --------------------------------------------------------------------- *)
(* Data model                                                            *)
(* --------------------------------------------------------------------- *)

(* *Player and *Game : indices into the two object stores. *)
Definition ptr := nat.
Definition gptr := nat.

(* GameState, the serializable snapshot. *)
Record GameState := mkGameState {
  gsID : string;
  gsBoard : Board;
  gsPlayer1 : string;
  gsPlayer2 : string;
  gsIsBot : bool;
  gsCurrentPlayer : Z;
  gsStatus : string;
  gsWinner : Z;
}.

(* The `data` of an outbound message. *)
Inductive payload :=
| NoData
| StateData (s : GameState)
| RoomCodeData (roomCode : string)
| MessageData (message : string).

(* {"type": msgType, "data": data} *)
Record Frame := mkFrame { ftype : string; fdata : payload }.

(* chan []byte : what was enqueued, and whether close() was called. *)
Record Chan := mkChan { buf : list Frame; closed : bool }.

(* make(chan []byte, 256) *)
Definition newChan : Chan := mkChan [] false.

Module Player.
Record t := mk {
  Username : string;
  Conn : nat;              (* the transport, by number *)
  Game : option gptr;      (* nil when not in a game *)
  Send : Chan;
}.
Definition set_Username (v : string) (p : t) : t := mk v (Conn p) (Game p) (Send p).
Definition set_Conn (v : nat) (p : t) : t := mk (Username p) v (Game p) (Send p).
Definition set_Game (v : option gptr) (p : t) : t := mk (Username p) (Conn p) v (Send p).
Definition set_Send (v : Chan) (p : t) : t := mk (Username p) (Conn p) (Game p) v.
End Player.

Module Game.
Record t := mk {
  ID : string;
  Board : Board;
  Player1 : ptr;
  Player2 : option ptr;    (* nil in a bot game *)
  IsBot : bool;
  CurrentPlayer : Z;
  Status : string;         (* "playing", "finished" *)
  Winner : Z;              (* 0 for draw *)
}.
Definition set_Board (v : list (list Z)) (g : t) : t :=
  mk (ID g) v (Player1 g) (Player2 g) (IsBot g) (CurrentPlayer g) (Status g) (Winner g).
Definition set_CurrentPlayer (v : Z) (g : t) : t :=
  mk (ID g) (Board g) (Player1 g) (Player2 g) (IsBot g) v (Status g) (Winner g).
Definition set_Status (v : string) (g : t) : t :=
  mk (ID g) (Board g) (Player1 g) (Player2 g) (IsBot g) (CurrentPlayer g) v (Winner g).
Definition set_Winner (v : Z) (g : t) : t :=
  mk (ID g) (Board g) (Player1 g) (Player2 g) (IsBot g) (CurrentPlayer g) (Status g) v.
End Game.

(* NewPlayer(conn, manager) *)
Definition NewPlayer (conn : nat) : Player.t := Player.mk "" conn None newChan.

(* NewGame(id, manager, p1, p2) *)
Definition NewGame (id : string) (p1 p2 : ptr) : Game.t :=
  Game.mk id zeroBoard p1 (Some p2) false Player1 "playing" 0.

(* NewBotGame(id, manager, p1) *)
Definition NewBotGame (id : string) (p1 : ptr) : Game.t :=
  Game.mk id zeroBoard p1 None true Player1 "playing" 0.

(* The closures handed to time.AfterFunc. *)
Inductive Timer :=
| MatchmakingTimer (player : ptr)
| RoomTimer (roomCode : string) (player : ptr)
| ReconnectTimer (game : gptr) (player : ptr).

Inductive evValue := EvStr (s : string) | EvInt (z : Z) | EvBool (b : bool).

(* The `go` statements. *)
Inductive Task :=
| SaveGame (game : gptr)
| UpdatePlayerStats (username : string) (won : bool)
| ProduceEvent (eventType : string) (data : list (string * evValue))
| BotMakeMove (game : gptr)
| WriteMessages (player : ptr)
| DiscardConnection (player : ptr).

Global Instance Timer_eq_dec : EqDecision Timer.
Proof. solve_decision. Defined.
Global Instance evValue_eq_dec : EqDecision evValue.
Proof. solve_decision. Defined.
Global Instance Task_eq_dec : EqDecision Task.
Proof. solve_decision. Defined.

(* The GameManager, the objects its pointers lead to, and what has been
   handed to the runtime (timers, goroutines). *)
Record World := mkWorld {
  players : gmap string ptr;        (* keyed by username *)
  games : gmap string gptr;         (* keyed by game ID *)
  waitingPlayer : option ptr;
  PrivateRooms : gmap string ptr;   (* keyed by room code *)
  playerStore : ptr → Player.t;
  gameStore : gptr → Game.t;
  nextGame : gptr;                  (* the next *Game to allocate *)
  timers : list Timer;
  spawned : list Task;
  connClosed : nat → bool;          (* transports on which Close() was called *)
}.

(* NewGameManager(), with every connection object as NewPlayer made it. *)
Definition NewGameManager : World :=
  mkWorld ∅ ∅ None ∅ (λ p, NewPlayer p) (λ _, NewGame "" 0%nat 0%nat) 0%nat [] []
    (λ _, false).

(* --------------------------------------------------------------------- *)
(* Outcomes of a handler                                                 *)
(* --------------------------------------------------------------------- *)

Inductive result (A : Type) :=
| Ok (a : A) (w : World)
| Panic (reason : string) (w : World)   (* the store when the panic was raised *)
| Hang (w : World).                     (* the handler does not return *)
Arguments Ok {A} a w.
Arguments Panic {A} reason w.
Arguments Hang {A} w.

Definition M (A : Type) : Type := World → result A.

Definition ret {A} (a : A) : M A := λ w, Ok a w.

Definition bind {A B} (m : M A) (k : A → M B) : M B :=
  λ w, match m w with
       | Ok a w' => k a w'
       | Panic reason w' => Panic reason w'
       | Hang w' => Hang w'
       end.

Notation "x <- c1 ;; c2" := (bind c1 (λ x, c2))
  (at level 100, c1 at next level, right associativity).
Notation "c1 ;; c2" := (bind c1 (λ _, c2))
  (at level 100, right associativity).

Definition world_of {A} (r : result A) : World :=
  match r with Ok _ w | Panic _ w | Hang w => w end.

Definition panic {A} (reason : string) : M A := λ w, Panic reason w.
Definition skip : M unit := ret tt.

Definition get : M World := λ w, Ok w w.
Definition getPlayer (p : ptr) : M Player.t := λ w, Ok (playerStore w p) w.
Definition getGame (g : gptr) : M Game.t := λ w, Ok (gameStore w g) w.

Definition modPlayer (p : ptr) (f : Player.t → Player.t) : M unit :=
  λ w, Ok tt (mkWorld (players w) (games w) (waitingPlayer w) (PrivateRooms w)
                (alter f p (playerStore w)) (gameStore w) (nextGame w)
                (timers w) (spawned w) (connClosed w)).

Definition modGame (g : gptr) (f : Game.t → Game.t) : M unit :=
  λ w, Ok tt (mkWorld (players w) (games w) (waitingPlayer w) (PrivateRooms w)
                (playerStore w) (alter f g (gameStore w)) (nextGame w)
                (timers w) (spawned w) (connClosed w)).

(* gm.players[k] = v, delete(gm.players, k) *)
Definition mod_players (f : gmap string ptr → gmap string ptr) : M unit :=
  λ w, Ok tt (mkWorld (f (players w)) (games w) (waitingPlayer w) (PrivateRooms w)
                (playerStore w) (gameStore w) (nextGame w) (timers w) (spawned w)
                (connClosed w)).

Definition mod_games (f : gmap string gptr → gmap string gptr) : M unit :=
  λ w, Ok tt (mkWorld (players w) (f (games w)) (waitingPlayer w) (PrivateRooms w)
                (playerStore w) (gameStore w) (nextGame w) (timers w) (spawned w)
                (connClosed w)).

Definition set_waitingPlayer (o : option ptr) : M unit :=
  λ w, Ok tt (mkWorld (players w) (games w) o (PrivateRooms w)
                (playerStore w) (gameStore w) (nextGame w) (timers w) (spawned w)
                (connClosed w)).

Definition mod_PrivateRooms (f : gmap string ptr → gmap string ptr) : M unit :=
  λ w, Ok tt (mkWorld (players w) (games w) (waitingPlayer w) (f (PrivateRooms w))
                (playerStore w) (gameStore w) (nextGame w) (timers w) (spawned w)
                (connClosed w)).

(* &Game{...} : a new object at the next free address. *)
Definition allocGame (G : Game.t) : M gptr :=
  λ w, Ok (nextGame w)
          (mkWorld (players w) (games w) (waitingPlayer w) (PrivateRooms w)
             (playerStore w) (<[nextGame w := G]> (gameStore w)) (S (nextGame w))
             (timers w) (spawned w) (connClosed w)).

(* time.AfterFunc(d, f) *)
Definition afterFunc (t : Timer) : M unit :=
  λ w, Ok tt (mkWorld (players w) (games w) (waitingPlayer w) (PrivateRooms w)
                (playerStore w) (gameStore w) (nextGame w) (timers w ++ [t]) (spawned w)
                (connClosed w)).

(* go f(...) *)
Definition go (t : Task) : M unit :=
  λ w, Ok tt (mkWorld (players w) (games w) (waitingPlayer w) (PrivateRooms w)
                (playerStore w) (gameStore w) (nextGame w) (timers w) (spawned w ++ [t])
                (connClosed w)).

(* --------------------------------------------------------------------- *)
(* Connection handle: the outbound queue                                 *)
(* --------------------------------------------------------------------- *)

(* p.Send <- payload *)
Definition SendMessage (p : ptr) (msgType : string) (data : payload) : M unit :=
  P <- getPlayer p ;;
  if closed (Player.Send P) then panic "send on closed channel"
  else modPlayer p (Player.set_Send
         (mkChan (buf (Player.Send P) ++ [mkFrame msgType data]) false)).

Definition SendError (p : ptr) (message : string) : M unit :=
  SendMessage p "error" (MessageData message).

(* close(p.Send) *)
Definition closeSend (p : ptr) : M unit :=
  P <- getPlayer p ;;
  if closed (Player.Send P) then panic "close of closed channel"
  else modPlayer p (Player.set_Send (mkChan (buf (Player.Send P)) true)).

(* conn.Close(), on the transport with the number conn *)
Definition closeConn (conn : nat) : M unit :=
  λ w, Ok tt (mkWorld (players w) (games w) (waitingPlayer w) (PrivateRooms w)
                (playerStore w) (gameStore w) (nextGame w) (timers w) (spawned w)
                (<[conn := true]> (connClosed w))).

(* p.Conn.Close() *)
Definition closeTransport (p : ptr) : M unit :=
  P <- getPlayer p ;;
  closeConn (Player.Conn P).

(* --------------------------------------------------------------------- *)
(* Match (type Game)                                                     *)
(* --------------------------------------------------------------------- *)

Definition getPlayerName (w : World) (G : Game.t) (p : option ptr) : string :=
  match p with
  | Some q => Player.Username (playerStore w q)
  | None => if Game.IsBot G then "Bot" else "Unknown"
  end.

Definition CreateState (g : gptr) : M GameState :=
  w <- get ;;
  let G := gameStore w g in
  ret (mkGameState (Game.ID G) (Game.Board G)
         (Player.Username (playerStore w (Game.Player1 G)))
         (getPlayerName w G (Game.Player2 G))
         (Game.IsBot G) (Game.CurrentPlayer G) (Game.Status G) (Game.Winner G)).

(* !g.IsBot && g.Player2 != nil *)
Definition humanPlayer2 (G : Game.t) : option ptr :=
  if Game.IsBot G then None else Game.Player2 G.

Definition BroadcastState (g : gptr) : M unit :=
  state <- CreateState g ;;
  G <- getGame g ;;
  SendMessage (Game.Player1 G) "game_update" (StateData state) ;;
  match humanPlayer2 G with
  | Some p2 => SendMessage p2 "game_update" (StateData state)
  | None => skip
  end.

Definition endGame (g : gptr) (winner : Z) : M unit :=
  modGame g (Game.set_Status "finished") ;;
  modGame g (Game.set_Winner winner) ;;
  go (SaveGame g) ;;
  w <- get ;;
  let G := gameStore w g in
  let name1 := Player.Username (playerStore w (Game.Player1 G)) in
  let stats2 (won : bool) : M unit :=
    match humanPlayer2 G with
    | Some p2 => go (UpdatePlayerStats (Player.Username (playerStore w p2)) won)
    | None => skip
    end in
  winnerUsername <-
    (if decide (winner = Player1) then
       go (UpdatePlayerStats name1 true) ;; stats2 false ;; ret name1
     else if decide (winner = Player2) then
       go (UpdatePlayerStats name1 false) ;; stats2 true ;;
       ret (getPlayerName w G (Game.Player2 G))
     else
       go (UpdatePlayerStats name1 false) ;; stats2 false ;; ret "Draw") ;;
  go (ProduceEvent "game_ended"
        [("gameId", EvStr (Game.ID G)); ("winner", EvStr winnerUsername);
         ("isBot", EvBool (Game.IsBot G))]) ;;
  mod_games (delete (Game.ID G)) ;;
  modPlayer (Game.Player1 G) (Player.set_Game None) ;;
  match humanPlayer2 G with
  | Some p2 => modPlayer p2 (Player.set_Game None)
  | None => skip
  end.

(* Which side the caller of HandleMove plays: Some playerNum, or None for
   a caller that is not in this game. *)
Definition moverNum (G : Game.t) (player : option ptr) : option Z :=
  if decide (player = Some (Game.Player1 G)) then Some Player1
  else if negb (Game.IsBot G) && bool_decide (player = Game.Player2 G) then Some Player2
  else if bool_decide (player = None) && Game.IsBot G then Some Player2
  else None.

(* player.SendError(msg) under `if player != nil` *)
Definition sendErrorIfHuman (player : option ptr) (message : string) : M unit :=
  match player with
  | Some p => SendError p message
  | None => skip
  end.

(* HandleMove from the analytics event on: the disc is on the board b'
   at (row, col); G is the match as it was when the handler started. *)
Definition afterPlaced (g : gptr) (G : Game.t) (player : option ptr)
    (col playerNum row : Z) (b' : Board) : M unit :=
  w <- get ;;
  go (ProduceEvent "move_made"
        [("gameId", EvStr (Game.ID G));
         ("player", EvStr (getPlayerName w G player));
         ("column", EvInt col); ("row", EvInt row)]) ;;
  if checkWin b' row col playerNum then
    endGame g playerNum ;; BroadcastState g
  else if checkDraw b' then
    endGame g Empty ;; BroadcastState g
  else
    modGame g (Game.set_CurrentPlayer (3 - Game.CurrentPlayer G)) ;;
    BroadcastState g ;;
    if Game.IsBot G && bool_decide (3 - Game.CurrentPlayer G = Player2)
    then go (BotMakeMove g)
    else skip.

Definition HandleMove (g : gptr) (player : option ptr) (col : Z) : M unit :=
  G <- getGame g ;;
  if decide (Game.Status G ≠ "playing") then skip
  else
    match moverNum G player with
    | None =>
        match player with
        | Some _ => skip                         (* logged and dropped *)
        | None => panic "nil pointer dereference"  (* player.Username *)
        end
    | Some playerNum =>
        if decide (playerNum ≠ Game.CurrentPlayer G) then
          sendErrorIfHuman player "It's not your turn."
        else
          match makeMove (Game.Board G) col playerNum with
          | MoveError _ err => sendErrorIfHuman player err
          | Placed row b' =>
              modGame g (Game.set_Board b') ;;
              afterPlaced g G player col playerNum row b'
          end
    end.

Definition HandleDisconnect (g : gptr) (player : ptr) : M unit :=
  G <- getGame g ;;
  if decide (Game.Status G ≠ "playing") then skip
  else afterFunc (ReconnectTimer g player).

(* The closure HandleDisconnect hands to time.AfterFunc. *)
Definition reconnectTimerExpired (g : gptr) (player : ptr) : M unit :=
  G <- getGame g ;;
  if decide (Game.Status G ≠ "playing") then skip
  else
    let winner := if decide (player = Game.Player1 G) then Player2 else Player1 in
    endGame g winner ;;
    BroadcastState g.

(* HandleReconnect, next to a goroutine that takes no lock: `beside n` is
   what that goroutine does right before this method reaches its n-th access
   to the queue of oldPlayer (0: the first access, in either branch; 1: the
   assignment of the new queue; 2: the send of the state).  The steps
   between two such accesses do not touch the queue, so these are all the
   places that differ. *)
Definition HandleReconnect_beside (beside : nat → M unit)
    (g : gptr) (oldPlayer : ptr) (newConn : nat) : M unit :=
  beside 0%nat ;;
  G <- getGame g ;;
  if decide (Game.Status G ≠ "playing") then
    SendError oldPlayer "Game has already finished."
  else
    closeTransport oldPlayer ;;                   (* oldPlayer.Conn.Close() *)
    closeSend oldPlayer ;;                        (* close(oldPlayer.Send) *)
    beside 1%nat ;;
    modPlayer oldPlayer (Player.set_Conn newConn) ;;
    modPlayer oldPlayer (Player.set_Send newChan) ;;
    beside 2%nat ;;
    go (WriteMessages oldPlayer) ;;
    state <- CreateState g ;;
    SendMessage oldPlayer "reconnected" (StateData state).

(* HandleReconnect with nothing running next to it. *)
Definition HandleReconnect (g : gptr) (oldPlayer : ptr) (newConn : nat) : M unit :=
  HandleReconnect_beside (λ _, skip) g oldPlayer newConn.

(* --------------------------------------------------------------------- *)
(* Session Director (the game manager)                                   *)
(* --------------------------------------------------------------------- *)

(* What the runtime supplies to one handler call: the uuid of a new game;
   the values rand.Intn returns (the k-th call gives `rnd k`, reduced into
   range); for how many iterations a loop over these values is followed;
   how many codes the loop of generateRoomCode found taken before it
   returned; and when the goroutine of handleReconnect is scheduled: right
   before the `race`-th access of HandleReconnect to the queue (0, 1, 2),
   or, from 3 on, after the handler has returned. *)
Record Oracle := mkOracle {
  uuid : string;
  rnd : nat → nat;
  attempts : nat;
  rejected : nat;
  race : nat;
}.

Definition AddPlayer (player : ptr) : M unit :=
  SendMessage player "waiting" NoData.

(* for roomCode, roomPlayer := range gm.PrivateRooms {
     if roomPlayer == player { delete(gm.PrivateRooms, roomCode); break } }
   `order` is the order in which the runtime enumerates the keys. *)
Fixpoint removeHostedRoom (order : list string) (rooms : gmap string ptr)
    (player : ptr) : gmap string ptr :=
  match order with
  | [] => rooms
  | roomCode :: rest =>
      match rooms !! roomCode with
      | Some roomPlayer =>
          if decide (roomPlayer = player) then delete roomCode rooms
          else removeHostedRoom rest rooms player
      | None => removeHostedRoom rest rooms player
      end
  end.

Definition UnregisterPlayer (player : ptr) (order : list string) : M unit :=
  P <- getPlayer player ;;
  if decide (Player.Username P = "") then skip
  else
    w <- get ;;
    mod_players (delete (Player.Username P)) ;;
    (if decide (waitingPlayer w = Some player) then set_waitingPlayer None else skip) ;;
    mod_PrivateRooms (λ rooms, removeHostedRoom order rooms player) ;;
    match Player.Game P with
    | Some g => HandleDisconnect g player
    | None => skip
    end ;;
    closeSend player.

Definition startGame (p1 p2 : ptr) (gameID : string) : M unit :=
  g <- allocGame (NewGame gameID p1 p2) ;;
  mod_games (insert gameID g) ;;
  modPlayer p1 (Player.set_Game (Some g)) ;;
  modPlayer p2 (Player.set_Game (Some g)) ;;
  BroadcastState g ;;
  w' <- get ;;
  go (ProduceEvent "game_started"
        [("gameId", EvStr gameID);
         ("player1", EvStr (Player.Username (playerStore w' p1)));
         ("player2", EvStr (Player.Username (playerStore w' p2)));
         ("isBot", EvBool false)]).

Definition startBotGame (player : ptr) (gameID : string) : M unit :=
  w <- get ;;
  if decide (waitingPlayer w ≠ Some player) then skip
  else
    set_waitingPlayer None ;;
    g <- allocGame (NewBotGame gameID player) ;;
    mod_games (insert gameID g) ;;
    modPlayer player (Player.set_Game (Some g)) ;;
    BroadcastState g ;;
    w' <- get ;;
    go (ProduceEvent "game_started"
          [("gameId", EvStr gameID);
           ("player1", EvStr (Player.Username (playerStore w' player)));
           ("player2", EvStr "Bot"); ("isBot", EvBool true)]).

Definition handleJoin (player : ptr) (username : string) (gameID : string) : M unit :=
  if decide (username = "") then SendError player "Username cannot be empty."
  else
    w <- get ;;
    if decide (is_Some (players w !! username)) then
      SendError player "Username already taken. Try 'reconnect' if you were in a game."
    else
      modPlayer player (Player.set_Username username) ;;
      mod_players (insert username player) ;;
      match waitingPlayer w with
      | None =>
          set_waitingPlayer (Some player) ;;
          SendMessage player "waiting" NoData ;;
          afterFunc (MatchmakingTimer player)
      | Some opponent =>
          if decide (opponent = player) then skip
          else set_waitingPlayer None ;; startGame opponent player gameID
      end.

Definition handleMove (player : ptr) (col : Z) : M unit :=
  P <- getPlayer player ;;
  match Player.Game P with
  | None => SendError player "You are not in a game."
  | Some g => HandleMove g (Some player) col
  end.

(* The goroutine of handleReconnect:
     for len(player.Send) > 0 { <-player.Send }
     close(player.Send)
     player.Conn.Close()
   It reads both fields when it runs.  The queue of the model keeps what was
   enqueued, so the draining loop leaves it as it is. *)
Definition discardConnection (player : ptr) : M unit :=
  closeSend player ;;
  closeTransport player.

(* The goroutine takes no lock, so it runs at any time from the `go`
   statement on: at the place `race` inside HandleReconnect, or later, as
   the event Discard. *)
Definition handleReconnect (player : ptr) (username : string) (race : nat) : M unit :=
  w <- get ;;
  match players w !! username ≫= λ oldPlayer,
        Player.Game (playerStore w oldPlayer) ≫= λ g, Some (oldPlayer, g) with
  | None => SendError player "No active game found to reconnect to."
  | Some (oldPlayer, g) =>
      go (DiscardConnection player) ;;
      HandleReconnect_beside
        (λ n, if decide (n = race) then discardConnection player else skip)
        g oldPlayer (Player.Conn (playerStore w player))
  end.

Definition charset : string := "ABCDEFGHIJKLMNOPQRSTUVWXYZ0123456789".
Definition codeLength : nat := 6.

(* code[i] = charset[rand.Intn(len(charset))], for the draws k, k+1, ... *)
Fixpoint randomCode (n : nat) (rnd : nat → nat) (k : nat) : string :=
  match n with
  | O => EmptyString
  | S n' =>
      String (default "A"%char (String.get (rnd k mod String.length charset)%nat charset))
             (randomCode n' rnd (S k))
  end.

(* for { ...; if !exists { return roomCode } }, followed for `attempts`
   iterations on one state of the room table: the code of the first
   iteration that finds its code free, None when none of them does. *)
Fixpoint generateRoomCode (attempts : nat) (rnd : nat → nat) (k : nat)
    (rooms : gmap string ptr) : option string :=
  match attempts with
  | O => None
  | S attempts' =>
      let roomCode := randomCode codeLength rnd k in
      if decide (is_Some (rooms !! roomCode))
      then generateRoomCode attempts' rnd (k + codeLength)%nat rooms
      else Some roomCode
  end.

(* The closure handleCreatePrivateRoom hands to time.AfterFunc. *)
Definition roomTimerExpired (roomCode : string) (player : ptr) : M unit :=
  w <- get ;;
  match PrivateRooms w !! roomCode with
  | Some roomPlayer =>
      if decide (roomPlayer = player) then
        mod_PrivateRooms (delete roomCode) ;;
        SendMessage player "private_room_expired"
          (MessageData "No one joined your room. It has expired.")
      else skip
  | None => skip
  end.

(* The code generateRoomCode returns to a caller for whom its loop found
   `rejected` codes taken: the one it drew next. *)
Definition generatedCode (rnd : nat → nat) (rejected : nat) : string :=
  randomCode codeLength rnd (rejected * codeLength).

(* handleCreatePrivateRoom calls generateRoomCode before it takes the lock,
   and the loop looks each code up under a read lock of its own: the codes
   were looked up in the room table as it was then, not in the one the
   handler finds under its lock.  The oracle says how the lookups went. *)
Definition handleCreatePrivateRoom (player : ptr) (username : string)
    (o : Oracle) : M unit :=
  if decide (username = "") then SendError player "Username cannot be empty."
  else
    let roomCode := generatedCode (rnd o) (rejected o) in
    w <- get ;;
    if decide (is_Some (players w !! username)) then
      SendError player "Username already taken."
    else
      modPlayer player (Player.set_Username username) ;;
      mod_players (insert username player) ;;
      mod_PrivateRooms (insert roomCode player) ;;
      SendMessage player "private_room_created" (RoomCodeData roomCode) ;;
      afterFunc (RoomTimer roomCode player).

Definition handleJoinPrivateRoom (player : ptr) (username roomCode : string)
    (gameID : string) : M unit :=
  if decide (username = "") then SendError player "Username cannot be empty."
  else if decide (roomCode = "") then SendError player "Room code cannot be empty."
  else
    w <- get ;;
    if decide (is_Some (players w !! username)) then
      SendError player "Username already taken."
    else
      match PrivateRooms w !! roomCode with
      | None => SendError player "Invalid or expired room code."
      | Some roomHost =>
          if decide (Player.Username (playerStore w roomHost) = username) then
            SendError player "You cannot join your own room."
          else
            modPlayer player (Player.set_Username username) ;;
            mod_players (insert username player) ;;
            mod_PrivateRooms (delete roomCode) ;;
            startGame roomHost player gameID
      end.

(* A frame after json.Unmarshal. *)
Record Message := mkMessage {
  msgType : string;
  msgUsername : string;
  msgColumn : Z;
  msgRoomCode : string;
}.

Inductive Incoming := Malformed | Parsed (msg : Message).

Definition HandleMessage (player : ptr) (raw : Incoming) (o : Oracle) : M unit :=
  match raw with
  | Malformed => SendError player "Invalid message format."
  | Parsed msg =>
      if decide (msgType msg = "join") then
        handleJoin player (msgUsername msg) (uuid o)
      else if decide (msgType msg = "move") then
        handleMove player (msgColumn msg)
      else if decide (msgType msg = "reconnect") then
        handleReconnect player (msgUsername msg) (race o)
      else if decide (msgType msg = "create_private_room") then
        handleCreatePrivateRoom player (msgUsername msg) o
      else if decide (msgType msg = "join_private_room") then
        handleJoinPrivateRoom player (msgUsername msg) (msgRoomCode msg) (uuid o)
      else SendError player "Unknown message type."
  end.

(* --------------------------------------------------------------------- *)
(* The server as a transition system                                     *)
(* --------------------------------------------------------------------- *)

Fixpoint removeTimer (t : Timer) (ts : list Timer) : list Timer :=
  match ts with
  | [] => []
  | t' :: rest => if decide (t' = t) then rest else t' :: removeTimer t rest
  end.

(* The runtime runs an armed callback once. *)
Definition disarm (t : Timer) : M unit :=
  λ w, Ok tt (mkWorld (players w) (games w) (waitingPlayer w) (PrivateRooms w)
                (playerStore w) (gameStore w) (nextGame w)
                (removeTimer t (timers w)) (spawned w) (connClosed w)).

Definition callback (t : Timer) (o : Oracle) : M unit :=
  match t with
  | MatchmakingTimer player => startBotGame player (uuid o)
  | RoomTimer roomCode player => roomTimerExpired roomCode player
  | ReconnectTimer g player => reconnectTimerExpired g player
  end.

(* What can happen to the server.  The system is over-approximated: a frame
   may come from any handle, the range loop of UnregisterPlayer may take any
   order (the runtime's is one of them), the bot may pick any column,
   generateRoomCode may have stopped at any of its draws, and a goroutine
   that was started may run at any later time, and again. *)
Inductive Event :=
| Connect (p : ptr)                               (* handleWebSocket *)
| Receive (p : ptr) (raw : Incoming) (o : Oracle) (* ReadMessages, one frame *)
| Disconnect (p : ptr) (order : list string)      (* the defer of ReadMessages *)
| Fire (t : Timer) (o : Oracle)                   (* an armed timer goes off *)
| BotMove (g : gptr) (col : Z)                    (* Bot.MakeMove *)
| Discard (p : ptr).                              (* handleReconnect's goroutine *)

Definition enabled (e : Event) (w : World) : Prop :=
  match e with
  | Fire t _ => t ∈ timers w
  | BotMove g _ => BotMakeMove g ∈ spawned w
  | Discard p => DiscardConnection p ∈ spawned w
  | _ => True
  end.

Definition run (e : Event) : M unit :=
  match e with
  | Connect p => AddPlayer p
  | Receive p raw o => HandleMessage p raw o
  | Disconnect p order => UnregisterPlayer p order ;; closeTransport p
  | Fire t o => disarm t ;; callback t o
  | BotMove g col => HandleMove g None col
  | Discard p => discardConnection p
  end.

Inductive reachable : World → Prop :=
| reachable_init : reachable NewGameManager
| reachable_step w e w' :
    reachable w → enabled e w → run e w = Ok tt w' → reachable w'.

(* A run of events that stops at the first panic or hang. *)
Fixpoint run_all (es : list Event) : M unit :=
  match es with
  | [] => skip
  | e :: es' => run e ;; run_all es'
  end.

(* --------------------------------------------------------------------- *)
(* Vocabulary of the properties                                          *)
(* --------------------------------------------------------------------- *)

(* The four line directions of checkWin, as (row step, column step). *)
Definition directions : list (Z * Z) := [(0, 1); (1, 0); (1, 1); (-1, 1)].

(* Four cells on the board, from (r, c) in steps of (dr, dc), all p. *)
Definition run_of_4 (b : Board) (p r c dr dc : Z) : Prop :=
  ∀ j, 0 ≤ j < 4 →
    in_bounds (r + j * dr) (c + j * dc) = true ∧ cell b (r + j * dr) (c + j * dc) = p.

(* A run of 4 that contains the cell (lastRow, lastCol). *)
Definition run_through (b : Board) (p lastRow lastCol : Z) : Prop :=
  ∃ dr dc k, (dr, dc) ∈ directions ∧ 0 ≤ k < 4 ∧
    run_of_4 b p (lastRow - k * dr) (lastCol - k * dc) dr dc.

(* A run of 4 anywhere on the board. *)
Definition has_run (b : Board) (p : Z) : Prop :=
  ∃ r c dr dc, (dr, dc) ∈ directions ∧ run_of_4 b p r c dr dc.

(* has_run, decided by enumeration of the start cells. *)
Definition run_of_4b (b : Board) (p r c dr dc : Z) : bool :=
  forallb (λ j, in_bounds (r + j * dr) (c + j * dc)
                && (cell b (r + j * dr) (c + j * dc) =? p)) [0; 1; 2; 3].

Definition has_runb (b : Board) (p : Z) : bool :=
  existsb (λ r, existsb (λ c, existsb (λ d : Z * Z, run_of_4b b p r c d.1 d.2)
                                directions)
                  (seqZ 0 Cols))
          (seqZ 0 Rows).

Definition column_full (b : Board) (col : Z) : Prop :=
  ∀ r, 0 ≤ r < Rows → cell b r col ≠ Empty.

Definition top_row_full (b : Board) : Prop :=
  ∀ c, 0 ≤ c < Cols → cell b 0 c ≠ Empty.

Definition board_full (b : Board) : Prop :=
  ∀ r c, 0 ≤ r < Rows → 0 ≤ c < Cols → cell b r c ≠ Empty.

(* Gravity: an occupied cell has only occupied cells below it (rows grow
   downwards, row Rows - 1 is the bottom). *)
Definition gravity (b : Board) : Prop :=
  ∀ r c, 0 ≤ r < Rows → 0 ≤ c < Cols → cell b r c ≠ Empty →
    ∀ r', r < r' < Rows → cell b r' c ≠ Empty.

(* How often endGame has run for the match g: it starts `go SaveGame(g)`
   once per call. *)
Definition finishes (g : gptr) (w : World) : nat :=
  length (filter (λ t, t = SaveGame g) (spawned w)).

(* Everything that can be done to one match. *)
Inductive GameOp :=
| MoveOp (player : option ptr) (col : Z)
| DisconnectOp (player : ptr)
| ReconnectOp (oldPlayer : ptr) (newConn : nat)
| TimerOp (player : ptr).

Definition run_op (g : gptr) (op : GameOp) : M unit :=
  match op with
  | MoveOp player col => HandleMove g player col
  | DisconnectOp player => HandleDisconnect g player
  | ReconnectOp oldPlayer newConn => HandleReconnect g oldPlayer newConn
  | TimerOp player => reconnectTimerExpired g player
  end.

Fixpoint run_ops (g : gptr) (ops : list GameOp) : M unit :=
  match ops with
  | [] => skip
  | op :: ops' => run_op g op ;; run_ops g ops'
  end.

(* An invariant survives a handler, however the handler ends. *)
Definition preserves {A} (I : World → Prop) (m : M A) : Prop :=
  ∀ w, I w → I (world_of (m w)).

(* The frame a rejection enqueues. *)
Definition errorFrame (message : string) : Frame :=
  mkFrame "error" (MessageData message).

Definition connected (w : World) (p : ptr) : Prop :=
  closed (Player.Send (playerStore w p)) = false.

Definition outbox (w : World) (p : ptr) : list Frame :=
  buf (Player.Send (playerStore w p)).

(* Two stores that differ at most in what the outbound queues hold. *)
Record only_sends (w w' : World) : Prop := mk_only_sends {
  os_players : players w' = players w;
  os_games : games w' = games w;
  os_waitingPlayer : waitingPlayer w' = waitingPlayer w;
  os_PrivateRooms : PrivateRooms w' = PrivateRooms w;
  os_gameStore : gameStore w' = gameStore w;
  os_nextGame : nextGame w' = nextGame w;
  os_timers : timers w' = timers w;
  os_spawned : spawned w' = spawned w;
  os_Username : ∀ p, Player.Username (playerStore w' p) = Player.Username (playerStore w p);
  os_Game : ∀ p, Player.Game (playerStore w' p) = Player.Game (playerStore w p);
  os_Conn : ∀ p, Player.Conn (playerStore w' p) = Player.Conn (playerStore w p);
  os_connClosed : connClosed w' = connClosed w;
}.

(* Every match object holds a well-formed board that obeys gravity. *)
Definition boards_ok (w : World) : Prop :=
  ∀ g, board_wf (Game.Board (gameStore w g)) ∧ gravity (Game.Board (gameStore w g)).

(* No registry is keyed by the empty string. *)
Definition keys_ok (w : World) : Prop :=
  players w !! "" = None ∧ PrivateRooms w !! "" = None.

(* The invariant of the reachable stores. *)
Definition inv (w : World) : Prop := boards_ok w ∧ keys_ok w.

(* column_full and board_full, decided by enumeration. *)
Definition column_fullb (b : Board) (col : Z) : bool :=
  forallb (λ r, negb (cell b r col =? Empty)) (seqZ 0 Rows).

Definition board_fullb (b : Board) : bool :=
  forallb (column_fullb b) (seqZ 0 Cols).

(* --------------------------------------------------------------------- *)
(* Scenarios                                                             *)
(* --------------------------------------------------------------------- *)

Definition alice : ptr := 1%nat.
Definition bob : ptr := 2%nat.
Definition carol : ptr := 3%nat.

Definition oracle0 : Oracle := mkOracle "game-1" (λ k, k) 1 0 3.
Definition oracle1 : Oracle := mkOracle "game-2" (λ k, (k + 6)%nat) 1 0 3.

Definition joinMsg (u : string) : Incoming := Parsed (mkMessage "join" u 0 "").
Definition moveMsg (c : Z) : Incoming := Parsed (mkMessage "move" "" c "").
Definition createRoomMsg (u : string) : Incoming :=
  Parsed (mkMessage "create_private_room" u 0 "").

(* Moves sent in turn by two connections. *)
Fixpoint alternate (first second : ptr) (cols : list Z) : list Event :=
  match cols with
  | [] => []
  | c :: rest => Receive first (moveMsg c) oracle0 :: alternate second first rest
  end.

(* alice joins and waits. *)
Definition waiting_alice : World :=
  world_of (run_all [Connect alice; Receive alice (joinMsg "alice") oracle0]
              NewGameManager).

(* bob joins too: the two are paired in match 0. *)
Definition paired : World :=
  world_of (run_all [Connect bob; Receive bob (joinMsg "bob") oracle0] waiting_alice).

(* alice has three discs in column 3, bob three in column 0; alice to move. *)
Definition before_win : World :=
  world_of (run_all (alternate alice bob [3; 0; 3; 0; 3; 0]) paired).

Definition after_win : World :=
  world_of (HandleMove 0%nat (Some alice) 3 before_win).

(* 41 moves that fill the board but for the top of column 6, without a run
   of 4 for either side; bob to move. *)
Definition draw_columns : list Z :=
  [2; 0; 0; 0; 0; 0; 0; 1; 1; 1; 1; 1; 1; 2; 2; 2; 2; 2; 3; 3; 3; 3; 3; 3; 6;
   4; 4; 4; 4; 4; 4; 5; 5; 5; 5; 5; 5; 6; 6; 6; 6].

Definition before_draw : World :=
  world_of (run_all (alternate alice bob draw_columns) paired).

(* The boards the two closing moves leave. *)
Definition won_board : Board :=
  [[0; 0; 0; 0; 0; 0; 0]; [0; 0; 0; 0; 0; 0; 0]; [0; 0; 0; 1; 0; 0; 0];
   [2; 0; 0; 1; 0; 0; 0]; [2; 0; 0; 1; 0; 0; 0]; [2; 0; 0; 1; 0; 0; 0]].

Definition drawn_board : Board :=
  [[1; 1; 2; 2; 1; 1; 2]; [2; 2; 1; 1; 2; 2; 1]; [1; 1; 2; 2; 1; 1; 2];
   [2; 2; 1; 1; 2; 2; 1]; [1; 1; 2; 2; 1; 1; 2]; [2; 2; 1; 1; 2; 2; 1]].

(* One connection creates a room as "alice", then another as "bob". *)
Definition one_room : World :=
  world_of (run_all [Connect alice; Receive alice (createRoomMsg "alice") oracle0]
              NewGameManager).

Definition two_rooms : World :=
  world_of (run (Receive alice (createRoomMsg "bob") oracle1) one_room).

(* ... and disconnects; the runtime enumerates the rooms in this order. *)
Definition host_left : World :=
  world_of (run (Disconnect alice ["ABCDEF"; "GHIJKL"]) two_rooms).

(* alice drops out of the match of `paired`. *)
Definition alice_left : World :=
  world_of (run (Disconnect alice []) paired).

(* --------------------------------------------------------------------- *)
(* Bot                                                                   *)
(* --------------------------------------------------------------------- *)

(* board[0][col] == Empty *)
Definition isValidMove (board : Board) (col : Z) : bool :=
  cell board 0 col =? Empty.

(* for r := Rows - 1; r >= 0; r-- { if board[r][col] == Empty { return r } }
   return -1 *)
Fixpoint getNextOpenRow_rows (n : nat) (board : Board) (col : Z) : Z :=
  match n with
  | O => -1
  | S n' =>
      if cell board (Z.of_nat n') col =? Empty then Z.of_nat n'
      else getNextOpenRow_rows n' board col
  end.

Definition getNextOpenRow (board : Board) (col : Z) : Z :=
  getNextOpenRow_rows (Z.to_nat Rows) board col.

(* The bot's static checkWin(board, lastRow, lastCol, playerNum) has the
   body of the match's checkWin, loop for loop: it is `checkWin` above.

   Loops 1 and 2 of findBestMove, for the columns c, c + 1, ... < Cols: try
   a disc of `who` in each open column, return the first column where it
   wins, undo otherwise.  The array is the bot's own copy; it is handed on
   as the loop leaves it. *)
Fixpoint tryWin (fuel : nat) (board : Board) (who c : Z) : option Z * Board :=
  match fuel with
  | O => (None, board)
  | S fuel' =>
      if c <? Cols then
        if negb (isValidMove board c) then tryWin fuel' board who (c + 1)
        else
          let r := getNextOpenRow board c in
          let board1 := set_cell board r c who in
          if checkWin board1 r c who then (Some c, board1)
          else tryWin fuel' (set_cell board1 r c Empty) who (c + 1)
      else (None, board)
  end.

Definition centerCols : list Z := [3; 2; 4; 1; 5; 0; 6].

(* Loop 3: the first open column, centre first, where a disc of the human
   in the cell above the landing row does not win. *)
Fixpoint preferCenter (cols : list Z) (board : Board) (humanPlayer : Z)
  : option Z * Board :=
  match cols with
  | [] => (None, board)
  | c :: rest =>
      if isValidMove board c then
        let r := getNextOpenRow board c in
        if r >? 0 then
          let board1 := set_cell board (r - 1) c humanPlayer in
          if checkWin board1 (r - 1) c humanPlayer
          then preferCenter rest (set_cell board1 (r - 1) c Empty) humanPlayer
          else (Some c, set_cell board1 (r - 1) c Empty)
        else (Some c, board)
      else preferCenter rest board humanPlayer
  end.

(* Loop 4: for { c := rand.Intn(Cols); if isValidMove(board, c) { return c } },
   with the draws k, k + 1, ...; None when `attempts` draws found no open
   column. *)
Fixpoint randomMove (attempts : nat) (rnd : nat → nat) (k : nat) (board : Board)
  : option Z :=
  match attempts with
  | O => None
  | S attempts' =>
      let c := Z.of_nat (rnd k mod Z.to_nat Cols) in
      if isValidMove board c then Some c
      else randomMove attempts' rnd (S k) board
  end.

(* findBestMove(board, botPlayer, humanPlayer); None: it does not return
   within the draws allowed. *)
Definition findBestMove (board : Board) (botPlayer humanPlayer : Z)
    (rnd : nat → nat) (k attempts : nat) : option Z :=
  match tryWin (Z.to_nat Cols) board botPlayer 0 with
  | (Some c, _) => Some c
  | (None, board) =>
      match tryWin (Z.to_nat Cols) board humanPlayer 0 with
      | (Some c, _) => Some c
      | (None, board) =>
          match preferCenter centerCols board humanPlayer with
          | (Some c, _) => Some c
          | (None, board) => randomMove attempts rnd k board
          end
      end
  end.

(* Bot.MakeMove(g): the first draw of the generator sets the delay, the
   board is copied, and the column found is played through HandleMove with
   a nil player.  Between the copy and the move the match is unlocked; only
   the bot can change the board while the turn is the bot's. *)
Definition Bot_MakeMove (g : gptr) (o : Oracle) : M unit :=
  G <- getGame g ;;
  match findBestMove (Game.Board G) Player2 Player1 (rnd o) 1 (attempts o) with
  | Some col => HandleMove g None col
  | None => λ w, Hang w
  end.

(* A disc of `who` dropped in column c is accepted and checkWin reports a
   win for it. *)
Definition winsAt (b : Board) (who c : Z) : bool :=
  isValidMove b c &&
  checkWin (set_cell b (getNextOpenRow b c) c who) (getNextOpenRow b c) c who.

(* Column c is open, and a disc of the human in the cell above its landing
   row, the landing cell left empty, makes no line of four. *)
Definition openAndSafe (b : Board) (humanPlayer c : Z) : bool :=
  isValidMove b c &&
  negb ((getNextOpenRow b c >? 0) &&
        checkWin (set_cell b (getNextOpenRow b c - 1) c humanPlayer)
                 (getNextOpenRow b c - 1) c humanPlayer).

(* A run of 4 on one of the four lines through (lastRow, lastCol). *)
Definition run_on_line (b : Board) (p lastRow lastCol : Z) : Prop :=
  ∃ dr dc t, (dr, dc) ∈ directions ∧
    run_of_4 b p (lastRow + t * dr) (lastCol + t * dc) dr dc.

(* --------------------------------------------------------------------- *)
(* What an event does to the matches                                     *)
(* --------------------------------------------------------------------- *)

(* The match objects, the match table and the next address are untouched. *)
Definition same_matches (w w' : World) : Prop :=
  gameStore w' = gameStore w ∧ games w' = games w ∧ nextGame w' = nextGame w.

Definition keeps_matches {A} (m : M A) : Prop :=
  ∀ w, same_matches w (world_of (m w)).

(* The steps of one match object G: an accepted move that passes the turn,
   one that wins, one that fills the top row, and a forfeit.  The flag says
   whether the step finishes the match. *)
Inductive match_step (G : Game.t) : Game.t → bool → Prop :=
| step_move col row b' :
    makeMove (Game.Board G) col (Game.CurrentPlayer G) = Placed row b' →
    checkWin b' row col (Game.CurrentPlayer G) = false →
    checkDraw b' = false →
    match_step G (Game.set_CurrentPlayer (3 - Game.CurrentPlayer G)
                    (Game.set_Board b' G)) false
| step_win col row b' :
    makeMove (Game.Board G) col (Game.CurrentPlayer G) = Placed row b' →
    checkWin b' row col (Game.CurrentPlayer G) = true →
    match_step G (Game.set_Winner (Game.CurrentPlayer G)
                    (Game.set_Status "finished" (Game.set_Board b' G))) true
| step_draw col row b' :
    makeMove (Game.Board G) col (Game.CurrentPlayer G) = Placed row b' →
    checkWin b' row col (Game.CurrentPlayer G) = false →
    checkDraw b' = true →
    match_step G (Game.set_Winner Empty
                    (Game.set_Status "finished" (Game.set_Board b' G))) true
| step_forfeit winner :
    winner = Player1 ∨ winner = Player2 →
    match_step G (Game.set_Winner winner (Game.set_Status "finished" G)) true.

(* A new match object G at the next address, entered in the table. *)
Record starts_match (w w' : World) (G : Game.t) : Prop := mk_starts_match {
  sm_new : gameStore w' (nextGame w) = G;
  sm_old : ∀ g, g ≠ nextGame w → gameStore w' g = gameStore w g;
  sm_games : games w' = <[Game.ID G := nextGame w]> (games w);
  sm_next : nextGame w' = S (nextGame w);
}.

(* The match object at g becomes G'; a finished match leaves the table. *)
Record changes_match (w w' : World) (g : gptr) (G' : Game.t) (finished : bool)
  : Prop := mk_changes_match {
  cm_new : gameStore w' g = G';
  cm_old : ∀ g', g' ≠ g → gameStore w' g' = gameStore w g';
  cm_games : games w' = if finished then delete (Game.ID (gameStore w g)) (games w)
                        else games w;
  cm_next : nextGame w' = nextGame w;
}.

Inductive game_effect (w w' : World) : Prop :=
| effect_none : same_matches w w' → game_effect w w'
| effect_start G :
    (∃ id p1 p2, G = NewGame id p1 p2) ∨ (∃ id p1, G = NewBotGame id p1) →
    starts_match w w' G → game_effect w w'
| effect_step g G' finished :
    Game.Status (gameStore w g) = "playing" →
    match_step (gameStore w g) G' finished →
    changes_match w w' g G' finished → game_effect w w'.

Definition match_effects {A} (m : M A) : Prop :=
  ∀ w, game_effect w (world_of (m w)).

(* The numbers a match object may hold. *)
Definition game_ok (G : Game.t) : Prop :=
  (Game.CurrentPlayer G = Player1 ∨ Game.CurrentPlayer G = Player2) ∧
  (Game.Status G = "playing" ∨ Game.Status G = "finished") ∧
  (Game.Winner G = Empty ∨ Game.Winner G = Player1 ∨ Game.Winner G = Player2) ∧
  (Game.Status G = "playing" → Game.Winner G = Empty) ∧
  (Game.IsBot G = true ↔ Game.Player2 G = None) ∧
  (∀ r c, cell (Game.Board G) r c = Empty ∨ cell (Game.Board G) r c = Player1 ∨
          cell (Game.Board G) r c = Player2).

(* The cells of the array, row by row. *)
Definition all_cells : list (Z * Z) :=
  r ← seqZ 0 Rows; c ← seqZ 0 Cols; [(r, c)].

(* How many discs of player p lie on the board. *)
Definition discs (b : Board) (p : Z) : nat :=
  length (filter (λ rc, cell b rc.1 rc.2 = p) all_cells).

(* --------------------------------------------------------------------- *)
(* Persistence: the statistics update                                    *)
(* --------------------------------------------------------------------- *)

Definition boolToInt (b : bool) : Z := if b then 1 else 0.

(* UpdatePlayerStats(username, won), as far as the server goes: with no
   database (db == nil) it returns at once; otherwise it executes one
   statement,
     INSERT INTO players (username, games_played, games_won, games_lost)
     VALUES ($1, 1, $2, $3)
     ON CONFLICT (username) DO UPDATE SET
       games_played = players.games_played + 1,
       games_won = players.games_won + $2,
       games_lost = players.games_lost + $3, ...
   with the arguments ($1, $2, $3) computed here.  What the statement does
   to the table is the database's part and is not modelled. *)
Definition UpdatePlayerStats_args (db : bool) (username : string) (won : bool)
  : option (string * Z * Z) :=
  if db then Some (username, boolToInt won, boolToInt (negb won)) else None.

(* The name endGame and SaveGame give the winner. *)
Definition winnerLabel (w : World) (G : Game.t) (winner : Z) : string :=
  if decide (winner = Player1) then Player.Username (playerStore w (Game.Player1 G))
  else if decide (winner = Player2) then getPlayerName w G (Game.Player2 G)
  else "Draw".

(* --------------------------------------------------------------------- *)
(* More scenarios                                                        *)
(* --------------------------------------------------------------------- *)

(* gravity, decided by enumeration. *)
Definition gravityb (b : Board) : bool :=
  forallb (λ c,
    forallb (λ r,
      (cell b r c =? Empty) ||
      forallb (λ r', negb (cell b r' c =? Empty)) (seqZ (r + 1) (Rows - 1 - r)))
      (seqZ 0 Rows))
    (seqZ 0 Cols).

(* Boards with the bot (Player2) to move: a win for the bot in column 0; a
   threat of the human in column 3 and no win for the bot; the human's
   opening disc in column 3. *)
Definition bot_win_board : Board :=
  [[0; 0; 0; 0; 0; 0; 0]; [0; 0; 0; 0; 0; 0; 0]; [0; 0; 0; 0; 0; 0; 0];
   [2; 1; 0; 0; 0; 0; 0]; [2; 1; 0; 0; 0; 0; 0]; [2; 1; 1; 0; 0; 0; 0]].

Definition bot_block_board : Board :=
  [[0; 0; 0; 0; 0; 0; 0]; [0; 0; 0; 0; 0; 0; 0]; [0; 0; 0; 0; 0; 0; 0];
   [0; 0; 0; 1; 0; 0; 0]; [0; 0; 0; 1; 0; 0; 0]; [2; 2; 0; 1; 0; 0; 0]].

Definition bot_centre_board : Board :=
  [[0; 0; 0; 0; 0; 0; 0]; [0; 0; 0; 0; 0; 0; 0]; [0; 0; 0; 0; 0; 0; 0];
   [0; 0; 0; 0; 0; 0; 0]; [0; 0; 0; 0; 0; 0; 0]; [0; 0; 0; 1; 0; 0; 0]].

(* Nobody joins alice: her matchmaking timer fires and she plays the bot;
   she opens in column 3, and the bot is to move. *)
Definition bot_match : World :=
  world_of (run (Fire (MatchmakingTimer alice) oracle0) waiting_alice).

Definition bot_to_move : World :=
  world_of (run (Receive alice (moveMsg 3) oracle0) bot_match).

(* alice and bob after alice's opening move in column 3. *)
Definition after_opening : World :=
  world_of (HandleMove 0%nat (Some alice) 3 paired).

(* --------------------------------------------------------------------- *)
(* Board engine: cells                                                   *)
(* --------------------------------------------------------------------- *)

Lemma in_bounds_spec r c :
  in_bounds r c = true ↔ 0 ≤ r < Rows ∧ 0 ≤ c < Cols.
Proof. unfold in_bounds, Rows, Cols. rewrite !andb_true_iff. lia. Qed.

Lemma cell_out_of_bounds b r c : in_bounds r c = false → cell b r c = Empty.
Proof. intros H. unfold cell. by rewrite H. Qed.

Lemma cell_nonempty_in_bounds b r c :
  cell b r c ≠ Empty → 0 ≤ r < Rows ∧ 0 ≤ c < Cols.
Proof.
  intros H. apply in_bounds_spec.
  destruct (in_bounds r c) eqn:E; [done|]. by rewrite cell_out_of_bounds in H.
Qed.

Lemma zeroBoard_wf : board_wf zeroBoard.
Proof.
  split; [apply length_replicate|].
  apply Forall_replicate, length_replicate.
Qed.

Lemma cell_zeroBoard r c : cell zeroBoard r c = Empty.
Proof.
  unfold cell. destruct (in_bounds r c) eqn:E; [|done].
  apply in_bounds_spec in E. unfold zeroBoard, Rows, Cols in *.
  rewrite lookup_replicate_2 by lia. unfold mbind, option_bind.
  rewrite lookup_replicate_2 by lia. done.
Qed.

Lemma set_cell_wf b r c v : board_wf b → board_wf (set_cell b r c v).
Proof.
  intros [Hl Hr]. split; unfold set_cell.
  - by rewrite length_alter.
  - apply Forall_alter; [done|]. intros row _ Hrow. by rewrite length_insert.
Qed.

Lemma cell_set_cell b r c v r' c' :
  board_wf b → in_bounds r c = true →
  cell (set_cell b r c v) r' c' = if decide (r' = r ∧ c' = c) then v else cell b r' c'.
Proof.
  intros [Hl Hr] Hin. unfold cell, set_cell.
  destruct (in_bounds r' c') eqn:Hin'.
  - apply in_bounds_spec in Hin, Hin'. rewrite list_lookup_alter.
    assert (is_Some (b !! Z.to_nat r)) as [row Hrow]
      by (apply lookup_lt_is_Some_2; unfold Rows in *; lia).
    assert (length row = Z.to_nat Cols) as Hlen
      by exact (Forall_lookup_1 _ _ _ _ Hr Hrow).
    destruct (decide (Z.to_nat r = Z.to_nat r')) as [Er|Er].
    + assert (r' = r) as -> by lia. rewrite Hrow. simpl.
      rewrite list_lookup_insert.
      destruct (decide (Z.to_nat c = Z.to_nat c' ∧ _)) as [[Ec _]|Ec].
      * assert (c' = c) as -> by lia. by rewrite decide_True.
      * rewrite decide_False; [done|]. intros [_ ->]. apply Ec.
        split; [done|]. unfold Cols in *. lia.
    + rewrite decide_False; [done|]. intros [-> _]. done.
  - rewrite decide_False; [done|]. intros [-> ->]. congruence.
Qed.

(* --------------------------------------------------------------------- *)
(* Board engine: makeMove, gravity, checkDraw                            *)
(* --------------------------------------------------------------------- *)

Lemma makeMove_rows_Some n b col p r b' :
  makeMove_rows n b col p = Some (r, b') →
  0 ≤ r < Z.of_nat n ∧ cell b r col = Empty ∧
  (∀ r', r < r' < Z.of_nat n → cell b r' col ≠ Empty) ∧
  b' = set_cell b r col p.
Proof.
  induction n as [|n IH]; simpl; [done|].
  destruct (cell b (Z.of_nat n) col =? Empty) eqn:E.
  - intros [= <- <-]. apply Z.eqb_eq in E. repeat split; try lia; done.
  - intros H. destruct (IH H) as (Hr & He & Hab & ->).
    apply Z.eqb_neq in E. repeat split; try lia; try done.
    intros r' Hr'. destruct (decide (r' = Z.of_nat n)) as [->|]; [done|].
    apply Hab. lia.
Qed.

Lemma makeMove_rows_None n b col p :
  makeMove_rows n b col p = None ↔
  ∀ r, 0 ≤ r < Z.of_nat n → cell b r col ≠ Empty.
Proof.
  induction n as [|n IH]; simpl.
  - split; [intros _ r; lia | done].
  - destruct (cell b (Z.of_nat n) col =? Empty) eqn:E.
    + apply Z.eqb_eq in E. split; [done|]. intros H. destruct (H (Z.of_nat n)); [lia|done].
    + apply Z.eqb_neq in E. rewrite IH. split; intros H r Hr.
      * destruct (decide (r = Z.of_nat n)) as [->|]; [done|]. apply H. lia.
      * apply H. lia.
Qed.

Lemma makeMove_Placed b col p r b' :
  makeMove b col p = Placed r b' →
  0 ≤ col < Cols ∧ 0 ≤ r < Rows ∧ cell b r col = Empty ∧
  (∀ r', r < r' < Rows → cell b r' col ≠ Empty) ∧
  b' = set_cell b r col p.
Proof.
  unfold makeMove.
  destruct ((col <? 0) || (col >=? Cols)) eqn:Hc; [done|].
  apply orb_false_iff in Hc as [H1 H2].
  destruct (makeMove_rows _ _ _ _) as [[r0 b0]|] eqn:E; [|done].
  intros [= <- <-]. apply makeMove_rows_Some in E.
  unfold Rows, Cols in *. split; [lia|]. exact E.
Qed.

Lemma makeMove_column_full b col p :
  0 ≤ col < Cols → column_full b col →
  makeMove b col p = MoveError (-1) "Column is full".
Proof.
  intros Hc Hfull. unfold makeMove.
  replace ((col <? 0) || (col >=? Cols)) with false
    by (symmetry; apply orb_false_iff; unfold Cols in *; lia).
  assert (makeMove_rows (Z.to_nat Rows) b col p = None) as ->; [|done].
  apply makeMove_rows_None. intros r Hr. apply Hfull. unfold Rows in *. lia.
Qed.

Lemma makeMove_wf b col p r b' :
  board_wf b → makeMove b col p = Placed r b' → board_wf b'.
Proof.
  intros Hwf H. apply makeMove_Placed in H as (_ & _ & _ & _ & ->).
  by apply set_cell_wf.
Qed.

(* The cells of the board after an accepted move. *)
Lemma makeMove_cells b col p r b' :
  board_wf b → makeMove b col p = Placed r b' →
  ∀ r' c', cell b' r' c' = if decide (r' = r ∧ c' = col) then p else cell b r' c'.
Proof.
  intros Hwf H r' c'. apply makeMove_Placed in H as (Hc & Hr & _ & _ & ->).
  apply cell_set_cell; [done|]. by apply in_bounds_spec.
Qed.

Lemma gravity_zeroBoard : gravity zeroBoard.
Proof. intros r c _ _ H. by rewrite cell_zeroBoard in H. Qed.

Lemma makeMove_gravity b col p r b' :
  board_wf b → gravity b → makeMove b col p = Placed r b' → gravity b'.
Proof.
  intros Hwf Hg H. pose proof (makeMove_cells _ _ _ _ _ Hwf H) as Hcells.
  apply makeMove_Placed in H as (Hc & Hr & He & Hbelow & _).
  intros r1 c1 Hr1 Hc1 Hocc r2 Hr2. rewrite Hcells in Hocc. rewrite Hcells.
  destruct (decide (r1 = r ∧ c1 = col)) as [[-> ->]|Hne1].
  - rewrite decide_False by lia. apply Hbelow. lia.
  - destruct (decide (r2 = r ∧ c1 = col)) as [[-> ->]|Hne2].
    + exfalso. by apply (Hg r1 col Hr1 Hc1 Hocc r).
    + by apply (Hg r1 c1).
Qed.

Lemma checkDraw_cols_spec n b c :
  checkDraw_cols n b c = true ↔
  ∀ c', c ≤ c' < Cols → c' < c + Z.of_nat n → cell b 0 c' ≠ Empty.
Proof.
  revert c. induction n as [|n IH]; intros c; simpl checkDraw_cols.
  - split; [intros _ c'; lia | done].
  - destruct (c <? Cols) eqn:Hc.
    + apply Z.ltb_lt in Hc. destruct (cell b 0 c =? Empty) eqn:E.
      * apply Z.eqb_eq in E. split; [done|]. intros H. destruct (H c); [lia..|done].
      * apply Z.eqb_neq in E. rewrite IH. split; intros H c' H1 H2.
        -- destruct (decide (c' = c)) as [->|]; [done|]. apply H; lia.
        -- apply H; lia.
    + apply Z.ltb_ge in Hc. split; [|done]. intros _ c'. lia.
Qed.

Lemma checkDraw_spec b : checkDraw b = true ↔ top_row_full b.
Proof.
  unfold checkDraw. rewrite checkDraw_cols_spec. unfold top_row_full, Cols.
  split; intros H c' **; apply H; lia.
Qed.

Lemma gravity_top_row_full b : gravity b → (top_row_full b ↔ board_full b).
Proof.
  intros Hg. split.
  - intros Htop r c Hr Hc. destruct (decide (r = 0)) as [->|]; [by apply Htop|].
    apply (Hg 0 c); [unfold Rows; lia | done | by apply Htop | lia].
  - intros Hfull c Hc. apply Hfull; [unfold Rows; lia | done].
Qed.

(* --------------------------------------------------------------------- *)
(* Board engine: checkWin                                                *)
(* --------------------------------------------------------------------- *)

Section count_line.
Variables (b : Board) (p : Z) (cond : Z → Z → bool) (dr dc : Z).

(* m cells of p ahead, enough to bring the count to 4. *)
Lemma count_line_streak (m : nat) : ∀ fuel r c count,
  (1 ≤ m ≤ fuel)%nat → 4 ≤ count + Z.of_nat m →
  (∀ i, (i < m)%nat →
     cond (r + Z.of_nat i * dr) (c + Z.of_nat i * dc) = true ∧
     cell b (r + Z.of_nat i * dr) (c + Z.of_nat i * dc) = p) →
  count_line fuel b p cond dr dc r c count = true.
Proof.
  induction m as [|m IH]; intros fuel r c count Hm Hcount Hcells; [lia|].
  destruct fuel as [|fuel]; [lia|]. simpl.
  destruct (Hcells 0%nat) as [H0 H0']; [lia|].
  rewrite !Z.mul_0_l, !Z.add_0_r in H0, H0'. rewrite H0, H0', Z.eqb_refl.
  destruct (count + 1 >=? 4) eqn:E; [done|].
  apply IH; [lia..|]. intros i Hi.
  destruct (Hcells (S i)) as [H1 H2]; [lia|].
  rewrite Nat2Z.inj_succ, !Z.mul_succ_l in H1, H2.
  replace (r + dr + Z.of_nat i * dr) with (r + (Z.of_nat i * dr + dr)) by lia.
  replace (c + dc + Z.of_nat i * dc) with (c + (Z.of_nat i * dc + dc)) by lia.
  done.
Qed.

(* A window of four cells of p, k steps ahead on the scanned line. *)
Lemma count_line_complete (k : nat) : ∀ fuel r c count,
  0 ≤ count → (k + 4 ≤ fuel)%nat →
  (∀ i, (i < k + 4)%nat →
     cond (r + Z.of_nat i * dr) (c + Z.of_nat i * dc) = true) →
  (∀ j, (j < 4)%nat →
     cell b (r + Z.of_nat (k + j) * dr) (c + Z.of_nat (k + j) * dc) = p) →
  count_line fuel b p cond dr dc r c count = true.
Proof.
  induction k as [|k IH]; intros fuel r c count Hcount Hfuel Hcond Hcells.
  - apply (count_line_streak 4); [lia..|]. intros i Hi. split; [apply Hcond; lia|].
    by apply (Hcells i).
  - destruct fuel as [|fuel]; [lia|]. simpl.
    pose proof (Hcond 0%nat ltac:(lia)) as H0.
    rewrite !Z.mul_0_l, !Z.add_0_r in H0. rewrite H0.
    assert (∀ count', 0 ≤ count' →
      count_line fuel b p cond dr dc (r + dr) (c + dc) count' = true) as Hnext.
    { intros count' Hc'. apply IH; [done|lia|..].
      - intros i Hi. pose proof (Hcond (S i) ltac:(lia)) as H1.
        rewrite Nat2Z.inj_succ, !Z.mul_succ_l in H1.
        replace (r + dr + Z.of_nat i * dr) with (r + (Z.of_nat i * dr + dr)) by lia.
        replace (c + dc + Z.of_nat i * dc) with (c + (Z.of_nat i * dc + dc)) by lia.
        done.
      - intros j Hj. pose proof (Hcells j Hj) as H1.
        replace (S k + j)%nat with (S (k + j)) in H1 by lia.
        rewrite Nat2Z.inj_succ, !Z.mul_succ_l in H1.
        replace (r + dr + Z.of_nat (k + j) * dr)
          with (r + (Z.of_nat (k + j) * dr + dr)) by lia.
        replace (c + dc + Z.of_nat (k + j) * dc)
          with (c + (Z.of_nat (k + j) * dc + dc)) by lia.
        done. }
    destruct (cell b r c =? p); [|by apply Hnext].
    destruct (count + 1 >=? 4); [done|]. apply Hnext. lia.
Qed.

(* A loop that answers true has seen four cells of p in a row. *)
Lemma count_line_sound (fuel : nat) : ∀ r c count,
  0 ≤ count →
  (∀ j, 1 ≤ j ≤ count → cell b (r - j * dr) (c - j * dc) = p) →
  count_line fuel b p cond dr dc r c count = true →
  ∃ k : Z, ∀ j, 0 ≤ j < 4 → cell b (r + (k + j) * dr) (c + (k + j) * dc) = p.
Proof.
  induction fuel as [|fuel IH]; intros r c count Hcount Hprev; simpl; [done|].
  destruct (cond r c); [|done].
  destruct (cell b r c =? p) eqn:E.
  - apply Z.eqb_eq in E. destruct (count + 1 >=? 4) eqn:E4.
    + intros _. exists (-3). intros j Hj.
      destruct (decide (j = 3)) as [->|].
      * replace (r + (-3 + 3) * dr) with r by lia.
        replace (c + (-3 + 3) * dc) with c by lia. done.
      * replace (r + (-3 + j) * dr) with (r - (3 - j) * dr) by lia.
        replace (c + (-3 + j) * dc) with (c - (3 - j) * dc) by lia.
        apply Hprev. lia.
    + intros H. apply IH in H as [k Hk]; [|lia|].
      * exists (k + 1). intros j Hj.
        replace (r + (k + 1 + j) * dr) with (r + dr + (k + j) * dr) by lia.
        replace (c + (k + 1 + j) * dc) with (c + dc + (k + j) * dc) by lia.
        by apply Hk.
      * intros j Hj. destruct (decide (j = 1)) as [->|].
        -- replace (r + dr - 1 * dr) with r by lia.
           replace (c + dc - 1 * dc) with c by lia. done.
        -- replace (r + dr - j * dr) with (r - (j - 1) * dr) by lia.
           replace (c + dc - j * dc) with (c - (j - 1) * dc) by lia.
           apply Hprev. lia.
  - intros H. apply IH in H as [k Hk]; [|lia|intros j; lia].
    exists (k + 1). intros j Hj.
    replace (r + (k + 1 + j) * dr) with (r + dr + (k + j) * dr) by lia.
    replace (c + (k + 1 + j) * dc) with (c + dc + (k + j) * dc) by lia.
    by apply Hk.
Qed.
End count_line.

Lemma cell_eq (b : Board) r c r' c' :
  r = r' → c = c' → cell b r c = cell b r' c'.
Proof. by intros -> ->. Qed.

Lemma directions_cases dr dc :
  (dr, dc) ∈ directions →
  (dr = 0 ∧ dc = 1) ∨ (dr = 1 ∧ dc = 0) ∨ (dr = 1 ∧ dc = 1) ∨ (dr = -1 ∧ dc = 1).
Proof.
  unfold directions. rewrite !elem_of_cons, elem_of_nil.
  intros [H|[H|[H|[H|[]]]]]; inversion H; auto.
Qed.

(* Completeness: a run of 4 through the last cell is found. *)
Lemma checkWin_complete b p lastRow lastCol :
  in_bounds lastRow lastCol = true →
  run_through b p lastRow lastCol →
  checkWin b lastRow lastCol p = true.
Proof.
  intros Hin (dr & dc & k & Hd & Hk & Hrun).
  apply in_bounds_spec in Hin.
  assert (∀ j, 0 ≤ j < 4 →
    (0 ≤ lastRow - k * dr + j * dr < Rows ∧ 0 ≤ lastCol - k * dc + j * dc < Cols) ∧
    cell b (lastRow - k * dr + j * dr) (lastCol - k * dc + j * dc) = p) as Hcells.
  { intros j Hj. destruct (Hrun j Hj) as [H1 H2]. by apply in_bounds_spec in H1. }
  clear Hrun. pose proof (Hcells 0 ltac:(lia)) as [Hfirst _].
  pose proof (Hcells 3 ltac:(lia)) as [Hlast _].
  unfold checkWin, line_fuel, Rows, Cols in *.
  apply directions_cases in Hd as [[-> ->]|[[-> ->]|[[-> ->]|[-> ->]]]].
  - rewrite (count_line_complete _ _ _ _ _ (Z.to_nat (lastCol - k))); [done|lia|lia|..].
    + intros i Hi. apply Z.ltb_lt. lia.
    + intros j Hj. destruct (Hcells (Z.of_nat j)) as [_ <-]; [lia|]. apply cell_eq; lia.
  - destruct (count_line _ _ _ (λ _ c, c <? 7) _ _ _ _ _); [done|].
    rewrite (count_line_complete _ _ _ _ _ (Z.to_nat (lastRow - k))); [done|lia|lia|..].
    + intros i Hi. apply Z.ltb_lt. lia.
    + intros j Hj. destruct (Hcells (Z.of_nat j)) as [_ <-]; [lia|]. apply cell_eq; lia.
  - destruct (count_line _ _ _ (λ _ c, c <? 7) _ _ _ _ _); [done|].
    destruct (count_line _ _ _ (λ r _, r <? 6) _ _ _ _ _); [done|].
    rewrite (count_line_complete _ _ _ _ _ (Z.to_nat (Z.min lastRow lastCol - k)));
      [done|lia|lia|..].
    + intros i Hi. apply andb_true_iff. split; apply Z.ltb_lt; lia.
    + intros j Hj. destruct (Hcells (Z.of_nat j)) as [_ <-]; [lia|]. apply cell_eq; lia.
  - destruct (count_line _ _ _ (λ _ c, c <? 7) _ _ _ _ _); [done|].
    destruct (count_line _ _ _ (λ r _, r <? 6) _ _ _ _ _); [done|].
    destruct (count_line _ _ _ (λ r c, (r <? 6) && (c <? 7)) _ _ _ _ _); [done|].
    apply (count_line_complete _ _ _ _ _
             (Z.to_nat (Z.min (6 - 1 - lastRow) lastCol - k))); [lia|lia|..].
    + intros i Hi. apply andb_true_iff. split; [apply Z.geb_le|apply Z.ltb_lt]; lia.
    + intros j Hj. destruct (Hcells (Z.of_nat j)) as [_ <-]; [lia|]. apply cell_eq; lia.
Qed.

Lemma window_is_run b p r c dr dc k :
  p ≠ Empty →
  (∀ j, 0 ≤ j < 4 → cell b (r + (k + j) * dr) (c + (k + j) * dc) = p) →
  run_of_4 b p (r + k * dr) (c + k * dc) dr dc.
Proof.
  intros Hp H j Hj.
  replace (r + k * dr + j * dr) with (r + (k + j) * dr) by lia.
  replace (c + k * dc + j * dc) with (c + (k + j) * dc) by lia.
  split; [|by apply H]. apply in_bounds_spec, (cell_nonempty_in_bounds b).
  by rewrite H.
Qed.

(* Soundness: checkWin answers true only when the board holds a run of 4. *)
Lemma checkWin_sound b p lastRow lastCol :
  p ≠ Empty → checkWin b lastRow lastCol p = true → has_run b p.
Proof.
  intros Hp. unfold checkWin.
  assert (∀ cond dr dc r c, (dr, dc) ∈ directions →
            count_line line_fuel b p cond dr dc r c 0 = true → has_run b p) as Hline.
  { intros cond dr dc r c Hd H.
    apply count_line_sound in H as [k Hk]; [|lia|intros j; lia].
    exists (r + k * dr), (c + k * dc), dr, dc. split; [done|].
    by apply window_is_run. }
  destruct (count_line _ _ _ (λ _ c, c <? Cols) _ _ _ _ _) eqn:E1.
  { intros _. apply (Hline _ _ _ _ _ (list_elem_of_here _ _) E1). }
  destruct (count_line _ _ _ (λ r _, r <? Rows) _ _ _ _ _) eqn:E2.
  { intros _. refine (Hline _ _ _ _ _ _ E2). apply list_elem_of_further, list_elem_of_here. }
  destruct (count_line _ _ _ (λ r c, (r <? Rows) && (c <? Cols)) _ _ _ _ _) eqn:E3.
  { intros _. refine (Hline _ _ _ _ _ _ E3).
    do 2 apply list_elem_of_further. apply list_elem_of_here. }
  intros E4. refine (Hline _ _ _ _ _ _ E4).
  do 3 apply list_elem_of_further. apply list_elem_of_here.
Qed.

Lemma run_of_4b_spec b p r c dr dc :
  run_of_4b b p r c dr dc = true ↔ run_of_4 b p r c dr dc.
Proof.
  unfold run_of_4b, run_of_4. rewrite forallb_forall. split.
  - intros H j Hj. specialize (H j).
    rewrite andb_true_iff, Z.eqb_eq in H. apply H. simpl. lia.
  - intros H j Hj. rewrite andb_true_iff, Z.eqb_eq. apply H. simpl in Hj. lia.
Qed.

Lemma has_runb_spec b p : has_runb b p = true ↔ has_run b p.
Proof.
  unfold has_runb, has_run. rewrite existsb_exists. split.
  - intros (r & _ & H). apply existsb_exists in H as (c & _ & H).
    apply existsb_exists in H as ([dr dc] & Hd%list_elem_of_In & H).
    apply run_of_4b_spec in H. eauto 10.
  - intros (r & c & dr & dc & Hd & H).
    destruct (H 0 ltac:(lia)) as [Hin _]. apply in_bounds_spec in Hin.
    exists r. split; [apply list_elem_of_In, elem_of_seqZ; lia|].
    apply existsb_exists. exists c. split; [apply list_elem_of_In, elem_of_seqZ; lia|].
    apply existsb_exists. exists (dr, dc). split; [by apply list_elem_of_In|].
    by apply run_of_4b_spec.
Qed.

Lemma no_run_checkWin b p lastRow lastCol :
  p ≠ Empty → ¬ has_run b p → checkWin b lastRow lastCol p = false.
Proof.
  intros Hp Hno. destruct (checkWin b lastRow lastCol p) eqn:E; [|done].
  by apply checkWin_sound in E.
Qed.

(* The loops of checkWin end by their own conditions: more fuel changes
   nothing once the condition fails within the fuel given. *)
Lemma count_line_more_fuel b p cond dr dc (fuel : nat) :
  ∀ (n : nat) r c count extra,
    (n ≤ fuel)%nat →
    cond (r + Z.of_nat n * dr) (c + Z.of_nat n * dc) = false →
    count_line (fuel + extra) b p cond dr dc r c count =
    count_line fuel b p cond dr dc r c count.
Proof.
  induction fuel as [|fuel IH]; intros n r c count extra Hn Hcond.
  - assert (n = 0%nat) as -> by lia.
    rewrite !Z.mul_0_l, !Z.add_0_r in Hcond.
    destruct extra as [|extra]; [done|]. simpl. by rewrite Hcond.
  - simpl. destruct (cond r c) eqn:E; [|done].
    destruct n as [|n].
    { rewrite !Z.mul_0_l, !Z.add_0_r in Hcond. congruence. }
    assert (cond (r + dr + Z.of_nat n * dr) (c + dc + Z.of_nat n * dc) = false) as Hn'.
    { rewrite Nat2Z.inj_succ, !Z.mul_succ_l in Hcond.
      replace (r + dr + Z.of_nat n * dr) with (r + (Z.of_nat n * dr + dr)) by lia.
      replace (c + dc + Z.of_nat n * dc) with (c + (Z.of_nat n * dc + dc)) by lia.
      done. }
    destruct (cell b r c =? p).
    + destruct (count + 1 >=? 4); [done|]. apply (IH n); [lia|done].
    + apply (IH n); [lia|done].
Qed.

(* With the last cell on the board, none of the four loops is cut short by
   the fuel of the model, *)
Lemma checkWin_loops_terminate b p lastRow lastCol extra :
  in_bounds lastRow lastCol = true →
  count_line (line_fuel + extra) b p (λ _ c, c <? Cols) 0 1 lastRow 0 0 =
    count_line line_fuel b p (λ _ c, c <? Cols) 0 1 lastRow 0 0 ∧
  count_line (line_fuel + extra) b p (λ r _, r <? Rows) 1 0 0 lastCol 0 =
    count_line line_fuel b p (λ r _, r <? Rows) 1 0 0 lastCol 0 ∧
  count_line (line_fuel + extra) b p (λ r c, (r <? Rows) && (c <? Cols)) 1 1
    (lastRow - Z.min lastRow lastCol) (lastCol - Z.min lastRow lastCol) 0 =
    count_line line_fuel b p (λ r c, (r <? Rows) && (c <? Cols)) 1 1
      (lastRow - Z.min lastRow lastCol) (lastCol - Z.min lastRow lastCol) 0 ∧
  count_line (line_fuel + extra) b p (λ r c, (r >=? 0) && (c <? Cols)) (-1) 1
    (lastRow + Z.min (Rows - 1 - lastRow) lastCol)
    (lastCol - Z.min (Rows - 1 - lastRow) lastCol) 0 =
    count_line line_fuel b p (λ r c, (r >=? 0) && (c <? Cols)) (-1) 1
      (lastRow + Z.min (Rows - 1 - lastRow) lastCol)
      (lastCol - Z.min (Rows - 1 - lastRow) lastCol) 0.
Proof.
  intros Hin%in_bounds_spec. unfold line_fuel, Rows, Cols in *.
  split; [|split; [|split]].
  - apply (count_line_more_fuel _ _ _ _ _ _ 7); [lia|]. apply Z.ltb_ge. lia.
  - apply (count_line_more_fuel _ _ _ _ _ _ 6); [lia|]. apply Z.ltb_ge. lia.
  - apply (count_line_more_fuel _ _ _ _ _ _ 7); [lia|].
    apply andb_false_iff. right. apply Z.ltb_ge. lia.
  - apply (count_line_more_fuel _ _ _ _ _ _ 7); [lia|].
    apply andb_false_iff. right. apply Z.ltb_ge. lia.
Qed.

(* and every cell they read is a cell of the array. *)
Lemma checkWin_reads_in_bounds lastRow lastCol (i : nat) :
  in_bounds lastRow lastCol = true →
  ∀ cond dr dc r c,
    (cond, dr, dc, r, c) ∈
      [((λ _ c, c <? Cols), 0, 1, lastRow, 0);
       ((λ r _, r <? Rows), 1, 0, 0, lastCol);
       ((λ r c, (r <? Rows) && (c <? Cols)), 1, 1,
        lastRow - Z.min lastRow lastCol, lastCol - Z.min lastRow lastCol);
       ((λ r c, (r >=? 0) && (c <? Cols)), -1, 1,
        lastRow + Z.min (Rows - 1 - lastRow) lastCol,
        lastCol - Z.min (Rows - 1 - lastRow) lastCol)] →
    cond (r + Z.of_nat i * dr) (c + Z.of_nat i * dc) = true →
    in_bounds (r + Z.of_nat i * dr) (c + Z.of_nat i * dc) = true.
Proof.
  intros Hin%in_bounds_spec cond dr dc r c Hloop Hcond.
  apply in_bounds_spec. unfold Rows, Cols in *.
  rewrite !elem_of_cons, elem_of_nil in Hloop.
  destruct Hloop as [H|[H|[H|[H|[]]]]]; injection H as -> -> -> -> ->.
  - apply Z.ltb_lt in Hcond. lia.
  - apply Z.ltb_lt in Hcond. lia.
  - apply andb_true_iff in Hcond as [H1%Z.ltb_lt H2%Z.ltb_lt]. lia.
  - apply andb_true_iff in Hcond as [H1%Z.geb_le H2%Z.ltb_lt]. lia.
Qed.


(* --------------------------------------------------------------------- *)
(* Handlers: invariants and frames                                       *)
(* --------------------------------------------------------------------- *)

Lemma pres_seq_at {A B} (I : World → Prop) (m : M A) (k : A → M B) w :
  I (world_of (m w)) → (∀ a, preserves I (k a)) → I (world_of (bind m k w)).
Proof.
  intros Hm Hk. unfold bind. destruct (m w) as [a w'| |]; simpl in *; [|done..].
  by apply Hk.
Qed.

Lemma pres_bind {A B} (I : World → Prop) (m : M A) (k : A → M B) :
  preserves I m → (∀ a, preserves I (k a)) → preserves I (bind m k).
Proof. intros Hm Hk w Hw. apply pres_seq_at; [by apply Hm | done]. Qed.

Lemma pres_same {A} (I : World → Prop) (m : M A) :
  (∀ w, world_of (m w) = w) → preserves I m.
Proof. intros H w Hw. by rewrite H. Qed.

Lemma pres_ret {A} I (a : A) : preserves I (ret a).
Proof. by apply pres_same. Qed.
Lemma pres_skip I : preserves I skip.
Proof. by apply pres_same. Qed.
Lemma pres_get I : preserves I get.
Proof. by apply pres_same. Qed.
Lemma pres_getPlayer I p : preserves I (getPlayer p).
Proof. by apply pres_same. Qed.
Lemma pres_getGame I g : preserves I (getGame g).
Proof. by apply pres_same. Qed.
Lemma pres_panic {A} I reason : preserves I (@panic A reason).
Proof. by apply pres_same. Qed.

(* Walks through a handler: binds, branches, and the reads. *)
Ltac pres_step :=
  lazymatch goal with
  | |- preserves _ (bind _ _) => apply pres_bind; [|intros ?]
  | |- preserves _ (ret _) => apply pres_ret
  | |- preserves _ skip => apply pres_skip
  | |- preserves _ get => apply pres_get
  | |- preserves _ (getPlayer _) => apply pres_getPlayer
  | |- preserves _ (getGame _) => apply pres_getGame
  | |- preserves _ (panic _) => apply pres_panic
  | |- preserves _ (if ?c then _ else _) => destruct c
  | |- preserves _ (match ?x with _ => _ end) => destruct x eqn:?
  end.

Lemma only_sends_refl w : only_sends w w.
Proof. by constructor. Qed.

Lemma only_sends_trans w1 w2 w3 :
  only_sends w1 w2 → only_sends w2 w3 → only_sends w1 w3.
Proof.
  intros [a1 a2 a3 a4 a5 a6 a7 a8 a9 a10 a11 a12]
         [b1 b2 b3 b4 b5 b6 b7 b8 b9 b10 b11 b12].
  constructor; congruence.
Qed.

Lemma modPlayer_Send_only_sends w0 p ch :
  preserves (only_sends w0) (modPlayer p (Player.set_Send ch)).
Proof.
  intros w H. eapply only_sends_trans; [exact H|].
  constructor; try done; intros q; simpl; unfold alter, fn_alter;
    by destruct (decide (p = q)) as [->|].
Qed.

Lemma SendMessage_only_sends w0 p msgType data :
  preserves (only_sends w0) (SendMessage p msgType data).
Proof.
  unfold SendMessage. repeat pres_step. apply modPlayer_Send_only_sends.
Qed.

Lemma SendError_only_sends w0 p message :
  preserves (only_sends w0) (SendError p message).
Proof. apply SendMessage_only_sends. Qed.

Lemma pres_CreateState I g : preserves I (CreateState g).
Proof. by apply pres_same. Qed.

Lemma BroadcastState_only_sends w0 g :
  preserves (only_sends w0) (BroadcastState g).
Proof.
  unfold BroadcastState.
  repeat first [apply pres_CreateState | apply SendMessage_only_sends | pres_step].
Qed.

(* What a send does when the queue is open. *)
Lemma SendMessage_connected w p msgType data :
  connected w p →
  ∃ w', SendMessage p msgType data w = Ok tt w' ∧ only_sends w w' ∧
        outbox w' p = outbox w p ++ [mkFrame msgType data] ∧ connected w' p ∧
        (∀ q, q ≠ p → playerStore w' q = playerStore w q).
Proof.
  intros Hc. unfold connected in Hc. unfold SendMessage, bind, getPlayer. rewrite Hc.
  eexists. split; [reflexivity|].
  split; [apply (modPlayer_Send_only_sends w p _ w), only_sends_refl|].
  unfold outbox, connected. simpl. unfold alter, fn_alter.
  rewrite decide_True by done. repeat split; try done.
  intros q Hq. by rewrite decide_False.
Qed.

(* Runs the primitives of a handler on a store written as a record. *)
Ltac wsimpl :=
  lazy beta iota zeta delta
    [bind ret skip get getPlayer getGame modPlayer modGame mod_players mod_games
     mod_PrivateRooms set_waitingPlayer allocGame afterFunc go panic disarm
     closeConn closeTransport
     players games waitingPlayer PrivateRooms playerStore gameStore nextGame
     timers spawned connClosed world_of].

(* endGame never fails; this is all it changes. *)
Lemma endGame_spec g winner w :
  ∃ w', endGame g winner w = Ok tt w' ∧
    gameStore w' g = Game.set_Winner winner (Game.set_Status "finished" (gameStore w g)) ∧
    (∀ g', g' ≠ g → gameStore w' g' = gameStore w g') ∧
    finishes g w' = S (finishes g w) ∧
    (∀ g', g' ≠ g → finishes g' w' = finishes g' w) ∧
    games w' = delete (Game.ID (gameStore w g)) (games w) ∧
    timers w' = timers w ∧ players w' = players w ∧
    PrivateRooms w' = PrivateRooms w ∧ waitingPlayer w' = waitingPlayer w ∧
    nextGame w' = nextGame w ∧
    (∀ p, Player.Send (playerStore w' p) = Player.Send (playerStore w p)) ∧
    Player.Game (playerStore w' (Game.Player1 (gameStore w g))) = None.
Proof.
  destruct w as [pls gms wp rooms ps gs ng tms sp cc].
  unfold endGame, finishes; wsimpl.
  rewrite !fn_lookup_alter.
  change (humanPlayer2 (Game.set_Winner winner (Game.set_Status "finished" (gs g))))
    with (humanPlayer2 (gs g)).
  destruct (humanPlayer2 (gs g)) as [p2|] eqn:E2.
  all: repeat case_decide.
  all: wsimpl.
  all: (eexists; split; [reflexivity|]); wsimpl.
  all: repeat split; try reflexivity.
  all: try (intros g' Hg'; by rewrite !fn_lookup_alter_ne).
  all: try (rewrite !list.filter_app, !length_app, !list.filter_cons, !list.filter_nil;
            repeat case_decide; simplify_eq; simpl; lia).
  all: try (intros g' Hg';
            rewrite !list.filter_app, !length_app, !list.filter_cons, !list.filter_nil;
            repeat case_decide; simplify_eq; simpl; lia).
  all: try (by rewrite !fn_lookup_alter).
  all: try intros p; simpl; unfold alter, fn_alter; repeat case_decide; by simplify_eq.
Qed.

(* --------------------------------------------------------------------- *)
(* Match: move handling                                                  *)
(* --------------------------------------------------------------------- *)

Lemma moverNum_cases G player n :
  moverNum G player = Some n → n = Player1 ∨ n = Player2.
Proof. unfold moverNum. repeat case_match; naive_solver. Qed.

Lemma world_of_bind_Ok {A B} (m : M A) (k : A → M B) w a w1 :
  m w = Ok a w1 → world_of (bind m k w) = world_of (k a w1).
Proof. intros H. unfold bind. by rewrite H. Qed.

Lemma bind_Ok {A B} (m : M A) (k : A → M B) w a w1 :
  m w = Ok a w1 → bind m k w = k a w1.
Proof. intros H. unfold bind. by rewrite H. Qed.

(* A move that the match does not accept: what HandleMove reduces to. *)
Lemma HandleMove_not_playing g player col w :
  Game.Status (gameStore w g) ≠ "playing" → HandleMove g player col w = Ok tt w.
Proof.
  intros H. unfold HandleMove, bind, getGame. by rewrite decide_True.
Qed.

Lemma HandleMove_not_turn g player col w n :
  Game.Status (gameStore w g) = "playing" →
  moverNum (gameStore w g) player = Some n →
  n ≠ Game.CurrentPlayer (gameStore w g) →
  HandleMove g player col w = sendErrorIfHuman player "It's not your turn." w.
Proof.
  intros Hs Hm Hn. unfold HandleMove, bind, getGame.
  rewrite decide_False by (by intros []). rewrite Hm. by rewrite decide_True.
Qed.

Lemma HandleMove_move_error g player col w n row err :
  Game.Status (gameStore w g) = "playing" →
  moverNum (gameStore w g) player = Some n →
  n = Game.CurrentPlayer (gameStore w g) →
  makeMove (Game.Board (gameStore w g)) col n = MoveError row err →
  HandleMove g player col w = sendErrorIfHuman player err w.
Proof.
  intros Hs Hm Hn He. unfold HandleMove, bind, getGame.
  rewrite decide_False by (by intros []). rewrite Hm.
  rewrite decide_False by (by intros []). by rewrite He.
Qed.

Lemma HandleMove_placed g player col w n row b' :
  Game.Status (gameStore w g) = "playing" →
  moverNum (gameStore w g) player = Some n →
  n = Game.CurrentPlayer (gameStore w g) →
  makeMove (Game.Board (gameStore w g)) col n = Placed row b' →
  HandleMove g player col w =
  (modGame g (Game.set_Board b') ;; afterPlaced g (gameStore w g) player col n row b') w.
Proof.
  intros Hs Hm Hn He. unfold HandleMove, bind at 1, getGame.
  rewrite decide_False by (by intros []). rewrite Hm.
  rewrite decide_False by (by intros []). by rewrite He.
Qed.

(* An accepted move that ends the match, by a win or by a draw. *)
Lemma placed_then_endGame g G player col n row b' winner w :
  (checkWin b' row col n = true ∧ winner = n) ∨
  (checkWin b' row col n = false ∧ checkDraw b' = true ∧ winner = Empty) →
  ∀ w', w' = world_of ((modGame g (Game.set_Board b') ;;
                        afterPlaced g G player col n row b') w) →
  gameStore w' g =
    Game.set_Winner winner (Game.set_Status "finished"
      (Game.set_Board b' (gameStore w g))) ∧
  (∀ g', g' ≠ g → gameStore w' g' = gameStore w g') ∧
  finishes g w' = S (finishes g w) ∧
  games w' = delete (Game.ID (gameStore w g)) (games w).
Proof.
  intros Hend w' ->.
  erewrite world_of_bind_Ok by reflexivity. unfold afterPlaced.
  erewrite world_of_bind_Ok by reflexivity.
  erewrite world_of_bind_Ok by reflexivity.
  match goal with |- context [world_of (_ ?W)] => set (w1 := W) end.
  assert (world_of ((if checkWin b' row col n
                     then endGame g n;; BroadcastState g
                     else if checkDraw b'
                          then endGame g Empty;; BroadcastState g
                          else _) w1) =
          world_of ((endGame g winner ;; BroadcastState g) w1)) as ->.
  { by destruct Hend as [[-> ->]|(-> & -> & ->)]. }
  destruct (endGame_spec g winner w1)
    as (w2 & Heq & Hg & Hother & Hfin & _ & Hgames & _).
  erewrite world_of_bind_Ok by exact Heq.
  destruct (BroadcastState_only_sends w2 g w2 (only_sends_refl _))
    as [_ Eg _ _ Egs _ _ Esp _ _ _ _].
  rewrite Egs, Eg. unfold finishes at 1. rewrite Esp.
  fold (finishes g w2). rewrite Hfin, Hg, Hgames.
  subst w1. unfold finishes. simpl.
  rewrite list.filter_app, length_app, list.filter_cons, list.filter_nil.
  rewrite decide_False by done. rewrite fn_lookup_alter. simpl.
  repeat split; [|lia].
  intros g' Hg'. rewrite Hother by done. simpl. by rewrite fn_lookup_alter_ne.
Qed.

(* A finished match ignores everything: no handler changes it again. *)
Lemma run_op_finished g gs0 sp0 op :
  Game.Status (gs0 g) ≠ "playing" →
  preserves (λ w, gameStore w = gs0 ∧ spawned w = sp0) (run_op g op).
Proof.
  intros Hfin w [Hgs Hsp].
  assert (Game.Status (gameStore w g) ≠ "playing") as Hw by (by rewrite Hgs).
  destruct op as [player col|player|oldPlayer newConn|player]; simpl.
  - by rewrite HandleMove_not_playing.
  - unfold HandleDisconnect, bind, getGame. by rewrite decide_True.
  - unfold HandleReconnect, HandleReconnect_beside, bind, skip, ret, getGame.
    rewrite decide_True by done.
    destruct (SendError_only_sends w oldPlayer "Game has already finished." w
                (only_sends_refl w)) as [_ _ _ _ -> _ _ -> _ _ _ _].
    done.
  - unfold reconnectTimerExpired, bind, getGame. by rewrite decide_True.
Qed.

Lemma run_ops_finished g ops w :
  Game.Status (gameStore w g) ≠ "playing" →
  gameStore (world_of (run_ops g ops w)) = gameStore w ∧
  spawned (world_of (run_ops g ops w)) = spawned w.
Proof.
  intros Hfin.
  assert (preserves (λ w', gameStore w' = gameStore w ∧ spawned w' = spawned w)
            (run_ops g ops)) as H; [|by apply H].
  induction ops as [|op ops IH]; simpl.
  - apply pres_skip.
  - apply pres_bind; [by apply run_op_finished|done].
Qed.

(** C2: on an in-progress match, an accepted move of the player whose turn
    it is that completes a horizontal, vertical or diagonal run of 4 of the
    mover's mark through the cell just placed makes HandleMove set the
    status to finished and the winner to the mover; endGame runs exactly once
    for the match, and nothing done to the match afterwards changes it or
    finishes it again. *)
Theorem winning_move_finishes_match_once w g player col playerNum row b' :
  Game.Status (gameStore w g) = "playing" →
  moverNum (gameStore w g) player = Some playerNum →
  playerNum = Game.CurrentPlayer (gameStore w g) →
  makeMove (Game.Board (gameStore w g)) col playerNum = Placed row b' →
  run_through b' playerNum row col →
  ∀ w', w' = world_of (HandleMove g player col w) →
    Game.Status (gameStore w' g) = "finished" ∧
    Game.Winner (gameStore w' g) = playerNum ∧
    Game.Board (gameStore w' g) = b' ∧
    finishes g w' = S (finishes g w) ∧
    ∀ ops, gameStore (world_of (run_ops g ops w')) g = gameStore w' g ∧
           finishes g (world_of (run_ops g ops w')) = finishes g w'.
Proof.
  intros Hs Hm Hn He Hrun w' Hw'.
  rewrite (HandleMove_placed _ _ _ _ _ _ _ Hs Hm Hn He) in Hw'.
  assert (checkWin b' row col playerNum = true) as Hwin.
  { apply checkWin_complete; [|done].
    apply makeMove_Placed in He as (Hc & Hr & _). by apply in_bounds_spec. }
  destruct (placed_then_endGame g _ player col playerNum row b' playerNum w
              (or_introl (conj Hwin eq_refl)) w' Hw') as (Hg & _ & Hfin & _).
  rewrite Hg. repeat split; try done.
  - destruct (run_ops_finished g ops w') as [-> _]; [by rewrite Hg|done].
  - unfold finishes. destruct (run_ops_finished g ops w') as [_ ->]; [by rewrite Hg|done].
Qed.

(** C4: on an in-progress match, an accepted move of the player whose turn
    it is that leaves no empty cell on the board and no run of 4 of the
    mover's mark makes HandleMove set the status to finished with winner 0
    (a draw, neither participant). *)
Theorem board_filling_move_is_draw w g player col playerNum row b' :
  Game.Status (gameStore w g) = "playing" →
  moverNum (gameStore w g) player = Some playerNum →
  playerNum = Game.CurrentPlayer (gameStore w g) →
  makeMove (Game.Board (gameStore w g)) col playerNum = Placed row b' →
  board_full b' →
  ¬ has_run b' playerNum →
  ∀ w', w' = world_of (HandleMove g player col w) →
    Game.Status (gameStore w' g) = "finished" ∧
    Game.Winner (gameStore w' g) = Empty ∧
    Game.Board (gameStore w' g) = b' ∧
    finishes g w' = S (finishes g w).
Proof.
  intros Hs Hm Hn He Hfull Hno w' Hw'.
  rewrite (HandleMove_placed _ _ _ _ _ _ _ Hs Hm Hn He) in Hw'.
  assert (playerNum ≠ Empty) as Hp
    by (destruct (moverNum_cases _ _ _ Hm) as [->| ->]; done).
  assert (checkWin b' row col playerNum = false) as Hwin by (by apply no_run_checkWin).
  assert (checkDraw b' = true) as Hdraw.
  { apply checkDraw_spec. intros c Hc. apply Hfull; [unfold Rows; lia|done]. }
  destruct (placed_then_endGame g _ player col playerNum row b' Empty w
              (or_intror (conj Hwin (conj Hdraw eq_refl))) w' Hw') as (Hg & _ & Hfin & _).
  by rewrite Hg.
Qed.

Lemma sendError_outcome w p message :
  only_sends w (world_of (SendError p message w)) ∧
  (connected w p →
   ∃ w', SendError p message w = Ok tt w' ∧
         outbox w' p = outbox w p ++ [errorFrame message]).
Proof.
  split; [apply SendError_only_sends, only_sends_refl|].
  intros Hc. destruct (SendMessage_connected w p "error" (MessageData message) Hc)
    as (w' & H & _ & Hout & _). by exists w'.
Qed.

(** C3: on an in-progress match, a move by a participant on a column that is
    filled to capacity, or by the participant whose mark is not the current
    turn, makes HandleMove do nothing but send that participant an error
    ("Column is full", "It's not your turn."): the match object (board, turn,
    status) and the registries are as before, and the participant's queue, if
    open, has the error frame appended. *)
Theorem full_column_or_wrong_turn_rejected w g p col n :
  Game.Status (gameStore w g) = "playing" →
  moverNum (gameStore w g) (Some p) = Some n →
  n ≠ Game.CurrentPlayer (gameStore w g) ∨
  (0 ≤ col < Cols ∧ column_full (Game.Board (gameStore w g)) col) →
  ∃ message,
    (message = if decide (n = Game.CurrentPlayer (gameStore w g))
               then "Column is full" else "It's not your turn.") ∧
    HandleMove g (Some p) col w = SendError p message w ∧
    only_sends w (world_of (HandleMove g (Some p) col w)) ∧
    gameStore (world_of (HandleMove g (Some p) col w)) g = gameStore w g ∧
    (connected w p →
     ∃ w', HandleMove g (Some p) col w = Ok tt w' ∧
           outbox w' p = outbox w p ++ [errorFrame message]).
Proof.
  intros Hs Hm Hcase. eexists. split; [reflexivity|].
  assert (HandleMove g (Some p) col w =
          SendError p (if decide (n = Game.CurrentPlayer (gameStore w g))
                       then "Column is full" else "It's not your turn.") w) as ->.
  { destruct (decide (n = Game.CurrentPlayer (gameStore w g))) as [Hn|Hn].
    - destruct Hcase as [?|[Hc Hfull]]; [done|].
      by rewrite (HandleMove_move_error _ _ _ _ _ (-1) "Column is full" Hs Hm Hn
                    (makeMove_column_full _ _ _ Hc Hfull)).
    - by rewrite (HandleMove_not_turn _ _ _ _ _ Hs Hm Hn). }
  destruct (sendError_outcome w p
              (if decide (n = Game.CurrentPlayer (gameStore w g))
               then "Column is full" else "It's not your turn.")) as [Hos Hc].
  split; [done|]. split; [done|]. split; [|done].
  by destruct Hos as [_ _ _ _ -> _ _ _ _ _ _ _].
Qed.

(* --------------------------------------------------------------------- *)
(* The invariant of the reachable stores                                 *)
(* --------------------------------------------------------------------- *)

(* inv looks at the two registries keyed by strings and at the boards. *)
Lemma inv_stable w w' :
  players w' = players w → PrivateRooms w' = PrivateRooms w →
  (∀ g, Game.Board (gameStore w' g) = Game.Board (gameStore w g)) →
  inv w → inv w'.
Proof.
  intros Hp Hr Hb [Hboards Hkeys]. split.
  - intros g. rewrite Hb. apply Hboards.
  - unfold keys_ok. by rewrite Hp, Hr.
Qed.

Lemma only_sends_inv w w' : only_sends w w' → inv w → inv w'.
Proof.
  intros [Hp _ _ Hr Hg _ _ _ _ _ _]. apply inv_stable; [done..|].
  by rewrite Hg.
Qed.

Lemma pres_inv_SendMessage p msgType data : preserves inv (SendMessage p msgType data).
Proof.
  intros w Hw. eapply only_sends_inv; [|exact Hw].
  apply SendMessage_only_sends, only_sends_refl.
Qed.

Lemma pres_inv_BroadcastState g : preserves inv (BroadcastState g).
Proof.
  intros w Hw. eapply only_sends_inv; [|exact Hw].
  apply BroadcastState_only_sends, only_sends_refl.
Qed.

Lemma pres_inv_modPlayer p f : preserves inv (modPlayer p f).
Proof. intros w. by apply inv_stable. Qed.

Lemma pres_inv_closeSend p : preserves inv (closeSend p).
Proof. unfold closeSend. repeat first [apply pres_inv_modPlayer | pres_step]. Qed.

Lemma pres_inv_closeConn conn : preserves inv (closeConn conn).
Proof. intros w. by apply inv_stable. Qed.

Lemma pres_inv_closeTransport p : preserves inv (closeTransport p).
Proof. unfold closeTransport. repeat first [apply pres_inv_closeConn | pres_step]. Qed.

Lemma pres_inv_mod_games f : preserves inv (mod_games f).
Proof. intros w. by apply inv_stable. Qed.

Lemma pres_inv_set_waitingPlayer o : preserves inv (set_waitingPlayer o).
Proof. intros w. by apply inv_stable. Qed.

Lemma pres_inv_afterFunc t : preserves inv (afterFunc t).
Proof. intros w. by apply inv_stable. Qed.

Lemma pres_inv_go t : preserves inv (go t).
Proof. intros w. by apply inv_stable. Qed.

Lemma pres_inv_disarm t : preserves inv (disarm t).
Proof. intros w. by apply inv_stable. Qed.

Lemma pres_inv_modGame_keep_Board g f :
  (∀ G, Game.Board (f G) = Game.Board G) → preserves inv (modGame g f).
Proof.
  intros Hf w. apply inv_stable; [done..|]. intros g'. simpl.
  unfold alter, fn_alter. case_decide; [subst g'; apply Hf|done].
Qed.

Lemma pres_inv_allocGame G :
  Game.Board G = zeroBoard → preserves inv (allocGame G).
Proof.
  intros HG w [Hb Hk]. split; [|done]. intros g. simpl.
  unfold insert, fn_insert. case_decide; [|apply Hb].
  rewrite HG. split; [apply zeroBoard_wf | apply gravity_zeroBoard].
Qed.

Lemma pres_inv_players_insert username p :
  username ≠ "" → preserves inv (mod_players (insert username p)).
Proof.
  intros Hu w [Hb [Hp Hr]]. split; [done|]. split; [|done]. simpl.
  by rewrite lookup_insert_ne.
Qed.

Lemma pres_inv_players_delete username : preserves inv (mod_players (delete username)).
Proof.
  intros w [Hb [Hp Hr]]. split; [done|]. split; [|done]. simpl.
  rewrite lookup_delete. by case_decide.
Qed.

Lemma pres_inv_rooms_insert roomCode p :
  roomCode ≠ "" → preserves inv (mod_PrivateRooms (insert roomCode p)).
Proof.
  intros Hu w [Hb [Hp Hr]]. split; [done|]. split; [done|]. simpl.
  by rewrite lookup_insert_ne.
Qed.

Lemma pres_inv_rooms_delete roomCode : preserves inv (mod_PrivateRooms (delete roomCode)).
Proof.
  intros w [Hb [Hp Hr]]. split; [done|]. split; [done|]. simpl.
  rewrite lookup_delete. by case_decide.
Qed.

(* The range loop deletes at most one room, one hosted by the player. *)
Lemma removeHostedRoom_cases order rooms player :
  removeHostedRoom order rooms player = rooms ∨
  ∃ roomCode, roomCode ∈ order ∧ rooms !! roomCode = Some player ∧
              removeHostedRoom order rooms player = delete roomCode rooms.
Proof.
  induction order as [|roomCode order IH]; simpl; [by left|].
  destruct (rooms !! roomCode) as [roomPlayer|] eqn:E.
  - destruct (decide (roomPlayer = player)) as [->|].
    + right. exists roomCode. split; [apply list_elem_of_here|done].
    + destruct IH as [?|(c & ? & ? & ?)]; [by left|right].
      exists c. split; [by apply list_elem_of_further|done].
  - destruct IH as [?|(c & ? & ? & ?)]; [by left|right].
    exists c. split; [by apply list_elem_of_further|done].
Qed.

Lemma pres_inv_removeHostedRoom order player :
  preserves inv (mod_PrivateRooms (λ rooms, removeHostedRoom order rooms player)).
Proof.
  intros w Hw.
  destruct (removeHostedRoom_cases order (PrivateRooms w) player) as [E|(c & _ & _ & E)].
  - apply (inv_stable w); [done| |done|done]. simpl. by rewrite E.
  - assert (mod_PrivateRooms (λ rooms, removeHostedRoom order rooms player) w =
            mod_PrivateRooms (delete c) w) as ->
      by (unfold mod_PrivateRooms; by rewrite E).
    by apply pres_inv_rooms_delete.
Qed.

Create HintDb pres_inv discriminated.

#[local] Hint Resolve pres_inv_SendMessage pres_inv_BroadcastState pres_inv_modPlayer
  pres_inv_closeSend pres_inv_closeConn pres_inv_closeTransport
  pres_inv_mod_games pres_inv_set_waitingPlayer
  pres_inv_afterFunc pres_inv_go pres_inv_disarm pres_inv_players_delete
  pres_inv_rooms_delete pres_inv_removeHostedRoom pres_CreateState : pres_inv.

(* Proves that a handler preserves inv from the lemmas of its parts. *)
Ltac pres_inv :=
  repeat lazymatch goal with
  | |- preserves inv (modGame _ _) => apply pres_inv_modGame_keep_Board; done
  | |- preserves inv (allocGame _) => apply pres_inv_allocGame; done
  | |- preserves inv (mod_players (insert _ _)) => apply pres_inv_players_insert; done
  | |- preserves inv (mod_PrivateRooms (insert _ _)) =>
      apply pres_inv_rooms_insert; done
  | |- preserves inv (λ w, Hang w) => by apply pres_same
  | |- preserves _ _ => first [pres_step | solve [auto 1 with pres_inv nocore]]
  end.

Lemma pres_inv_SendError p message : preserves inv (SendError p message).
Proof. apply pres_inv_SendMessage. Qed.
#[local] Hint Resolve pres_inv_SendError : pres_inv.

Lemma pres_inv_endGame g winner : preserves inv (endGame g winner).
Proof. unfold endGame. pres_inv. Qed.
#[local] Hint Resolve pres_inv_endGame : pres_inv.

Lemma pres_inv_afterPlaced g G player col n row b' :
  preserves inv (afterPlaced g G player col n row b').
Proof.
  unfold afterPlaced.
  pres_inv.
Qed.
#[local] Hint Resolve pres_inv_afterPlaced : pres_inv.

Lemma pres_inv_HandleMove g player col : preserves inv (HandleMove g player col).
Proof.
  intros w Hw. unfold HandleMove. unfold bind at 1, getGame.
  destruct (decide (Game.Status (gameStore w g) ≠ "playing")) as [?|_]; [done|].
  destruct (moverNum (gameStore w g) player) as [n|]; [|by destruct player].
  destruct (decide (n ≠ Game.CurrentPlayer (gameStore w g))) as [?|_].
  { destruct player; [by apply pres_inv_SendError|done]. }
  destruct (makeMove (Game.Board (gameStore w g)) col n) as [row b'|row err] eqn:E.
  - apply pres_seq_at; [|intros; apply pres_inv_afterPlaced].
    destruct Hw as [Hb Hk]. split; [|done]. intros g'. simpl.
    unfold alter, fn_alter. case_decide; [subst g'; simpl|apply Hb].
    destruct (Hb g) as [Hwf Hg].
    split; [by eapply makeMove_wf | by eapply makeMove_gravity].
  - destruct player; [by apply pres_inv_SendError|done].
Qed.
#[local] Hint Resolve pres_inv_HandleMove : pres_inv.

Lemma pres_inv_HandleDisconnect g player : preserves inv (HandleDisconnect g player).
Proof. unfold HandleDisconnect. pres_inv. Qed.
#[local] Hint Resolve pres_inv_HandleDisconnect : pres_inv.

Lemma pres_inv_reconnectTimerExpired g player :
  preserves inv (reconnectTimerExpired g player).
Proof.
  unfold reconnectTimerExpired.
  pres_inv.
Qed.
#[local] Hint Resolve pres_inv_reconnectTimerExpired : pres_inv.

Lemma pres_inv_HandleReconnect_beside beside g oldPlayer newConn :
  (∀ n, preserves inv (beside n)) →
  preserves inv (HandleReconnect_beside beside g oldPlayer newConn).
Proof.
  intros Hbeside. unfold HandleReconnect_beside. pres_inv.
Qed.

Lemma pres_inv_HandleReconnect g oldPlayer newConn :
  preserves inv (HandleReconnect g oldPlayer newConn).
Proof.
  apply pres_inv_HandleReconnect_beside. intros _. apply pres_skip.
Qed.
#[local] Hint Resolve pres_inv_HandleReconnect : pres_inv.

Lemma pres_inv_discardConnection player : preserves inv (discardConnection player).
Proof. unfold discardConnection. pres_inv. Qed.
#[local] Hint Resolve pres_inv_discardConnection : pres_inv.

Lemma pres_inv_startGame p1 p2 gameID : preserves inv (startGame p1 p2 gameID).
Proof. unfold startGame. pres_inv. Qed.
#[local] Hint Resolve pres_inv_startGame : pres_inv.

Lemma pres_inv_startBotGame player gameID : preserves inv (startBotGame player gameID).
Proof. unfold startBotGame. pres_inv. Qed.
#[local] Hint Resolve pres_inv_startBotGame : pres_inv.

Lemma pres_inv_handleJoin player username gameID :
  preserves inv (handleJoin player username gameID).
Proof.
  unfold handleJoin.
  pres_inv.
Qed.
#[local] Hint Resolve pres_inv_handleJoin : pres_inv.

Lemma pres_inv_handleMove player col : preserves inv (handleMove player col).
Proof.
  unfold handleMove.
  pres_inv.
Qed.
#[local] Hint Resolve pres_inv_handleMove : pres_inv.

Lemma pres_inv_handleReconnect player username race :
  preserves inv (handleReconnect player username race).
Proof.
  unfold handleReconnect.
  pres_inv.
  apply pres_inv_HandleReconnect_beside. intros n. pres_inv.
Qed.
#[local] Hint Resolve pres_inv_handleReconnect : pres_inv.

Lemma pres_inv_roomTimerExpired roomCode player :
  preserves inv (roomTimerExpired roomCode player).
Proof. unfold roomTimerExpired. pres_inv. Qed.
#[local] Hint Resolve pres_inv_roomTimerExpired : pres_inv.

(* --------------------------------------------------------------------- *)
(* Room codes                                                            *)
(* --------------------------------------------------------------------- *)

Lemma randomCode_length n rnd k : String.length (randomCode n rnd k) = n.
Proof. revert k. induction n as [|n IH]; intros k; simpl; [done|]. by rewrite IH. Qed.

Lemma charset_get i :
  (i < String.length charset)%nat → ∃ ch, String.get i charset = Some ch.
Proof.
  intros Hi. destruct (String.get i charset) as [ch|] eqn:E; [by exists ch|].
  do 36 (destruct i as [|i]; [by inversion E|]). simpl in Hi. lia.
Qed.

(* Every character of a generated code is one of the 36 of the charset. *)
Lemma randomCode_alphanumeric n rnd k i ch :
  String.get i (randomCode n rnd k) = Some ch →
  ∃ j, (j < String.length charset)%nat ∧ String.get j charset = Some ch.
Proof.
  revert k i. induction n as [|n IH]; intros k i H; [done|].
  change (randomCode (S n) rnd k)
    with (String (default "A"%char
                    (String.get (rnd k mod String.length charset)%nat charset))
                 (randomCode n rnd (S k))) in H.
  destruct i as [|i]; [|by apply (IH (S k) i)].
  assert (rnd k mod String.length charset < String.length charset)%nat as Hlt
    by (apply Nat.mod_upper_bound; done).
  destruct (charset_get _ Hlt) as [c0 Hc0]. rewrite Hc0 in H.
  injection H as <-. by exists (rnd k mod String.length charset)%nat.
Qed.

Lemma generateRoomCode_spec attempts rnd k rooms roomCode :
  generateRoomCode attempts rnd k rooms = Some roomCode →
  String.length roomCode = codeLength ∧ rooms !! roomCode = None ∧
  ∀ i ch, String.get i roomCode = Some ch →
    ∃ j, (j < String.length charset)%nat ∧ String.get j charset = Some ch.
Proof.
  revert k. induction attempts as [|n IH]; intros k; [done|].
  cbn [generateRoomCode].
  destruct (decide (is_Some (rooms !! randomCode codeLength rnd k))) as [|Hfree];
    [by apply IH|].
  intros H. assert (roomCode = randomCode codeLength rnd k) as -> by congruence.
  clear H IH. split; [apply randomCode_length|]. split.
  - by apply eq_None_not_Some.
  - intros i ch. apply randomCode_alphanumeric.
Qed.

(* The loop returns as soon as one draw of six characters is a free code. *)
Lemma generateRoomCode_returns attempts rnd k rooms i :
  (i < attempts)%nat →
  rooms !! randomCode codeLength rnd (k + i * codeLength)%nat = None →
  is_Some (generateRoomCode attempts rnd k rooms).
Proof.
  revert k i. induction attempts as [|n IH]; intros k i Hi Hfree; [lia|].
  cbn [generateRoomCode].
  destruct (decide (is_Some (rooms !! randomCode codeLength rnd k))) as [Htaken|]; [|done].
  destruct i as [|i].
  - rewrite Nat.add_0_r in Hfree. rewrite Hfree in Htaken. by destruct Htaken.
  - apply (IH _ i); [lia|].
    by replace (k + codeLength + i * codeLength)%nat
      with (k + S i * codeLength)%nat by lia.
Qed.

Lemma generateRoomCode_nonempty attempts rnd k rooms roomCode :
  generateRoomCode attempts rnd k rooms = Some roomCode → roomCode ≠ "".
Proof.
  intros H%generateRoomCode_spec. destruct H as [Hlen _]. by intros ->.
Qed.

Lemma generatedCode_nonempty rnd rejected : generatedCode rnd rejected ≠ "".
Proof.
  intros E. pose proof (randomCode_length codeLength rnd (rejected * codeLength)) as H.
  unfold generatedCode in E. by rewrite E in H.
Qed.

Lemma pres_inv_handleCreatePrivateRoom player username o :
  preserves inv (handleCreatePrivateRoom player username o).
Proof.
  unfold handleCreatePrivateRoom. pres_inv.
Qed.
#[local] Hint Resolve pres_inv_handleCreatePrivateRoom : pres_inv.

Lemma pres_inv_handleJoinPrivateRoom player username roomCode gameID :
  preserves inv (handleJoinPrivateRoom player username roomCode gameID).
Proof.
  unfold handleJoinPrivateRoom.
  pres_inv.
Qed.
#[local] Hint Resolve pres_inv_handleJoinPrivateRoom : pres_inv.

Lemma pres_inv_UnregisterPlayer player order :
  preserves inv (UnregisterPlayer player order).
Proof.
  unfold UnregisterPlayer.
  pres_inv.
Qed.
#[local] Hint Resolve pres_inv_UnregisterPlayer : pres_inv.

Lemma pres_inv_HandleMessage player raw o :
  preserves inv (HandleMessage player raw o).
Proof.
  unfold HandleMessage. pres_inv.
Qed.

Lemma pres_inv_run e : preserves inv (run e).
Proof.
  destruct e as [p|p raw o|p order|t o|g col|p]; simpl.
  - apply pres_inv_SendMessage.
  - apply pres_inv_HandleMessage.
  - apply pres_bind; [apply pres_inv_UnregisterPlayer|intros _].
    apply pres_inv_closeTransport.
  - apply pres_bind; [apply pres_inv_disarm|intros _].
    destruct t; simpl;
      [apply pres_inv_startBotGame | apply pres_inv_roomTimerExpired
      | apply pres_inv_reconnectTimerExpired].
  - apply pres_inv_HandleMove.
  - apply pres_inv_discardConnection.
Qed.

Lemma inv_init : inv NewGameManager.
Proof.
  split; [|done]. intros g. simpl.
  split; [apply zeroBoard_wf | apply gravity_zeroBoard].
Qed.

Lemma reachable_inv w : reachable w → inv w.
Proof.
  induction 1 as [|w e w' _ IH _ Hrun]; [apply inv_init|].
  pose proof (pres_inv_run e w IH) as H. by rewrite Hrun in H.
Qed.

(** C9: every board of a reachable store is a 6 x 7 grid that obeys gravity
    (an occupied cell has only occupied cells below it), because an accepted
    move puts the disc on the lowest empty cell of its column and changes no
    other cell; so on such a board the test of checkDraw (top row fully
    occupied) holds exactly when the whole board is full. *)
Theorem reachable_boards_obey_gravity w g :
  reachable w →
  let b := Game.Board (gameStore w g) in
  board_wf b ∧ gravity b ∧
  (checkDraw b = true ↔ board_full b) ∧
  ∀ col playerNum row b',
    makeMove b col playerNum = Placed row b' →
    cell b row col = Empty ∧
    (∀ r, row < r < Rows → cell b r col ≠ Empty) ∧
    (∀ r c, cell b' r c = if decide (r = row ∧ c = col) then playerNum else cell b r c) ∧
    gravity b'.
Proof.
  intros Hr. destruct (reachable_inv w Hr) as [Hb _]. destruct (Hb g) as [Hwf Hg].
  simpl. split; [done|]. split; [done|]. split.
  - rewrite checkDraw_spec. by apply gravity_top_row_full.
  - intros col playerNum row b' Hmove.
    pose proof (makeMove_Placed _ _ _ _ _ Hmove) as (_ & _ & He & Hbelow & _).
    split; [done|]. split; [done|]. split.
    + by apply makeMove_cells.
    + by eapply makeMove_gravity.
Qed.

(* --------------------------------------------------------------------- *)
(* Session Director: matchmaking                                         *)
(* --------------------------------------------------------------------- *)

(* Reads the fields of a store written as a record. *)
Ltac fields :=
  cbn [players games waitingPlayer PrivateRooms playerStore gameStore nextGame
       timers spawned connClosed].
Tactic Notation "fields" "in" hyp(H) :=
  cbn [players games waitingPlayer PrivateRooms playerStore gameStore nextGame
       timers spawned connClosed] in H.

Lemma pres_only_sends_stable {A} (P : World → Prop) (m : M A) :
  (∀ w w', only_sends w w' → P w → P w') →
  (∀ w0, preserves (only_sends w0) m) → preserves P m.
Proof.
  intros HP Hm w Hw. eapply HP; [|exact Hw]. apply Hm, only_sends_refl.
Qed.

(* What a new 1v1 match looks like, whether or not the broadcast succeeds. *)
Lemma startGame_spec p1 p2 gameID w w' :
  w' = world_of (startGame p1 p2 gameID w) →
  gameStore w' (nextGame w) = NewGame gameID p1 p2 ∧
  (∀ g, g ≠ nextGame w → gameStore w' g = gameStore w g) ∧
  games w' = <[gameID := nextGame w]> (games w) ∧
  Player.Game (playerStore w' p1) = Some (nextGame w) ∧
  Player.Game (playerStore w' p2) = Some (nextGame w) ∧
  players w' = players w ∧ PrivateRooms w' = PrivateRooms w ∧
  waitingPlayer w' = waitingPlayer w.
Proof.
  intros ->. unfold startGame.
  do 4 erewrite world_of_bind_Ok by reflexivity.
  match goal with |- context [world_of (_ ?W)] => set (w4 := W) end.
  set (P := λ w', gameStore w' = gameStore w4 ∧ games w' = games w4 ∧
                  (∀ p, Player.Game (playerStore w' p) = Player.Game (playerStore w4 p)) ∧
                  players w' = players w4 ∧ PrivateRooms w' = PrivateRooms w4 ∧
                  waitingPlayer w' = waitingPlayer w4).
  assert (P (world_of ((BroadcastState (nextGame w);;
            w' <- get;;
            go (ProduceEvent "game_started"
                  [("gameId", EvStr gameID);
                   ("player1", EvStr (Player.Username (playerStore w' p1)));
                   ("player2", EvStr (Player.Username (playerStore w' p2)));
                   ("isBot", EvBool false)])) w4))) as (Hgs & Hg & Hpg & Hp & Hr & Hw).
  { apply pres_seq_at.
    - apply (pres_only_sends_stable P (BroadcastState (nextGame w)));
        [|intros; apply BroadcastState_only_sends|by unfold P].
      intros w1 w2 [] (? & ? & ? & ? & ? & ?). unfold P. repeat split; congruence.
    - intros _ w1 Hw1. apply pres_seq_at; [done|]. intros w2 w3 Hw3. exact Hw3. }
  rewrite Hgs, Hg, !Hpg, Hp, Hr, Hw. subst w4. fields.
  rewrite fn_lookup_insert, !fn_lookup_alter.
  repeat split; try done.
  - intros g Hne. by rewrite fn_lookup_insert_ne.
  - clear. destruct (decide (p2 = p1)) as [->|Hne].
    + rewrite fn_lookup_alter. reflexivity.
    + rewrite fn_lookup_alter_ne, fn_lookup_alter by done. reflexivity.
Qed.

Lemma startBotGame_stale player gameID w :
  waitingPlayer w ≠ Some player → startBotGame player gameID w = Ok tt w.
Proof. intros H. unfold startBotGame, bind, get. by rewrite decide_True. Qed.

Lemma startBotGame_spec player gameID w w' :
  waitingPlayer w = Some player →
  w' = world_of (startBotGame player gameID w) →
  gameStore w' (nextGame w) = NewBotGame gameID player ∧
  (∀ g, g ≠ nextGame w → gameStore w' g = gameStore w g) ∧
  games w' = <[gameID := nextGame w]> (games w) ∧
  Player.Game (playerStore w' player) = Some (nextGame w) ∧
  players w' = players w ∧ PrivateRooms w' = PrivateRooms w ∧
  waitingPlayer w' = None.
Proof.
  intros Hwait ->. unfold startBotGame.
  erewrite world_of_bind_Ok by reflexivity. rewrite decide_False by (by intros []).
  do 4 erewrite world_of_bind_Ok by reflexivity. cbn [nextGame].
  match goal with |- context [world_of (_ ?W)] => set (w4 := W) end.
  set (P := λ w', gameStore w' = gameStore w4 ∧ games w' = games w4 ∧
                  (∀ p, Player.Game (playerStore w' p) = Player.Game (playerStore w4 p)) ∧
                  players w' = players w4 ∧ PrivateRooms w' = PrivateRooms w4 ∧
                  waitingPlayer w' = waitingPlayer w4).
  assert (P (world_of ((BroadcastState (nextGame w);;
            w' <- get;;
            go (ProduceEvent "game_started"
                  [("gameId", EvStr gameID);
                   ("player1", EvStr (Player.Username (playerStore w' player)));
                   ("player2", EvStr "Bot"); ("isBot", EvBool true)])) w4)))
    as (Hgs & Hg & Hpg & Hp & Hr & Hw).
  { apply pres_seq_at.
    - apply (pres_only_sends_stable P (BroadcastState (nextGame w)));
        [|intros; apply BroadcastState_only_sends|by unfold P].
      intros w1 w2 [] (? & ? & ? & ? & ? & ?). unfold P. repeat split; congruence.
    - intros _ w1 Hw1. apply pres_seq_at; [done|]. intros w2 w3 Hw3. exact Hw3. }
  rewrite Hgs, Hg, !Hpg, Hp, Hr, Hw. subst w4. fields.
  rewrite fn_lookup_insert, !fn_lookup_alter.
  repeat split; try done.
  intros g Hne. by rewrite fn_lookup_insert_ne.
Qed.

(* A join that finds the lobby empty: the joiner waits and its matchmaking
   timer is armed. *)
Lemma handleJoin_first w player username gameID :
  username ≠ "" → players w !! username = None → waitingPlayer w = None →
  connected w player →
  ∃ w1, handleJoin player username gameID w = Ok tt w1 ∧
    waitingPlayer w1 = Some player ∧ nextGame w1 = nextGame w ∧
    timers w1 = timers w ++ [MatchmakingTimer player] ∧
    players w1 = <[username := player]> (players w) ∧
    gameStore w1 = gameStore w ∧ games w1 = games w ∧
    connected w1 player ∧
    outbox w1 player = outbox w player ++ [mkFrame "waiting" NoData].
Proof.
  intros Hu Hfree Hwait Hc. unfold connected in Hc.
  destruct w as [pls gms wp rooms ps gs ng tms sp cc].
  fields in Hfree. fields in Hwait. fields in Hc. subst wp.
  unfold handleJoin, SendMessage, connected, outbox.
  rewrite decide_False by done. wsimpl.
  rewrite decide_False by (rewrite Hfree; by intros [? [=]]). wsimpl.
  rewrite fn_lookup_alter. cbn [Player.set_Username Player.Send]. rewrite Hc. wsimpl.
  eexists. split; [reflexivity|]. wsimpl. rewrite fn_lookup_alter.
  repeat split; reflexivity.
Qed.

(* startBotGame returns when the queue of the waiting entry is open, and
   the state of the new match is sent to it. *)
Lemma startBotGame_returns w player gameID :
  waitingPlayer w = Some player → connected w player →
  ∃ w' state,
    startBotGame player gameID w = Ok tt w' ∧
    outbox w' player = outbox w player ++ [mkFrame "game_update" (StateData state)] ∧
    gsCurrentPlayer state = Player1 ∧ gsIsBot state = true ∧ gsBoard state = zeroBoard.
Proof.
  intros Hwait Hc. unfold connected in Hc.
  destruct w as [pls gms wp rooms ps gs ng tms sp cc].
  fields in Hwait. fields in Hc. subst wp.
  unfold startBotGame, BroadcastState, CreateState, SendMessage, outbox. wsimpl.
  rewrite decide_False by (by intros []). wsimpl.
  rewrite !fn_lookup_insert.
  cbn [NewBotGame Game.Player1 Game.IsBot Game.Player2 humanPlayer2 Game.ID Game.Board
       Game.CurrentPlayer Game.Status Game.Winner].
  rewrite !fn_lookup_alter. cbn [Player.set_Game Player.Send]. rewrite Hc. wsimpl.
  do 2 eexists. split; [reflexivity|]. wsimpl.
  rewrite fn_lookup_alter.
  cbn [Player.set_Send Player.Send buf gsCurrentPlayer gsIsBot gsBoard].
  repeat split; reflexivity.
Qed.

(* The matchmaking timer of the waiting entry goes off. *)
Lemma matchmaking_timer_fires w player o w' :
  waitingPlayer w = Some player →
  w' = world_of (run (Fire (MatchmakingTimer player) o) w) →
  gameStore w' (nextGame w) = NewBotGame (uuid o) player ∧
  (∀ g, g ≠ nextGame w → gameStore w' g = gameStore w g) ∧
  games w' = <[uuid o := nextGame w]> (games w) ∧
  Player.Game (playerStore w' player) = Some (nextGame w) ∧
  players w' = players w ∧ PrivateRooms w' = PrivateRooms w ∧
  waitingPlayer w' = None.
Proof.
  intros Hwait ->. cbn [run]. erewrite world_of_bind_Ok by reflexivity.
  cbn [callback].
  match goal with |- context [startBotGame _ _ ?W] =>
    apply (startBotGame_spec player (uuid o) W); [exact Hwait|reflexivity]
  end.
Qed.

(** C5: when a join finds a waiting entry (the participant who joined first),
    the new match has the waiting entry as participant A (Player1), the
    joiner as B, and starts with the turn at A on an empty board; the match
    is registered under its id and both handles point to it.  A join that
    finds no waiting entry becomes the waiting entry, and arms the
    matchmaking timer.  When that timer fires while the handle is still the
    waiting entry, the callback creates a bot match with that handle as A,
    the turn at A and an empty board, registers it under a new id and empties
    the waiting slot: from the join of a first connection to the firing of
    its timer, with no one joining in between, a match is created, and the
    callback returns after sending that connection the state of the match. *)
Theorem first_joiner_is_participant_A :
  (∀ w player username gameID opponent w',
     username ≠ "" → players w !! username = None →
     waitingPlayer w = Some opponent → opponent ≠ player →
     w' = world_of (handleJoin player username gameID w) →
     let G := gameStore w' (nextGame w) in
     Game.Player1 G = opponent ∧ Game.Player2 G = Some player ∧
     Game.IsBot G = false ∧ Game.CurrentPlayer G = Player1 ∧
     Game.Status G = "playing" ∧ Game.Board G = zeroBoard ∧
     games w' !! gameID = Some (nextGame w) ∧
     Player.Game (playerStore w' opponent) = Some (nextGame w) ∧
     Player.Game (playerStore w' player) = Some (nextGame w) ∧
     players w' !! username = Some player ∧ waitingPlayer w' = None) ∧
  (∀ w player gameID w',
     waitingPlayer w = Some player →
     w' = world_of (startBotGame player gameID w) →
     let G := gameStore w' (nextGame w) in
     Game.Player1 G = player ∧ Game.Player2 G = None ∧
     Game.IsBot G = true ∧ Game.CurrentPlayer G = Player1 ∧
     Game.Status G = "playing" ∧ Game.Board G = zeroBoard ∧
     games w' !! gameID = Some (nextGame w) ∧
     Player.Game (playerStore w' player) = Some (nextGame w) ∧
     waitingPlayer w' = None) ∧
  (∀ w player username gameID w',
     username ≠ "" → players w !! username = None → waitingPlayer w = None →
     w' = world_of (handleJoin player username gameID w) →
     waitingPlayer w' = Some player ∧ nextGame w' = nextGame w ∧
     (connected w player → MatchmakingTimer player ∈ timers w')) ∧
  (∀ w player o w',
     waitingPlayer w = Some player →
     w' = world_of (run (Fire (MatchmakingTimer player) o) w) →
     let G := gameStore w' (nextGame w) in
     Game.Player1 G = player ∧ Game.Player2 G = None ∧
     Game.IsBot G = true ∧ Game.CurrentPlayer G = Player1 ∧
     Game.Status G = "playing" ∧ Game.Board G = zeroBoard ∧
     Game.ID G = uuid o ∧
     games w' !! uuid o = Some (nextGame w) ∧
     Player.Game (playerStore w' player) = Some (nextGame w) ∧
     waitingPlayer w' = None) ∧
  (∀ w player username gameID o,
     username ≠ "" → players w !! username = None → waitingPlayer w = None →
     connected w player →
     ∃ w1 w' state,
       handleJoin player username gameID w = Ok tt w1 ∧
       enabled (Fire (MatchmakingTimer player) o) w1 ∧
       run (Fire (MatchmakingTimer player) o) w1 = Ok tt w' ∧
       let G := gameStore w' (nextGame w) in
       Game.Player1 G = player ∧ Game.Player2 G = None ∧
       Game.IsBot G = true ∧ Game.CurrentPlayer G = Player1 ∧
       Game.Status G = "playing" ∧ Game.Board G = zeroBoard ∧
       games w' !! uuid o = Some (nextGame w) ∧
       Player.Game (playerStore w' player) = Some (nextGame w) ∧
       waitingPlayer w' = None ∧
       outbox w' player =
         outbox w player ++
           [mkFrame "waiting" NoData; mkFrame "game_update" (StateData state)] ∧
       gsCurrentPlayer state = Player1).
Proof.
  split; [|split; [|split; [|split]]].
  - intros w player username gameID opponent w' Hu Hfree Hwait Hne ->.
    unfold handleJoin. rewrite decide_False by done.
    erewrite world_of_bind_Ok by reflexivity.
    rewrite decide_False by (rewrite Hfree; by intros [? [=]]).
    do 2 erewrite world_of_bind_Ok by reflexivity.
    rewrite Hwait, decide_False by done.
    erewrite world_of_bind_Ok by reflexivity.
    match goal with |- context [startGame _ _ _ ?W] =>
      destruct (startGame_spec opponent player gameID W _ eq_refl)
        as (HG & _ & Hg & H1 & H2 & Hp & _ & Hw)
    end.
    fields in HG. fields in Hg. fields in H1. fields in H2. fields in Hp. fields in Hw.
    cbv zeta. fields. rewrite HG, Hg, H1, H2, Hp, Hw.
    rewrite !lookup_insert_eq. cbn [NewGame Game.Player1 Game.Player2 Game.IsBot
      Game.CurrentPlayer Game.Status Game.Board]. repeat split; reflexivity.
  - intros w player gameID w' Hwait Hw'.
    destruct (startBotGame_spec player gameID w w' Hwait Hw')
      as (HG & _ & Hg & H1 & _ & _ & Hw).
    cbv zeta. rewrite HG, Hg, H1, Hw, lookup_insert_eq.
    cbn [NewBotGame Game.Player1 Game.Player2 Game.IsBot
      Game.CurrentPlayer Game.Status Game.Board]. repeat split; reflexivity.
  - intros w player username gameID w' Hu Hfree Hwait ->.
    unfold handleJoin. rewrite decide_False by done.
    erewrite world_of_bind_Ok by reflexivity.
    rewrite decide_False by (rewrite Hfree; by intros [? [=]]).
    do 2 erewrite world_of_bind_Ok by reflexivity.
    rewrite Hwait. erewrite world_of_bind_Ok by reflexivity.
    match goal with |- context [world_of (_ ?W)] => set (w3 := W) end.
    split; [|split].
    + apply (pres_seq_at (λ w', waitingPlayer w' = Some player)).
      * by destruct (SendMessage_only_sends w3 player "waiting" NoData w3
                       (only_sends_refl _)) as [_ _ -> _ _ _ _ _ _ _ _ _].
      * intros _ w4 Hw4. exact Hw4.
    + apply (pres_seq_at (λ w', nextGame w' = nextGame w)).
      * by destruct (SendMessage_only_sends w3 player "waiting" NoData w3
                       (only_sends_refl _)) as [_ _ _ _ _ -> _ _ _ _ _ _].
      * intros _ w4 Hw4. exact Hw4.
    + intros Hc.
      destruct (SendMessage_connected w3 player "waiting" NoData) as (w4 & Hs & _).
      { unfold connected, w3. fields. by rewrite fn_lookup_alter. }
      erewrite world_of_bind_Ok by exact Hs. unfold afterFunc, world_of. fields.
      apply elem_of_app. right. apply list_elem_of_here.
  - intros w player o w' Hwait Hw'.
    destruct (matchmaking_timer_fires w player o w' Hwait Hw')
      as (HG & _ & Hg & H1 & _ & _ & Hw).
    cbv zeta. rewrite HG, Hg, H1, Hw, lookup_insert_eq.
    cbn [NewBotGame Game.Player1 Game.Player2 Game.IsBot
      Game.CurrentPlayer Game.Status Game.Board Game.ID]. repeat split; reflexivity.
  - intros w player username gameID o Hu Hfree Hwait Hc.
    destruct (handleJoin_first w player username gameID Hu Hfree Hwait Hc)
      as (w1 & Hjoin & Hw1 & Hn1 & Ht1 & _ & _ & _ & Hc1 & Hout1).
    assert (∃ w' state,
              run (Fire (MatchmakingTimer player) o) w1 = Ok tt w' ∧
              outbox w' player =
                outbox w1 player ++ [mkFrame "game_update" (StateData state)] ∧
              gsCurrentPlayer state = Player1) as (w' & state & Hrun & Hout & Hturn).
    { cbn [run]. erewrite bind_Ok by reflexivity. cbn [callback].
      match goal with |- context [startBotGame _ _ ?W] =>
        destruct (startBotGame_returns W player (uuid o) Hw1 Hc1)
          as (w' & state & Hrun & Hout & Hturn & _)
      end.
      by exists w', state. }
    exists w1, w', state. split; [exact Hjoin|]. split.
    { cbn [enabled]. rewrite Ht1. apply elem_of_app. right. apply list_elem_of_here. }
    split; [exact Hrun|].
    destruct (matchmaking_timer_fires w1 player o w' Hw1) as (HG & _ & Hg & H1 & _ & _ & Hw).
    { by rewrite Hrun. }
    cbv zeta. rewrite <- Hn1. rewrite HG, Hg, H1, Hw, lookup_insert_eq.
    cbn [NewBotGame Game.Player1 Game.Player2 Game.IsBot
      Game.CurrentPlayer Game.Status Game.Board].
    rewrite Hout, Hout1, <- app_assoc. repeat split; first [reflexivity|exact Hturn].
Qed.

(** C6: the matchmaking-timeout handler acts only on the waiting entry: when
    the handle is no longer the waiting slot (it was paired, or it left),
    startBotGame returns with the store untouched: player registry, waiting
    slot, match table and match objects are what they were, and no match is
    created. *)
Theorem stale_matchmaking_timer_is_noop w player gameID :
  waitingPlayer w ≠ Some player →
  startBotGame player gameID w = Ok tt w ∧
  ∀ w', w' = world_of (startBotGame player gameID w) →
    players w' = players w ∧ waitingPlayer w' = waitingPlayer w ∧
    games w' = games w ∧ gameStore w' = gameStore w ∧ nextGame w' = nextGame w.
Proof.
  intros H. rewrite (startBotGame_stale _ _ _ H). split; [done|]. by intros w' ->.
Qed.

(* --------------------------------------------------------------------- *)
(* Session Director: private rooms                                       *)
(* --------------------------------------------------------------------- *)

(* Proves that a handler leaves a field alone: every step either keeps the
   store or rebuilds it with that field as it was. *)
Ltac pres_field :=
  repeat lazymatch goal with
  | |- preserves _ (bind _ _) => apply pres_bind; [|intros ?]
  | |- preserves _ (if ?c then _ else _) => destruct c
  | |- preserves _ (match ?x with _ => _ end) => destruct x eqn:?
  | |- preserves _ (SendMessage _ _ _) =>
      apply pres_only_sends_stable;
        [intros ? ? [] ?; congruence | intros; apply SendMessage_only_sends]
  | |- preserves _ (SendError _ _) =>
      apply pres_only_sends_stable;
        [intros ? ? [] ?; congruence | intros; apply SendError_only_sends]
  | |- preserves _ (BroadcastState _) =>
      apply pres_only_sends_stable;
        [intros ? ? [] ?; congruence | intros; apply BroadcastState_only_sends]
  | |- preserves _ (closeSend _) => unfold closeSend
  | |- preserves _ (HandleDisconnect _ _) => unfold HandleDisconnect
  | |- preserves _ _ => let w := fresh "w" in let H := fresh "H" in
                        intros w H; exact H
  end.

Lemma removeHostedRoom_only_room order rooms player roomCode :
  roomCode ∈ order → rooms !! roomCode = Some player →
  (∀ c, rooms !! c = Some player → c = roomCode) →
  removeHostedRoom order rooms player = delete roomCode rooms.
Proof.
  intros Hin Hroom Honly.
  induction order as [|c order IH]; [by apply elem_of_nil in Hin|]. simpl.
  destruct (rooms !! c) as [roomPlayer|] eqn:E.
  - destruct (decide (roomPlayer = player)) as [->|Hne].
    + by rewrite (Honly c E).
    + apply IH. apply elem_of_cons in Hin as [->|]; [congruence|done].
  - apply IH. apply elem_of_cons in Hin as [->|]; [congruence|done].
Qed.

Lemma UnregisterPlayer_rooms player order w :
  Player.Username (playerStore w player) ≠ "" →
  PrivateRooms (world_of (UnregisterPlayer player order w)) =
  removeHostedRoom order (PrivateRooms w) player.
Proof.
  intros Hu. unfold UnregisterPlayer.
  erewrite world_of_bind_Ok by reflexivity. rewrite decide_False by done.
  do 2 erewrite world_of_bind_Ok by reflexivity.
  assert (∀ w1 : World, PrivateRooms w1 = PrivateRooms w →
    PrivateRooms (world_of
      ((mod_PrivateRooms (λ rooms, removeHostedRoom order rooms player);;
        match Player.Game (playerStore w player) with
        | Some g => HandleDisconnect g player
        | None => skip
        end;; closeSend player) w1)) =
    removeHostedRoom order (PrivateRooms w) player) as Hrest.
  { intros w1 Hw1. erewrite world_of_bind_Ok by reflexivity.
    apply (pres_seq_at (λ w', PrivateRooms w' = _)).
    - assert (preserves
        (λ w', PrivateRooms w' = removeHostedRoom order (PrivateRooms w) player)
        match Player.Game (playerStore w player) with
        | Some g => HandleDisconnect g player
        | None => skip
        end) as H by pres_field.
      apply H. fields. by rewrite Hw1.
    - intros _. pres_field. }
  destruct (decide (waitingPlayer w = Some player));
    erewrite world_of_bind_Ok by reflexivity; by apply Hrest.
Qed.

(* A host with one open room: disconnecting removes the code. *)
Lemma host_disconnect_removes_only_room player order w roomCode :
  Player.Username (playerStore w player) ≠ "" →
  roomCode ∈ order → PrivateRooms w !! roomCode = Some player →
  (∀ c, PrivateRooms w !! c = Some player → c = roomCode) →
  PrivateRooms (world_of (UnregisterPlayer player order w)) =
  delete roomCode (PrivateRooms w).
Proof.
  intros Hu Hin Hroom Honly. rewrite UnregisterPlayer_rooms by done.
  by apply removeHostedRoom_only_room.
Qed.

(* Joining an open room with a free name other than the host's. *)
Lemma handleJoinPrivateRoom_pairs w player username roomCode gameID roomHost w' :
  username ≠ "" → roomCode ≠ "" → players w !! username = None →
  PrivateRooms w !! roomCode = Some roomHost →
  Player.Username (playerStore w roomHost) ≠ username →
  w' = world_of (handleJoinPrivateRoom player username roomCode gameID w) →
  gameStore w' (nextGame w) = NewGame gameID roomHost player ∧
  games w' = <[gameID := nextGame w]> (games w) ∧
  PrivateRooms w' = delete roomCode (PrivateRooms w) ∧
  players w' = <[username := player]> (players w) ∧
  Player.Game (playerStore w' roomHost) = Some (nextGame w) ∧
  Player.Game (playerStore w' player) = Some (nextGame w).
Proof.
  intros Hu Hc Hfree Hroom Hhost ->. unfold handleJoinPrivateRoom.
  rewrite !decide_False by done.
  erewrite world_of_bind_Ok by reflexivity.
  rewrite decide_False by (rewrite Hfree; by intros [? [=]]).
  rewrite Hroom, decide_False by done.
  do 3 erewrite world_of_bind_Ok by reflexivity.
  match goal with |- context [startGame _ _ _ ?W] =>
    destruct (startGame_spec roomHost player gameID W _ eq_refl)
      as (HG & _ & Hg & H1 & H2 & Hp & Hr & _)
  end.
  fields in HG. fields in Hg. fields in H1. fields in H2. fields in Hp. fields in Hr.
  fields. rewrite HG, Hg, H1, H2, Hp, Hr. repeat split; reflexivity.
Qed.

(* The expiry of a room nobody claimed. *)
Lemma roomTimerExpired_unclaimed w roomCode player w' :
  PrivateRooms w !! roomCode = Some player →
  w' = world_of (roomTimerExpired roomCode player w) →
  PrivateRooms w' = delete roomCode (PrivateRooms w) ∧
  (connected w player →
   roomTimerExpired roomCode player w = Ok tt w' ∧
   outbox w' player = outbox w player ++
     [mkFrame "private_room_expired"
        (MessageData "No one joined your room. It has expired.")]).
Proof.
  intros Hroom ->.
  assert (roomTimerExpired roomCode player w =
          (mod_PrivateRooms (delete roomCode);;
           SendMessage player "private_room_expired"
             (MessageData "No one joined your room. It has expired.")) w) as ->.
  { unfold roomTimerExpired. unfold bind at 1. unfold get. cbv beta iota.
    rewrite Hroom. by rewrite decide_True. }
  erewrite world_of_bind_Ok by reflexivity.
  match goal with |- context [SendMessage _ _ _ ?W] => set (w1 := W) end.
  split.
  - by destruct (SendMessage_only_sends w1 player "private_room_expired"
                   (MessageData "No one joined your room. It has expired.") w1
                   (only_sends_refl _)) as [_ _ _ -> _ _ _ _ _ _ _ _].
  - intros Hconn.
    destruct (SendMessage_connected w1 player "private_room_expired"
                (MessageData "No one joined your room. It has expired."))
      as (w2 & Hs & _ & Hout & _); [done|].
    unfold bind at 1, mod_PrivateRooms. fold w1. rewrite Hs. by split.
Qed.

(* Creating a room: the code is six characters of the charset, and it is
   registered for the host, whatever the room table holds under it, together
   with an expiry timer. *)
Lemma handleCreatePrivateRoom_spec w player username o w' :
  username ≠ "" → players w !! username = None →
  w' = world_of (handleCreatePrivateRoom player username o w) →
  ∃ roomCode,
    roomCode = generatedCode (rnd o) (rejected o) ∧
    String.length roomCode = codeLength ∧
    (∀ i ch, String.get i roomCode = Some ch →
       ∃ j, (j < String.length charset)%nat ∧ String.get j charset = Some ch) ∧
    PrivateRooms w' = <[roomCode := player]> (PrivateRooms w) ∧
    players w' = <[username := player]> (players w) ∧
    (connected w player →
     handleCreatePrivateRoom player username o w = Ok tt w' ∧
     outbox w' player = outbox w player ++
       [mkFrame "private_room_created" (RoomCodeData roomCode)] ∧
     RoomTimer roomCode player ∈ timers w').
Proof.
  intros Hu Hfree ->.
  exists (generatedCode (rnd o) (rejected o)).
  set (roomCode := generatedCode (rnd o) (rejected o)).
  split; [done|]. split; [apply randomCode_length|].
  split; [intros i ch; apply randomCode_alphanumeric|].
  assert (handleCreatePrivateRoom player username o w =
          (modPlayer player (Player.set_Username username) ;;
           mod_players (insert username player) ;;
           mod_PrivateRooms (insert roomCode player) ;;
           SendMessage player "private_room_created" (RoomCodeData roomCode) ;;
           afterFunc (RoomTimer roomCode player)) w) as ->.
  { unfold handleCreatePrivateRoom. rewrite decide_False by done.
    cbv zeta. unfold bind at 1, get.
    by rewrite decide_False by (rewrite Hfree; by intros [? [=]]). }
  do 3 erewrite world_of_bind_Ok by reflexivity.
  match goal with |- context [world_of (_ ?W)] => set (w3 := W) end.
  assert (preserves (λ w', PrivateRooms w' = PrivateRooms w3 ∧ players w' = players w3)
            (SendMessage player "private_room_created" (RoomCodeData roomCode);;
             afterFunc (RoomTimer roomCode player))) as Hpres by pres_field.
  destruct (Hpres w3 (conj eq_refl eq_refl)) as [-> ->].
  split; [done|]. split; [done|].
  intros Hconn.
  destruct (SendMessage_connected w3 player "private_room_created"
              (RoomCodeData roomCode)) as (w4 & Hs & _ & Hout & _).
  { unfold connected, w3. fields. by rewrite fn_lookup_alter. }
  unfold bind at 1 2 3, modPlayer, mod_players, mod_PrivateRooms. fold w3.
  unfold bind. rewrite Hs. unfold afterFunc, world_of, outbox. fields.
  split; [done|]. split.
  - unfold outbox in Hout. rewrite Hout. unfold w3. fields.
    by rewrite fn_lookup_alter.
  - apply elem_of_app. right. apply list_elem_of_here.
Qed.

(** C10: in a reachable store, for an open room whose host is registered in
    the player registry under the host's own username, a join-private-room
    request with that username is answered by the identity check, "Username
    already taken.", which comes before the own-room check; and whenever the
    own-room check does answer ("You cannot join your own room."), as when
    the identity check does, nothing but the requester's queue changes: the
    room stays in the registry and no match is created. *)
Theorem join_with_host_username_is_username_taken :
  (∀ w roomCode host player gameID,
     reachable w →
     PrivateRooms w !! roomCode = Some host →
     players w !! Player.Username (playerStore w host) = Some host →
     handleJoinPrivateRoom player (Player.Username (playerStore w host)) roomCode gameID w
       = SendError player "Username already taken." w ∧
     only_sends w (world_of (handleJoinPrivateRoom player
                               (Player.Username (playerStore w host)) roomCode gameID w)) ∧
     (connected w player →
      ∃ w', handleJoinPrivateRoom player (Player.Username (playerStore w host))
              roomCode gameID w = Ok tt w' ∧
            outbox w' player = outbox w player ++ [errorFrame "Username already taken."])) ∧
  (∀ w roomCode host player username gameID,
     username ≠ "" → roomCode ≠ "" → players w !! username = None →
     PrivateRooms w !! roomCode = Some host →
     Player.Username (playerStore w host) = username →
     handleJoinPrivateRoom player username roomCode gameID w
       = SendError player "You cannot join your own room." w ∧
     only_sends w (world_of (handleJoinPrivateRoom player username roomCode gameID w)) ∧
     (connected w player →
      ∃ w', handleJoinPrivateRoom player username roomCode gameID w = Ok tt w' ∧
            outbox w' player =
              outbox w player ++ [errorFrame "You cannot join your own room."])).
Proof.
  split.
  - intros w roomCode host player gameID Hreach Hroom Hreg.
    destruct (reachable_inv w Hreach) as [_ [Hp Hr]].
    assert (Player.Username (playerStore w host) ≠ "") as Hu by (intros E; congruence).
    assert (roomCode ≠ "") as Hc by (intros E; congruence).
    assert (handleJoinPrivateRoom player (Player.Username (playerStore w host))
              roomCode gameID w = SendError player "Username already taken." w) as ->.
    { unfold handleJoinPrivateRoom. rewrite !decide_False by done.
      unfold bind at 1. unfold get. cbv beta iota.
      rewrite decide_True; [done|]. by rewrite Hreg. }
    split; [done|]. apply sendError_outcome.
  - intros w roomCode host player username gameID Hu Hc Hfree Hroom Hhost.
    assert (handleJoinPrivateRoom player username roomCode gameID w
            = SendError player "You cannot join your own room." w) as ->.
    { unfold handleJoinPrivateRoom. rewrite !decide_False by done.
      unfold bind at 1. unfold get. cbv beta iota.
      rewrite decide_False by (rewrite Hfree; by intros [? [=]]).
      rewrite Hroom. by rewrite decide_True. }
    split; [done|]. apply sendError_outcome.
Qed.

(* --------------------------------------------------------------------- *)
(* Match: disconnect, reconnect, forfeit                                 *)
(* --------------------------------------------------------------------- *)

Lemma HandleDisconnect_playing g p w :
  Game.Status (gameStore w g) = "playing" →
  ∃ w1, HandleDisconnect g p w = Ok tt w1 ∧
    timers w1 = timers w ++ [ReconnectTimer g p] ∧
    gameStore w1 = gameStore w ∧ playerStore w1 = playerStore w ∧
    spawned w1 = spawned w ∧ games w1 = games w ∧ players w1 = players w.
Proof.
  intros Hs. unfold HandleDisconnect, bind, getGame.
  rewrite decide_False by (by intros []). by eexists.
Qed.

(* A reconnect on an in-progress match swaps the transport and pushes the
   state; it does not touch the match or the armed timers. *)
Lemma HandleReconnect_playing g p newConn w :
  Game.Status (gameStore w g) = "playing" → connected w p →
  ∃ w2 state, HandleReconnect g p newConn w = Ok tt w2 ∧
    gameStore w2 = gameStore w ∧ timers w2 = timers w ∧ games w2 = games w ∧
    players w2 = players w ∧ finishes g w2 = finishes g w ∧
    connected w2 p ∧ Player.Conn (playerStore w2 p) = newConn ∧
    outbox w2 p = [mkFrame "reconnected" (StateData state)] ∧
    gsBoard state = Game.Board (gameStore w g) ∧
    gsCurrentPlayer state = Game.CurrentPlayer (gameStore w g) ∧
    gsStatus state = Game.Status (gameStore w g).
Proof.
  intros Hs Hc. unfold connected in Hc.
  destruct w as [pls gms wp rooms ps gs ng tms sp cc]. fields in Hs. fields in Hc.
  unfold HandleReconnect, HandleReconnect_beside, closeSend, SendMessage, CreateState,
    finishes, connected, outbox. wsimpl.
  rewrite decide_False by (by intros []). rewrite Hc. wsimpl.
  rewrite !fn_lookup_alter.
  cbn [Player.set_Send Player.set_Conn Player.Send Player.Conn closed buf newChan].
  wsimpl. do 2 eexists. split; [reflexivity|]. wsimpl.
  rewrite !fn_lookup_alter.
  cbn [Player.set_Send Player.set_Conn Player.Send Player.Conn closed buf newChan
       gsBoard gsCurrentPlayer gsStatus app].
  rewrite list.filter_app, length_app, list.filter_cons, list.filter_nil.
  rewrite decide_False by done. cbn [length]. rewrite Nat.add_0_r.
  repeat split; reflexivity.
Qed.

(* The grace timer goes off on a match that is still in progress. *)
Lemma reconnectTimerExpired_playing g p w w3 :
  Game.Status (gameStore w g) = "playing" →
  w3 = world_of (reconnectTimerExpired g p w) →
  gameStore w3 g =
    Game.set_Winner (if decide (p = Game.Player1 (gameStore w g)) then Player2 else Player1)
      (Game.set_Status "finished" (gameStore w g)) ∧
  finishes g w3 = S (finishes g w).
Proof.
  intros Hs ->. unfold reconnectTimerExpired.
  erewrite world_of_bind_Ok by reflexivity. rewrite decide_False by (by intros []).
  cbv zeta.
  destruct (endGame_spec g
              (if decide (p = Game.Player1 (gameStore w g)) then Player2 else Player1) w)
    as (w2 & Heq & Hg & _ & Hfin & _).
  erewrite world_of_bind_Ok by exact Heq.
  destruct (BroadcastState_only_sends w2 g w2 (only_sends_refl _))
    as [_ _ _ _ Egs _ _ Esp _ _ _ _].
  rewrite Egs. unfold finishes at 1. rewrite Esp. fold (finishes g w2). by rewrite Hg, Hfin.
Qed.

(* The defect behind C1: HandleReconnect changes nothing that the timer
   callback reads, so the forfeit is declared although the participant is
   back. *)
Lemma reconnect_does_not_cancel_forfeit g p newConn w :
  Game.Status (gameStore w g) = "playing" → connected w p →
  ∃ w1 w2,
    HandleDisconnect g p w = Ok tt w1 ∧
    HandleReconnect g p newConn w1 = Ok tt w2 ∧
    gameStore w2 g = gameStore w g ∧
    ReconnectTimer g p ∈ timers w2 ∧
    ∀ w3, w3 = world_of (reconnectTimerExpired g p w2) →
      Game.Status (gameStore w3 g) = "finished" ∧
      Game.Winner (gameStore w3 g) =
        (if decide (p = Game.Player1 (gameStore w g)) then Player2 else Player1).
Proof.
  intros Hs Hc.
  destruct (HandleDisconnect_playing g p w Hs) as (w1 & H1 & Ht1 & Hg1 & Hp1 & _).
  destruct (HandleReconnect_playing g p newConn w1) as (w2 & st & H2 & Hg2 & Ht2 & _).
  { by rewrite Hg1. } { unfold connected. by rewrite Hp1. }
  exists w1, w2. split; [done|]. split; [done|].
  split; [by rewrite Hg2, Hg1|].
  split.
  { rewrite Ht2, Ht1. apply elem_of_app. right. apply list_elem_of_here. }
  intros w3 Hw3.
  destruct (reconnectTimerExpired_playing g p w2 w3) as [Hg3 _]; [|done|].
  { by rewrite Hg2, Hg1. }
  rewrite Hg3, Hg2, Hg1. by split.
Qed.

(* The part of C1 that holds: without a reconnect the other participant
   wins, once. *)
Lemma forfeit_without_reconnect g p w w1 w3 :
  Game.Status (gameStore w g) = "playing" →
  w1 = world_of (HandleDisconnect g p w) →
  w3 = world_of (reconnectTimerExpired g p w1) →
  Game.Status (gameStore w3 g) = "finished" ∧
  Game.Winner (gameStore w3 g) =
    (if decide (p = Game.Player1 (gameStore w g)) then Player2 else Player1) ∧
  finishes g w3 = S (finishes g w) ∧
  ∀ ops, gameStore (world_of (run_ops g ops w3)) g = gameStore w3 g ∧
         finishes g (world_of (run_ops g ops w3)) = finishes g w3.
Proof.
  intros Hs -> Hw3.
  destruct (HandleDisconnect_playing g p w Hs) as (w1 & H1 & _ & Hg1 & _ & Hsp & _).
  rewrite H1 in Hw3. simpl in Hw3.
  destruct (reconnectTimerExpired_playing g p w1 w3) as [Hg3 Hfin]; [by rewrite Hg1|done|].
  assert (finishes g w1 = finishes g w) as Hf1 by (unfold finishes; by rewrite Hsp).
  rewrite Hg3, Hfin, Hg1, Hf1.
  split; [done|]. split; [done|]. split; [done|]. intros ops.
  destruct (run_ops_finished g ops w3) as [Hgs' Hsp']; [by rewrite Hg3|].
  rewrite Hgs', Hg3, Hg1. split; [done|].
  unfold finishes at 1. rewrite Hsp'. fold (finishes g w3). by rewrite Hfin, Hf1.
Qed.

(* At the Director, a disconnect deletes the identity, so a later reconnect
   under that identity is turned down. *)
Lemma reconnect_after_unregister_rejected player username race w :
  players w !! username = None →
  handleReconnect player username race w =
  SendError player "No active game found to reconnect to." w.
Proof.
  intros H. unfold handleReconnect. unfold bind at 1. unfold get. cbv beta iota.
  by rewrite H.
Qed.

Lemma UnregisterPlayer_players player order w :
  Player.Username (playerStore w player) ≠ "" →
  players (world_of (UnregisterPlayer player order w)) =
  delete (Player.Username (playerStore w player)) (players w).
Proof.
  intros Hu. unfold UnregisterPlayer.
  erewrite world_of_bind_Ok by reflexivity. rewrite decide_False by done.
  do 2 erewrite world_of_bind_Ok by reflexivity.
  apply (pres_seq_at (λ w', players w' = _)); [|intros _; pres_field].
  destruct (decide (waitingPlayer w = Some player)); reflexivity.
Qed.

(* --------------------------------------------------------------------- *)
(* The scenarios                                                         *)
(* --------------------------------------------------------------------- *)

Lemma column_fullb_spec b col : column_fullb b col = true ↔ column_full b col.
Proof.
  unfold column_fullb, column_full. rewrite forallb_forall. split.
  - intros H r Hr. specialize (H r). rewrite negb_true_iff, Z.eqb_neq in H.
    apply H, list_elem_of_In, elem_of_seqZ. lia.
  - intros H r Hr%list_elem_of_In%elem_of_seqZ.
    rewrite negb_true_iff, Z.eqb_neq. apply H. lia.
Qed.

Lemma board_fullb_spec b : board_fullb b = true ↔ board_full b.
Proof.
  unfold board_fullb, board_full. rewrite forallb_forall. split.
  - intros H r c Hr Hc. specialize (H c). rewrite column_fullb_spec in H.
    apply H; [|done]. apply list_elem_of_In, elem_of_seqZ. lia.
  - intros H c Hc%list_elem_of_In%elem_of_seqZ. apply column_fullb_spec.
    intros r Hr. apply H; lia.
Qed.

Lemma reachable_run_all es w w' :
  reachable w → Forall (λ e, ∀ w0, enabled e w0) es →
  run_all es w = Ok tt w' → reachable w'.
Proof.
  revert w. induction es as [|e es IH]; intros w Hw Hen; simpl.
  - by intros [= <-].
  - inversion Hen as [|? ? He Hes]; subst. unfold bind.
    destruct (run e w) as [[] w1| |] eqn:E; [|done..].
    intros Hrest. apply (IH w1); [|done..].
    by apply (reachable_step w e w1).
Qed.

Lemma Forall_alternate first second cols :
  Forall (λ e, ∀ w0, enabled e w0) (alternate first second cols).
Proof.
  revert first second. induction cols as [|c cols IH]; intros first second; simpl.
  - constructor.
  - constructor; [done|apply IH].
Qed.

Lemma reachable_waiting_alice : reachable waiting_alice.
Proof.
  apply (reachable_run_all
           [Connect alice; Receive alice (joinMsg "alice") oracle0] NewGameManager).
  - apply reachable_init.
  - by repeat constructor.
  - vm_compute. reflexivity.
Qed.

Lemma reachable_paired : reachable paired.
Proof.
  apply (reachable_run_all
           [Connect bob; Receive bob (joinMsg "bob") oracle0] waiting_alice).
  - apply reachable_waiting_alice.
  - by repeat constructor.
  - vm_compute. reflexivity.
Qed.

Lemma reachable_before_win : reachable before_win.
Proof.
  apply (reachable_run_all (alternate alice bob [3; 0; 3; 0; 3; 0]) paired).
  - apply reachable_paired.
  - apply Forall_alternate.
  - vm_compute. reflexivity.
Qed.

Lemma reachable_one_room : reachable one_room.
Proof.
  apply (reachable_run_all
           [Connect alice; Receive alice (createRoomMsg "alice") oracle0] NewGameManager).
  - apply reachable_init.
  - by repeat constructor.
  - vm_compute. reflexivity.
Qed.

Lemma reachable_host_left : reachable host_left.
Proof.
  apply (reachable_run_all
           [Receive alice (createRoomMsg "bob") oracle1;
            Disconnect alice ["ABCDEF"; "GHIJKL"]] one_room).
  - apply reachable_one_room.
  - by repeat constructor.
  - vm_compute. reflexivity.
Qed.

(* The closing move of the scenario of the specification: alice's fourth
   disc in column 3. *)
Lemma winning_move_finishes_match_once_witness :
  Game.Status (gameStore after_win 0%nat) = "finished" ∧
  Game.Winner (gameStore after_win 0%nat) = Player1 ∧
  finishes 0%nat after_win = S (finishes 0%nat before_win).
Proof.
  unshelve epose proof
    (winning_move_finishes_match_once before_win 0%nat (Some alice) 3 Player1 2
       won_board _ _ _ _ _ after_win eq_refl) as (H1 & H2 & _ & H3 & _).
  - vm_compute. reflexivity.
  - vm_compute. reflexivity.
  - vm_compute. reflexivity.
  - vm_compute. reflexivity.
  - exists 1, 0, 0. split; [apply list_elem_of_further, list_elem_of_here|].
    split; [lia|]. apply run_of_4b_spec. vm_compute. reflexivity.
  - exact (conj H1 (conj H2 H3)).
Defined.

(* bob moves out of turn; bob moves on the full column 0. *)
Lemma full_column_or_wrong_turn_rejected_witness :
  HandleMove 0%nat (Some bob) 0 before_win =
    SendError bob "It's not your turn." before_win ∧
  HandleMove 0%nat (Some bob) 0 before_draw =
    SendError bob "Column is full" before_draw.
Proof.
  split.
  - unshelve epose proof
      (full_column_or_wrong_turn_rejected before_win 0%nat bob 0 Player2 _ _ _)
      as (message & -> & H & _).
    + vm_compute. reflexivity.
    + vm_compute. reflexivity.
    + left. vm_compute. discriminate.
    + exact H.
  - unshelve epose proof
      (full_column_or_wrong_turn_rejected before_draw 0%nat bob 0 Player2 _ _ _)
      as (message & -> & H & _).
    + vm_compute. reflexivity.
    + vm_compute. reflexivity.
    + right. split; [vm_compute; split; [discriminate|reflexivity]|].
      apply column_fullb_spec. vm_compute. reflexivity.
    + exact H.
Defined.

(* bob's disc on the last empty cell of the drawn board. *)
Lemma board_filling_move_is_draw_witness :
  Game.Status (gameStore (world_of (HandleMove 0%nat (Some bob) 6 before_draw)) 0%nat)
    = "finished" ∧
  Game.Winner (gameStore (world_of (HandleMove 0%nat (Some bob) 6 before_draw)) 0%nat)
    = Empty.
Proof.
  unshelve epose proof
    (board_filling_move_is_draw before_draw 0%nat (Some bob) 6 Player2 0
       drawn_board _ _ _ _ _ _ _ eq_refl) as (H1 & H2 & _).
  - vm_compute. reflexivity.
  - vm_compute. reflexivity.
  - vm_compute. reflexivity.
  - vm_compute. reflexivity.
  - apply board_fullb_spec. vm_compute. reflexivity.
  - intros H%has_runb_spec. vm_compute in H. discriminate H.
  - exact (conj H1 H2).
Defined.

(* bob joins while alice waits; alice's timer fires while she waits; alice
   joins an empty lobby; alice connects, joins an empty lobby, and her timer
   fires. *)
Lemma first_joiner_is_participant_A_witness :
  (let w' := world_of (handleJoin bob "bob" "game-1" waiting_alice) in
   Game.Player1 (gameStore w' 0%nat) = alice ∧
   Game.Player2 (gameStore w' 0%nat) = Some bob ∧
   Game.CurrentPlayer (gameStore w' 0%nat) = Player1) ∧
  (let w' := world_of (startBotGame alice "game-1" waiting_alice) in
   Game.Player1 (gameStore w' 0%nat) = alice ∧
   Game.IsBot (gameStore w' 0%nat) = true ∧
   Game.CurrentPlayer (gameStore w' 0%nat) = Player1) ∧
  waitingPlayer (world_of (handleJoin alice "alice" "game-1" NewGameManager)) = Some alice ∧
  (let w' := world_of (run (Fire (MatchmakingTimer alice) oracle0) waiting_alice) in
   Game.Player1 (gameStore w' 0%nat) = alice ∧
   Game.IsBot (gameStore w' 0%nat) = true ∧
   games w' !! "game-1" = Some 0%nat) ∧
  (∃ w1 w',
     handleJoin alice "alice" "game-1" (world_of (run (Connect alice) NewGameManager))
       = Ok tt w1 ∧
     MatchmakingTimer alice ∈ timers w1 ∧
     run (Fire (MatchmakingTimer alice) oracle0) w1 = Ok tt w' ∧
     Game.Player1 (gameStore w' 0%nat) = alice ∧
     Game.IsBot (gameStore w' 0%nat) = true ∧
     waitingPlayer w' = None).
Proof.
  destruct first_joiner_is_participant_A as (Ha & Hb & Hc & Hd & He).
  split; [|split; [|split; [|split]]].
  - unshelve epose proof
      (Ha waiting_alice bob "bob" "game-1" alice _ _ _ _ _ eq_refl)
      as (H1 & H2 & _ & H4 & _).
    + discriminate.
    + vm_compute. reflexivity.
    + vm_compute. reflexivity.
    + vm_compute. discriminate.
    + exact (conj H1 (conj H2 H4)).
  - unshelve epose proof (Hb waiting_alice alice "game-1" _ _ eq_refl)
      as (H1 & _ & H3 & H4 & _).
    + vm_compute. reflexivity.
    + exact (conj H1 (conj H3 H4)).
  - unshelve epose proof (Hc NewGameManager alice "alice" "game-1" _ _ _ _ eq_refl)
      as (H1 & _).
    + discriminate.
    + vm_compute. reflexivity.
    + reflexivity.
    + exact H1.
  - unshelve epose proof (Hd waiting_alice alice oracle0 _ _ eq_refl)
      as (H1 & _ & H3 & _ & _ & _ & _ & H8 & _).
    + vm_compute. reflexivity.
    + exact (conj H1 (conj H3 H8)).
  - unshelve epose proof
      (He (world_of (run (Connect alice) NewGameManager)) alice "alice" "game-1" oracle0
          _ _ _ _)
      as (w1 & w' & state & H1 & H2 & H3 & H4 & _ & H6 & _ & _ & _ & _ & _ & H12 & _).
    + discriminate.
    + vm_compute. reflexivity.
    + vm_compute. reflexivity.
    + vm_compute. reflexivity.
    + exists w1, w'. exact (conj H1 (conj H2 (conj H3 (conj H4 (conj H6 H12))))).
Defined.

(* alice's matchmaking timer fires after she was paired with bob. *)
Lemma stale_matchmaking_timer_is_noop_witness :
  startBotGame alice "game-2" paired = Ok tt paired.
Proof.
  unshelve epose proof (stale_matchmaking_timer_is_noop paired alice "game-2" _)
    as (H & _).
  - vm_compute. discriminate.
  - exact H.
Defined.



Lemma reachable_boards_obey_gravity_witness :
  board_wf (Game.Board (gameStore before_win 0%nat)) ∧
  gravity (Game.Board (gameStore before_win 0%nat)).
Proof.
  destruct (reachable_boards_obey_gravity before_win 0%nat reachable_before_win)
    as (H1 & H2 & _).
  exact (conj H1 H2).
Defined.

(* bob asks for alice's room under the name "alice" while she is registered;
   carol asks for the room the departed host left behind, under the name the
   host last took. *)
Lemma join_with_host_username_is_username_taken_witness :
  handleJoinPrivateRoom bob "alice" "ABCDEF" "game-1" one_room =
    SendError bob "Username already taken." one_room ∧
  handleJoinPrivateRoom carol "bob" "GHIJKL" "game-1" host_left =
    SendError carol "You cannot join your own room." host_left.
Proof.
  destruct join_with_host_username_is_username_taken as [Ha Hb].
  split.
  - unshelve epose proof (Ha one_room "ABCDEF" alice bob "game-1" _ _ _) as [H _].
    + exact reachable_one_room.
    + vm_compute. reflexivity.
    + vm_compute. reflexivity.
    + exact H.
  - unshelve epose proof
      (Hb host_left "GHIJKL" alice carol "bob" "game-1" _ _ _ _ _) as [H _].
    + discriminate.
    + discriminate.
    + vm_compute. reflexivity.
    + vm_compute. reflexivity.
    + vm_compute. reflexivity.
    + exact H.
Defined.

(** C1 (where the code departs from it): on the match of alice and bob,
    alice's handle is reported disconnected, which arms the grace timer, and
    is then reconnected on a new transport: the match object is untouched
    and the timer stays armed; when the timer fires, it finds the status
    still in-progress and declares the forfeit, bob the winner, although
    alice is back.  Through the Director the reconnect does not even get that
    far: the disconnect has deleted the identity, so the reconnect under the
    same name is answered "No active game found to reconnect to.", and the
    timer's broadcast then hits the queue the disconnect closed. *)
Theorem reconnect_within_grace_is_still_forfeited :
  (∃ w1 w2,
     HandleDisconnect 0%nat alice paired = Ok tt w1 ∧
     HandleReconnect 0%nat alice 7%nat w1 = Ok tt w2 ∧
     gameStore w2 0%nat = gameStore paired 0%nat ∧
     ReconnectTimer 0%nat alice ∈ timers w2 ∧
     Game.Status (gameStore (world_of (reconnectTimerExpired 0%nat alice w2)) 0%nat)
       = "finished" ∧
     Game.Winner (gameStore (world_of (reconnectTimerExpired 0%nat alice w2)) 0%nat)
       = Player2) ∧
  (∀ race, handleReconnect carol "alice" race alice_left =
             SendError carol "No active game found to reconnect to." alice_left) ∧
  (∃ w3, run (Fire (ReconnectTimer 0%nat alice) oracle0) alice_left =
           Panic "send on closed channel" w3 ∧
         Game.Status (gameStore w3 0%nat) = "finished" ∧
         Game.Winner (gameStore w3 0%nat) = Player2).
Proof.
  split; [|split].
  - destruct (reconnect_does_not_cancel_forfeit 0%nat alice 7%nat paired)
      as (w1 & w2 & H1 & H2 & Hg & Ht & H3).
    { vm_compute. reflexivity. } { vm_compute. reflexivity. }
    exists w1, w2. split; [done|]. split; [done|]. split; [done|]. split; [done|].
    destruct (H3 _ eq_refl) as [Hs Hw]. split; [exact Hs|].
    rewrite Hw. vm_compute. reflexivity.
  - intros race. apply reconnect_after_unregister_rejected. vm_compute. reflexivity.
  - exists (world_of (run (Fire (ReconnectTimer 0%nat alice) oracle0) alice_left)).
    split; [|split]; vm_compute; reflexivity.
Qed.

(** C7 (where the code departs from it): one connection creates a room as
    "alice" and a second room as "bob", so it hosts the codes ABCDEF and
    GHIJKL, and disconnects before anyone joins.  In whatever order the
    runtime enumerates the rooms, the loop of UnregisterPlayer stops at the
    first room of the host: one of the two codes is still in the registry,
    still mapped to the departed host. *)
Theorem host_of_two_rooms_leaves_one_behind (order : list string) :
  PrivateRooms two_rooms !! "ABCDEF" = Some alice ∧
  PrivateRooms two_rooms !! "GHIJKL" = Some alice ∧
  (PrivateRooms (world_of (UnregisterPlayer alice order two_rooms)) !! "ABCDEF"
     = Some alice ∨
   PrivateRooms (world_of (UnregisterPlayer alice order two_rooms)) !! "GHIJKL"
     = Some alice).
Proof.
  assert (PrivateRooms two_rooms !! "ABCDEF" = Some alice) as H1
    by (vm_compute; reflexivity).
  assert (PrivateRooms two_rooms !! "GHIJKL" = Some alice) as H2
    by (vm_compute; reflexivity).
  split; [done|]. split; [done|].
  rewrite UnregisterPlayer_rooms by (vm_compute; discriminate).
  revert H1 H2. generalize (PrivateRooms two_rooms). intros rooms H1 H2.
  destruct (removeHostedRoom_cases order rooms alice) as [->|(c & _ & _ & ->)];
    [by left|].
  destruct (decide (c = "ABCDEF")) as [->|Hc].
  - right. by rewrite lookup_delete_ne.
  - left. by rewrite lookup_delete_ne.
Qed.

(* --------------------------------------------------------------------- *)
(* Board engine: the outcomes of makeMove, the lines of checkWin         *)
(* --------------------------------------------------------------------- *)

Lemma makeMove_invalid_column b col playerNum :
  ¬ 0 ≤ col < Cols → makeMove b col playerNum = MoveError (-1) "Invalid column".
Proof.
  intros Hc. unfold makeMove.
  replace ((col <? 0) || (col >=? Cols)) with true; [done|].
  symmetry. apply orb_true_iff.
  destruct (Z.ltb_spec col 0); [by left|]. right. apply Z.geb_le. lia.
Qed.

(** X1: makeMove has exactly three outcomes.  It places the disc in the lowest
    empty cell of the column (every cell below it is occupied) and changes
    that cell only; or it answers "Invalid column", which it does exactly for
    a column outside 0 .. Cols - 1; or it answers "Column is full", which it
    does exactly for a column of the board with no empty cell.  Both errors
    carry the row -1. *)
Theorem makeMove_outcomes b col playerNum :
  match makeMove b col playerNum with
  | Placed row b' =>
      0 ≤ col < Cols ∧ 0 ≤ row < Rows ∧ cell b row col = Empty ∧
      (∀ r, row < r < Rows → cell b r col ≠ Empty) ∧
      b' = set_cell b row col playerNum
  | MoveError row err =>
      row = -1 ∧
      ((err = "Invalid column" ∧ ¬ 0 ≤ col < Cols) ∨
       (err = "Column is full" ∧ 0 ≤ col < Cols ∧ column_full b col))
  end.
Proof.
  destruct (makeMove b col playerNum) as [row b'|row err] eqn:E.
  - by apply makeMove_Placed.
  - unfold makeMove in E.
    destruct ((col <? 0) || (col >=? Cols)) eqn:Hc.
    + injection E as <- <-. split; [done|]. left. split; [done|].
      apply orb_true_iff in Hc as [H%Z.ltb_lt|H%Z.geb_le]; lia.
    + apply orb_false_iff in Hc as [H1%Z.ltb_ge H2].
      assert (col < Cols) by (destruct (Z.geb_spec col Cols); [done|lia]).
      destruct (makeMove_rows _ _ _ _) as [[r0 b0]|] eqn:Er; [done|].
      injection E as <- <-. split; [done|]. right. split; [done|]. split; [lia|].
      intros r Hr. eapply makeMove_rows_None; [exact Er|]. unfold Rows in *. lia.
Qed.

(* A run of 4 anywhere on a line through the last cell is found. *)
Lemma checkWin_complete_line b p lastRow lastCol :
  in_bounds lastRow lastCol = true →
  run_on_line b p lastRow lastCol →
  checkWin b lastRow lastCol p = true.
Proof.
  intros Hin (dr & dc & t & Hd & Hrun).
  apply in_bounds_spec in Hin.
  assert (∀ j, 0 ≤ j < 4 →
    (0 ≤ lastRow + t * dr + j * dr < Rows ∧ 0 ≤ lastCol + t * dc + j * dc < Cols) ∧
    cell b (lastRow + t * dr + j * dr) (lastCol + t * dc + j * dc) = p) as Hcells.
  { intros j Hj. destruct (Hrun j Hj) as [H1 H2]. by apply in_bounds_spec in H1. }
  clear Hrun. pose proof (Hcells 0 ltac:(lia)) as [Hfirst _].
  pose proof (Hcells 3 ltac:(lia)) as [Hlast _].
  unfold checkWin, line_fuel, Rows, Cols in *.
  apply directions_cases in Hd as [[-> ->]|[[-> ->]|[[-> ->]|[-> ->]]]].
  - rewrite (count_line_complete _ _ _ _ _ (Z.to_nat (lastCol + t))); [done|lia|lia|..].
    + intros i Hi. apply Z.ltb_lt. lia.
    + intros j Hj. destruct (Hcells (Z.of_nat j)) as [_ <-]; [lia|]. apply cell_eq; lia.
  - destruct (count_line _ _ _ (λ _ c, c <? 7) _ _ _ _ _); [done|].
    rewrite (count_line_complete _ _ _ _ _ (Z.to_nat (lastRow + t))); [done|lia|lia|..].
    + intros i Hi. apply Z.ltb_lt. lia.
    + intros j Hj. destruct (Hcells (Z.of_nat j)) as [_ <-]; [lia|]. apply cell_eq; lia.
  - destruct (count_line _ _ _ (λ _ c, c <? 7) _ _ _ _ _); [done|].
    destruct (count_line _ _ _ (λ r _, r <? 6) _ _ _ _ _); [done|].
    rewrite (count_line_complete _ _ _ _ _ (Z.to_nat (Z.min lastRow lastCol + t)));
      [done|lia|lia|..].
    + intros i Hi. apply andb_true_iff. split; apply Z.ltb_lt; lia.
    + intros j Hj. destruct (Hcells (Z.of_nat j)) as [_ <-]; [lia|]. apply cell_eq; lia.
  - destruct (count_line _ _ _ (λ _ c, c <? 7) _ _ _ _ _); [done|].
    destruct (count_line _ _ _ (λ r _, r <? 6) _ _ _ _ _); [done|].
    destruct (count_line _ _ _ (λ r c, (r <? 6) && (c <? 7)) _ _ _ _ _); [done|].
    apply (count_line_complete _ _ _ _ _
             (Z.to_nat (Z.min (6 - 1 - lastRow) lastCol + t))); [lia|lia|..].
    + intros i Hi. apply andb_true_iff. split; [apply Z.geb_le|apply Z.ltb_lt]; lia.
    + intros j Hj. destruct (Hcells (Z.of_nat j)) as [_ <-]; [lia|]. apply cell_eq; lia.
Qed.

Lemma count_line_at fuel b p cond dr dc r c r' c' count :
  r = r' → c = c' →
  count_line fuel b p cond dr dc r c count = count_line fuel b p cond dr dc r' c' count.
Proof. by intros -> ->. Qed.

(* A loop of checkWin that answers true has seen a run on its line. *)
Lemma count_line_run b p cond dr dc lastRow lastCol t0 :
  p ≠ Empty → (dr, dc) ∈ directions →
  count_line line_fuel b p cond dr dc (lastRow + t0 * dr) (lastCol + t0 * dc) 0 = true →
  run_on_line b p lastRow lastCol.
Proof.
  intros Hp Hd H. apply count_line_sound in H as [k Hk]; [|lia|intros j; lia].
  exists dr, dc, (t0 + k). split; [done|].
  replace (lastRow + (t0 + k) * dr) with (lastRow + t0 * dr + k * dr) by lia.
  replace (lastCol + (t0 + k) * dc) with (lastCol + t0 * dc + k * dc) by lia.
  by apply window_is_run.
Qed.

Lemma checkWin_sound_line b p lastRow lastCol :
  p ≠ Empty → checkWin b lastRow lastCol p = true → run_on_line b p lastRow lastCol.
Proof.
  intros Hp. unfold checkWin.
  destruct (count_line _ _ _ (λ _ c, c <? Cols) _ _ _ _ _) eqn:E1.
  { intros _. apply (count_line_run b p (λ _ c, c <? Cols) 0 1 lastRow lastCol (- lastCol)); [done|..].
    - apply list_elem_of_here.
    - rewrite <- E1. apply count_line_at; lia. }
  destruct (count_line _ _ _ (λ r _, r <? Rows) _ _ _ _ _) eqn:E2.
  { intros _. apply (count_line_run b p (λ r _, r <? Rows) 1 0 lastRow lastCol (- lastRow)); [done|..].
    - apply list_elem_of_further, list_elem_of_here.
    - rewrite <- E2. apply count_line_at; lia. }
  destruct (count_line _ _ _ (λ r c, (r <? Rows) && (c <? Cols)) _ _ _ _ _) eqn:E3.
  { intros _.
    apply (count_line_run b p (λ r c, (r <? Rows) && (c <? Cols)) 1 1 lastRow lastCol
             (- Z.min lastRow lastCol)); [done|..].
    - do 2 apply list_elem_of_further. apply list_elem_of_here.
    - rewrite <- E3. apply count_line_at; lia. }
  intros E4.
  apply (count_line_run b p (λ r c, (r >=? 0) && (c <? Cols)) (-1) 1 lastRow lastCol
           (- Z.min (Rows - 1 - lastRow) lastCol)); [done|..].
  - do 3 apply list_elem_of_further. apply list_elem_of_here.
  - rewrite <- E4. apply count_line_at; lia.
Qed.

(** X2: what checkWin computes.  For a last cell on the board and a player
    number other than Empty, checkWin answers true exactly when four
    consecutive cells of that player lie on one of the four lines through the
    last cell: its row, its column or one of its two diagonals.  (The four
    cells need not include the last cell itself.) *)
Theorem checkWin_finds_runs_on_the_lines_of_the_last_cell b playerNum lastRow lastCol :
  in_bounds lastRow lastCol = true → playerNum ≠ Empty →
  (checkWin b lastRow lastCol playerNum = true ↔ run_on_line b playerNum lastRow lastCol).
Proof.
  intros Hin Hp. split.
  - by apply checkWin_sound_line.
  - by apply checkWin_complete_line.
Qed.

(* --------------------------------------------------------------------- *)
(* Bot: the helpers                                                      *)
(* --------------------------------------------------------------------- *)

Lemma cell_lookup b r c :
  board_wf b → in_bounds r c = true →
  ∃ row, b !! Z.to_nat r = Some row ∧ row !! Z.to_nat c = Some (cell b r c).
Proof.
  intros [Hl Hr] Hin. unfold cell. rewrite Hin. apply in_bounds_spec in Hin.
  assert (is_Some (b !! Z.to_nat r)) as [row Hrow]
    by (apply lookup_lt_is_Some_2; unfold Rows in *; lia).
  assert (length row = Z.to_nat Cols) as Hlen
    by exact (Forall_lookup_1 _ _ _ _ Hr Hrow).
  assert (is_Some (row !! Z.to_nat c)) as [x Hx]
    by (apply lookup_lt_is_Some_2; unfold Cols in *; lia).
  exists row. split; [done|]. rewrite Hrow. simpl. by rewrite Hx.
Qed.

(* Writing a cell and writing back what it held restores the array. *)
Lemma set_cell_undo b r c v :
  board_wf b → in_bounds r c = true →
  set_cell (set_cell b r c v) r c (cell b r c) = b.
Proof.
  intros Hwf Hin. destruct (cell_lookup b r c Hwf Hin) as (row & Hrow & Hc).
  unfold set_cell. rewrite list_alter_alter_eq.
  transitivity (alter (λ x, x) (Z.to_nat r) b); [|by apply list_alter_id].
  apply list_alter_ext; [|done]. intros row' Hrow'. simpl.
  assert (row' = row) as -> by congruence.
  rewrite list_insert_insert_eq. by apply list_insert_id.
Qed.

Lemma getNextOpenRow_rows_spec n b col :
  (getNextOpenRow_rows n b col = -1 ∧
   ∀ r, 0 ≤ r < Z.of_nat n → cell b r col ≠ Empty) ∨
  (0 ≤ getNextOpenRow_rows n b col < Z.of_nat n ∧
   cell b (getNextOpenRow_rows n b col) col = Empty ∧
   ∀ r, getNextOpenRow_rows n b col < r < Z.of_nat n → cell b r col ≠ Empty).
Proof.
  induction n as [|n IH]; simpl getNextOpenRow_rows.
  - left. split; [done|]. intros r. lia.
  - destruct (cell b (Z.of_nat n) col =? Empty) eqn:E.
    + apply Z.eqb_eq in E. right. split; [lia|]. split; [done|]. intros r. lia.
    + apply Z.eqb_neq in E. destruct IH as [[H1 H2]|(H1 & H2 & H3)].
      * left. split; [done|]. intros r Hr.
        destruct (decide (r = Z.of_nat n)) as [->|]; [done|]. apply H2. lia.
      * right. split; [lia|]. split; [done|]. intros r Hr.
        destruct (decide (r = Z.of_nat n)) as [->|]; [done|]. apply H3. lia.
Qed.

(* makeMove and getNextOpenRow scan the column alike. *)
Lemma makeMove_rows_getNextOpenRow n b col p :
  makeMove_rows n b col p =
  if getNextOpenRow_rows n b col <? 0 then None
  else Some (getNextOpenRow_rows n b col,
             set_cell b (getNextOpenRow_rows n b col) col p).
Proof.
  induction n as [|n IH]; simpl; [done|].
  destruct (cell b (Z.of_nat n) col =? Empty); [|done].
  destruct (Z.ltb_spec (Z.of_nat n) 0); [lia|done].
Qed.

Lemma isValidMove_open_row b col :
  isValidMove b col = true →
  0 ≤ getNextOpenRow b col < Rows ∧ cell b (getNextOpenRow b col) col = Empty.
Proof.
  unfold isValidMove, getNextOpenRow. intros H%Z.eqb_eq.
  destruct (getNextOpenRow_rows_spec (Z.to_nat Rows) b col) as [[_ Hfull]|(H1 & H2 & _)].
  - destruct (Hfull 0); [unfold Rows; lia|done].
  - unfold Rows in *. split; [lia|done].
Qed.

Lemma isValidMove_makeMove b col p :
  0 ≤ col < Cols → isValidMove b col = true →
  makeMove b col p =
  Placed (getNextOpenRow b col) (set_cell b (getNextOpenRow b col) col p).
Proof.
  intros Hc Hv. apply isValidMove_open_row in Hv as [Hr _].
  unfold makeMove.
  replace ((col <? 0) || (col >=? Cols)) with false
    by (symmetry; apply orb_false_iff; unfold Cols in *; lia).
  rewrite makeMove_rows_getNextOpenRow. fold (getNextOpenRow b col).
  destruct (Z.ltb_spec (getNextOpenRow b col) 0); [lia|done].
Qed.

(** X3: the bot's helpers agree with the match's makeMove.  For a column of
    the board, getNextOpenRow is -1 exactly when the column has no empty
    cell; a column that isValidMove accepts takes the disc, in the row
    getNextOpenRow names; and on a board that obeys gravity a column that
    isValidMove refuses is answered "Column is full". *)
Theorem bot_helpers_agree_with_makeMove b col playerNum :
  0 ≤ col < Cols →
  (getNextOpenRow b col = -1 ↔ column_full b col) ∧
  (isValidMove b col = true →
   makeMove b col playerNum =
   Placed (getNextOpenRow b col) (set_cell b (getNextOpenRow b col) col playerNum)) ∧
  (gravity b → isValidMove b col = false →
   makeMove b col playerNum = MoveError (-1) "Column is full").
Proof.
  intros Hc. split; [|split].
  - unfold getNextOpenRow, column_full.
    destruct (getNextOpenRow_rows_spec (Z.to_nat Rows) b col) as [[H1 H2]|(H1 & H2 & _)].
    + split; [|done]. intros _ r Hr. apply H2. unfold Rows in *. lia.
    + split; [lia|]. intros Hfull. destruct (Hfull (getNextOpenRow_rows (Z.to_nat Rows) b col));
        [unfold Rows in *; lia|done].
  - by apply isValidMove_makeMove.
  - intros Hg Hv. apply makeMove_column_full; [done|].
    unfold isValidMove in Hv. apply Z.eqb_neq in Hv. intros r Hr.
    destruct (decide (r = 0)) as [->|]; [done|].
    apply (Hg 0 col); [unfold Rows; lia|done|done|lia].
Qed.

(* --------------------------------------------------------------------- *)
(* Bot: findBestMove                                                     *)
(* --------------------------------------------------------------------- *)

Lemma winsAt_invalid b who c : isValidMove b c = false → winsAt b who c = false.
Proof. unfold winsAt. by intros ->. Qed.

Lemma tryWin_spec fuel : ∀ b who c,
  board_wf b → 0 ≤ c → (Z.to_nat (Cols - c) ≤ fuel)%nat →
  match tryWin fuel b who c with
  | (Some c0, _) =>
      c ≤ c0 < Cols ∧ winsAt b who c0 = true ∧ ∀ c', c ≤ c' < c0 → winsAt b who c' = false
  | (None, b') => b' = b ∧ ∀ c', c ≤ c' < Cols → winsAt b who c' = false
  end.
Proof.
  induction fuel as [|fuel IH]; intros b who c Hwf Hc Hfuel.
  { simpl. split; [done|]. intros c'. unfold Cols in *. lia. }
  cbn [tryWin]. destruct (Z.ltb_spec c Cols) as [Hlt|Hge].
  2:{ split; [done|]. intros c'. lia. }
  assert (∀ c0 : Z, (∀ c', c + 1 ≤ c' < c0 → winsAt b who c' = false) →
            winsAt b who c = false → ∀ c', c ≤ c' < c0 → winsAt b who c' = false) as Hext.
  { intros c0 H Hno c' Hc'. destruct (decide (c' = c)) as [->|]; [done|]. apply H. lia. }
  destruct (isValidMove b c) eqn:Hv; cbn [negb].
  - pose proof (isValidMove_open_row _ _ Hv) as [Hr He].
    destruct (checkWin _ _ _ _) eqn:Hw.
    + split; [lia|]. split; [|intros c'; lia]. unfold winsAt. by rewrite Hv, Hw.
    + assert (winsAt b who c = false) as Hno by (unfold winsAt; by rewrite Hv, Hw).
      pose proof (set_cell_undo b (getNextOpenRow b c) c who Hwf
                    ltac:(apply in_bounds_spec; lia)) as Hundo.
      rewrite He in Hundo. rewrite Hundo.
      specialize (IH b who (c + 1) Hwf ltac:(lia) ltac:(unfold Cols in *; lia)).
      destruct (tryWin fuel b who (c + 1)) as [[c0|] b'].
      * destruct IH as (H1 & H2 & H3). split; [lia|]. split; [done|]. by apply Hext.
      * destruct IH as [-> H]. split; [done|]. by apply Hext.
  - pose proof (winsAt_invalid b who c Hv) as Hno.
    specialize (IH b who (c + 1) Hwf ltac:(lia) ltac:(unfold Cols in *; lia)).
    destruct (tryWin fuel b who (c + 1)) as [[c0|] b'].
    + destruct IH as (H1 & H2 & H3). split; [lia|]. split; [done|]. by apply Hext.
    + destruct IH as [-> H]. split; [done|]. by apply Hext.
Qed.

(* On a board that obeys gravity the cell above the landing row is empty. *)
Lemma above_open_row_empty b c :
  gravity b → 0 ≤ c < Cols → isValidMove b c = true → 0 < getNextOpenRow b c →
  cell b (getNextOpenRow b c - 1) c = Empty.
Proof.
  intros Hg Hc Hv Hpos. pose proof (isValidMove_open_row _ _ Hv) as [Hr He].
  destruct (decide (cell b (getNextOpenRow b c - 1) c = Empty)) as [|Hne]; [done|].
  destruct (Hg (getNextOpenRow b c - 1) c ltac:(lia) Hc Hne (getNextOpenRow b c));
    [lia|done].
Qed.

Lemma preferCenter_spec cols : ∀ b humanPlayer,
  board_wf b → gravity b → (∀ c, c ∈ cols → 0 ≤ c < Cols) →
  match preferCenter cols b humanPlayer with
  | (Some c0, b') =>
      b' = b ∧ ∃ l1 l2, cols = l1 ++ c0 :: l2 ∧ openAndSafe b humanPlayer c0 = true ∧
                        ∀ c, c ∈ l1 → openAndSafe b humanPlayer c = false
  | (None, b') => b' = b ∧ ∀ c, c ∈ cols → openAndSafe b humanPlayer c = false
  end.
Proof.
  induction cols as [|c cols IH]; intros b h Hwf Hg Hcols.
  { simpl. split; [done|]. intros c Hc. by apply elem_of_nil in Hc. }
  assert (0 ≤ c < Cols) as Hc by (apply Hcols, list_elem_of_here).
  assert (∀ c', c' ∈ cols → 0 ≤ c' < Cols) as Hcols'
    by (intros c' Hc'; by apply Hcols, list_elem_of_further).
  specialize (IH b h Hwf Hg Hcols').
  assert (openAndSafe b h c = false →
          match preferCenter cols b h with
          | (Some c0, b') =>
              b' = b ∧ ∃ l1 l2, c :: cols = l1 ++ c0 :: l2 ∧ openAndSafe b h c0 = true ∧
                                ∀ c', c' ∈ l1 → openAndSafe b h c' = false
          | (None, b') => b' = b ∧ ∀ c', c' ∈ c :: cols → openAndSafe b h c' = false
          end) as Hskip.
  { intros Hno. destruct (preferCenter cols b h) as [[c0|] b'].
    - destruct IH as (-> & l1 & l2 & -> & Hs & Hl1). split; [done|].
      exists (c :: l1), l2. split; [done|]. split; [done|].
      intros c' [->|Hc']%elem_of_cons; [done|by apply Hl1].
    - destruct IH as [-> H]. split; [done|].
      intros c' [->|Hc']%elem_of_cons; [done|by apply H]. }
  cbn [preferCenter]. destruct (isValidMove b c) eqn:Hv.
  2:{ apply Hskip. unfold openAndSafe. by rewrite Hv. }
  pose proof (isValidMove_open_row _ _ Hv) as [Hr He].
  destruct (Z.gtb_spec (getNextOpenRow b c) 0) as [Hpos|Hzero].
  - pose proof (above_open_row_empty b c Hg Hc Hv Hpos) as Habove.
    assert (set_cell (set_cell b (getNextOpenRow b c - 1) c h)
              (getNextOpenRow b c - 1) c Empty = b) as Hundo.
    { pose proof (set_cell_undo b (getNextOpenRow b c - 1) c h Hwf
                    ltac:(apply in_bounds_spec; lia)) as Hu.
      by rewrite Habove in Hu. }
    rewrite Hundo. destruct (checkWin _ _ _ _) eqn:Hw.
    + apply Hskip. unfold openAndSafe. rewrite Hv, Hw.
      by destruct (Z.gtb_spec (getNextOpenRow b c) 0); [|lia].
    + split; [done|]. exists [], cols. split; [done|]. split.
      * unfold openAndSafe. rewrite Hv, Hw. by rewrite andb_false_r.
      * intros c' Hc'. by apply elem_of_nil in Hc'.
  - split; [done|]. exists [], cols. split; [done|]. split.
    + unfold openAndSafe. rewrite Hv.
      by destruct (Z.gtb_spec (getNextOpenRow b c) 0); [lia|].
    + intros c' Hc'. by apply elem_of_nil in Hc'.
Qed.

Lemma centerCols_range c : c ∈ centerCols → 0 ≤ c < Cols.
Proof.
  unfold centerCols, Cols. rewrite !elem_of_cons, elem_of_nil.
  intros [->|[->|[->|[->|[->|[->|[->|[]]]]]]]]; lia.
Qed.

Lemma randomMove_Some attempts rnd : ∀ k b c,
  randomMove attempts rnd k b = Some c → 0 ≤ c < Cols ∧ isValidMove b c = true.
Proof.
  induction attempts as [|a IH]; intros k b c; cbn [randomMove]; [done|].
  destruct (isValidMove b _) eqn:Hv; [|apply IH].
  intros [= <-]. split; [|done]. unfold Cols.
  pose proof (Nat.mod_upper_bound (rnd k) (Z.to_nat 7)). lia.
Qed.

Lemma randomMove_returns attempts rnd : ∀ k b i,
  (i < attempts)%nat →
  isValidMove b (Z.of_nat (rnd (k + i)%nat mod Z.to_nat Cols)) = true →
  is_Some (randomMove attempts rnd k b).
Proof.
  induction attempts as [|a IH]; intros k b i Hi Hv; [lia|]. cbn [randomMove].
  destruct (isValidMove b (Z.of_nat (rnd k mod Z.to_nat Cols))) eqn:E; [by eexists|].
  destruct i as [|i]; [rewrite Nat.add_0_r in Hv; congruence|].
  apply (IH (S k) b i); [lia|]. by replace (S k + i)%nat with (k + S i)%nat by lia.
Qed.

Lemma randomMove_full attempts rnd : ∀ k b,
  top_row_full b → randomMove attempts rnd k b = None.
Proof.
  induction attempts as [|a IH]; intros k b Hfull; cbn [randomMove]; [done|].
  assert (isValidMove b (Z.of_nat (rnd k mod Z.to_nat Cols)) = false) as ->; [|by apply IH].
  unfold isValidMove. apply Z.eqb_neq, Hfull. unfold Cols.
  pose proof (Nat.mod_upper_bound (rnd k) (Z.to_nat 7)). lia.
Qed.

(* findBestMove, phase by phase. *)
Lemma findBestMove_phases b botPlayer humanPlayer rnd k attempts :
  board_wf b → gravity b →
  (∃ c0, findBestMove b botPlayer humanPlayer rnd k attempts = Some c0 ∧
         0 ≤ c0 < Cols ∧ winsAt b botPlayer c0 = true ∧
         ∀ c, 0 ≤ c < c0 → winsAt b botPlayer c = false) ∨
  ((∀ c, 0 ≤ c < Cols → winsAt b botPlayer c = false) ∧
   ((∃ c0, findBestMove b botPlayer humanPlayer rnd k attempts = Some c0 ∧
           0 ≤ c0 < Cols ∧ winsAt b humanPlayer c0 = true ∧
           ∀ c, 0 ≤ c < c0 → winsAt b humanPlayer c = false) ∨
    ((∀ c, 0 ≤ c < Cols → winsAt b humanPlayer c = false) ∧
     ((∃ c0 l1 l2, findBestMove b botPlayer humanPlayer rnd k attempts = Some c0 ∧
                   centerCols = l1 ++ c0 :: l2 ∧ openAndSafe b humanPlayer c0 = true ∧
                   ∀ c, c ∈ l1 → openAndSafe b humanPlayer c = false) ∨
      ((∀ c, c ∈ centerCols → openAndSafe b humanPlayer c = false) ∧
       findBestMove b botPlayer humanPlayer rnd k attempts = randomMove attempts rnd k b))))).
Proof.
  intros Hwf Hg. unfold findBestMove.
  pose proof (tryWin_spec (Z.to_nat Cols) b botPlayer 0 Hwf ltac:(lia) ltac:(lia)) as H1.
  destruct (tryWin (Z.to_nat Cols) b botPlayer 0) as [[c0|] b1].
  { left. exists c0. destruct H1 as (? & ? & ?). done. }
  destruct H1 as [-> H1]. right. split; [done|].
  pose proof (tryWin_spec (Z.to_nat Cols) b humanPlayer 0 Hwf ltac:(lia) ltac:(lia)) as H2.
  destruct (tryWin (Z.to_nat Cols) b humanPlayer 0) as [[c0|] b2].
  { left. exists c0. destruct H2 as (? & ? & ?). done. }
  destruct H2 as [-> H2]. right. split; [done|].
  pose proof (preferCenter_spec centerCols b humanPlayer Hwf Hg centerCols_range) as H3.
  destruct (preferCenter centerCols b humanPlayer) as [[c0|] b3].
  { left. destruct H3 as (-> & l1 & l2 & ? & ? & ?). by exists c0, l1, l2. }
  destruct H3 as [-> H3]. right. done.
Qed.

Lemma winsAt_valid b who c : winsAt b who c = true → isValidMove b c = true.
Proof. unfold winsAt. by intros [? _]%andb_true_iff. Qed.

Lemma openAndSafe_valid b h c : openAndSafe b h c = true → isValidMove b c = true.
Proof. unfold openAndSafe. by intros [? _]%andb_true_iff. Qed.

Lemma findBestMove_open b botPlayer humanPlayer rnd k attempts col :
  board_wf b → gravity b →
  findBestMove b botPlayer humanPlayer rnd k attempts = Some col →
  0 ≤ col < Cols ∧ isValidMove b col = true.
Proof.
  intros Hwf Hg Hf.
  destruct (findBestMove_phases b botPlayer humanPlayer rnd k attempts Hwf Hg)
    as [(c0 & E & Hc & Hw & _)|[_ [(c0 & E & Hc & Hw & _)|[_ [(c0 & l1 & l2 & E & El & Hs & _)|[_ E]]]]]].
  - assert (c0 = col) as -> by congruence. split; [done|]. by eapply winsAt_valid.
  - assert (c0 = col) as -> by congruence. split; [done|]. by eapply winsAt_valid.
  - assert (c0 = col) as -> by congruence. split; [|by eapply openAndSafe_valid].
    apply centerCols_range. rewrite El. apply elem_of_app. right. apply list_elem_of_here.
  - rewrite E in Hf. by apply randomMove_Some in Hf.
Qed.

(** X4: the column findBestMove returns is always playable.  On a
    well-formed board that obeys gravity, whatever the random draws, a
    returned column lies on the board and is open (its top cell is empty), so
    makeMove accepts a disc there and places it in the row getNextOpenRow
    names. *)
Theorem bot_column_is_playable b botPlayer humanPlayer rnd k attempts col :
  board_wf b → gravity b →
  findBestMove b botPlayer humanPlayer rnd k attempts = Some col →
  0 ≤ col < Cols ∧ isValidMove b col = true ∧
  ∀ playerNum,
    makeMove b col playerNum =
    Placed (getNextOpenRow b col) (set_cell b (getNextOpenRow b col) col playerNum).
Proof.
  intros Hwf Hg Hf.
  destruct (findBestMove_open _ _ _ _ _ _ _ Hwf Hg Hf) as [Hc Hv].
  split; [done|]. split; [done|]. intros p. by apply isValidMove_makeMove.
Qed.

(** X5: the bot takes a win when it has one.  If a disc of the bot in some
    column of a well-formed board that obeys gravity makes checkWin report a
    win, findBestMove returns, without a random draw, the leftmost such
    column. *)
Theorem bot_takes_the_leftmost_winning_column b botPlayer humanPlayer rnd k attempts c :
  board_wf b → gravity b → 0 ≤ c < Cols → winsAt b botPlayer c = true →
  ∃ c0, findBestMove b botPlayer humanPlayer rnd k attempts = Some c0 ∧
        0 ≤ c0 ≤ c ∧ winsAt b botPlayer c0 = true ∧
        ∀ c', 0 ≤ c' < c0 → winsAt b botPlayer c' = false.
Proof.
  intros Hwf Hg Hc Hw.
  destruct (findBestMove_phases b botPlayer humanPlayer rnd k attempts Hwf Hg)
    as [(c0 & E & Hc0 & Hw0 & Hleast)|[Hno _]].
  - exists c0. split; [done|]. split; [|done].
    destruct (Z.le_gt_cases c0 c); [lia|]. rewrite Hleast in Hw; [done|lia].
  - rewrite Hno in Hw; done.
Qed.

(** X6: the bot blocks.  If no column wins for the bot and a disc of the
    human in some column would make checkWin report a win for the human,
    findBestMove returns the leftmost column where the human would win. *)
Theorem bot_blocks_the_leftmost_threat b botPlayer humanPlayer rnd k attempts c :
  board_wf b → gravity b →
  (∀ c', 0 ≤ c' < Cols → winsAt b botPlayer c' = false) →
  0 ≤ c < Cols → winsAt b humanPlayer c = true →
  ∃ c0, findBestMove b botPlayer humanPlayer rnd k attempts = Some c0 ∧
        0 ≤ c0 ≤ c ∧ winsAt b humanPlayer c0 = true ∧
        ∀ c', 0 ≤ c' < c0 → winsAt b humanPlayer c' = false.
Proof.
  intros Hwf Hg Hnobot Hc Hw.
  destruct (findBestMove_phases b botPlayer humanPlayer rnd k attempts Hwf Hg)
    as [(c0 & E & Hc0 & Hw0 & _)|[_ [(c0 & E & Hc0 & Hw0 & Hleast)|[Hno _]]]].
  - rewrite Hnobot in Hw0; done.
  - exists c0. split; [done|]. split; [|done].
    destruct (Z.le_gt_cases c0 c); [lia|]. rewrite Hleast in Hw; [done|lia].
  - rewrite Hno in Hw; done.
Qed.

Lemma first_unique {A} (P : A → bool) (l1 : list A) : ∀ x l2 l1' x' l2',
  l1 ++ x :: l2 = l1' ++ x' :: l2' →
  (∀ y, y ∈ l1 → P y = false) → P x = true →
  (∀ y, y ∈ l1' → P y = false) → P x' = true → x = x'.
Proof.
  induction l1 as [|a l1 IH]; intros x l2 l1' x' l2' E H1 Hx H1' Hx'.
  - destruct l1' as [|a' l1']; simpl in E; [congruence|].
    injection E as <- _. rewrite H1' in Hx; [done|apply list_elem_of_here].
  - destruct l1' as [|a' l1']; simpl in E.
    + injection E as -> _. rewrite H1 in Hx'; [done|apply list_elem_of_here].
    + injection E as -> E. apply (IH x l2 l1' x' l2' E); try done.
      * intros y Hy. by apply H1, list_elem_of_further.
      * intros y Hy. by apply H1', list_elem_of_further.
Qed.

(** X7: with no immediate win for either side, the bot plays the first
    column in the order 3, 2, 4, 1, 5, 0, 6 that is open and where a disc of
    the human in the cell above the landing row (the landing cell itself left
    empty) makes no line of four; a column whose landing row is the top row
    passes unchecked. *)
Theorem bot_prefers_the_centre b botPlayer humanPlayer rnd k attempts l1 c0 l2 :
  board_wf b → gravity b →
  (∀ c, 0 ≤ c < Cols → winsAt b botPlayer c = false) →
  (∀ c, 0 ≤ c < Cols → winsAt b humanPlayer c = false) →
  centerCols = l1 ++ c0 :: l2 →
  (∀ c, c ∈ l1 → openAndSafe b humanPlayer c = false) →
  openAndSafe b humanPlayer c0 = true →
  findBestMove b botPlayer humanPlayer rnd k attempts = Some c0.
Proof.
  intros Hwf Hg Hnobot Hnohuman El Hl1 Hs.
  destruct (findBestMove_phases b botPlayer humanPlayer rnd k attempts Hwf Hg)
    as [(c & E & Hc & Hw & _)|[_ [(c & E & Hc & Hw & _)|[_ [(c & l1' & l2' & E & El' & Hs' & Hl1')|[Hno _]]]]]].
  - rewrite Hnobot in Hw; done.
  - rewrite Hnohuman in Hw; done.
  - rewrite E. f_equal. symmetry.
    apply (first_unique (openAndSafe b humanPlayer) l1 c0 l2 l1' c l2'); try done.
    congruence.
  - rewrite Hno in Hs; [done|]. rewrite El. apply elem_of_app. right. apply list_elem_of_here.
Qed.

(* --------------------------------------------------------------------- *)
(* What an event does to the matches                                     *)
(* --------------------------------------------------------------------- *)

Lemma same_matches_refl w : same_matches w w.
Proof. by split. Qed.

Lemma same_matches_trans w1 w2 w3 :
  same_matches w1 w2 → same_matches w2 w3 → same_matches w1 w3.
Proof. intros (? & ? & ?) (? & ? & ?). split; [|split]; congruence. Qed.

Lemma only_sends_same_matches w w' : only_sends w w' → same_matches w w'.
Proof. intros []. by split. Qed.

Lemma keeps_bind {A B} (m : M A) (k : A → M B) :
  keeps_matches m → (∀ a, keeps_matches (k a)) → keeps_matches (bind m k).
Proof.
  intros Hm Hk w. unfold bind. specialize (Hm w).
  destruct (m w) as [a w1|r w1|w1]; cbn [world_of] in *; [|done..].
  eapply same_matches_trans; [exact Hm|apply Hk].
Qed.

Lemma keeps_SendMessage p msgType data : keeps_matches (SendMessage p msgType data).
Proof.
  intros w. apply only_sends_same_matches, SendMessage_only_sends, only_sends_refl.
Qed.

Lemma keeps_BroadcastState g : keeps_matches (BroadcastState g).
Proof.
  intros w. apply only_sends_same_matches, BroadcastState_only_sends, only_sends_refl.
Qed.

Ltac keeps :=
  repeat lazymatch goal with
  | |- keeps_matches (bind _ _) => apply keeps_bind; [|intros ?]
  | |- keeps_matches (if ?c then _ else _) => destruct c
  | |- keeps_matches (match ?x with _ => _ end) => destruct x eqn:?
  | |- keeps_matches (SendMessage _ _ _) => apply keeps_SendMessage
  | |- keeps_matches (SendError _ _) => apply keeps_SendMessage
  | |- keeps_matches (BroadcastState _) => apply keeps_BroadcastState
  | |- keeps_matches (AddPlayer _) => apply keeps_SendMessage
  | |- keeps_matches (closeSend _) => unfold closeSend
  | |- keeps_matches (discardConnection _) => unfold discardConnection
  | |- keeps_matches (HandleDisconnect _ _) => unfold HandleDisconnect
  | |- keeps_matches (HandleReconnect _ _ _) => unfold HandleReconnect
  | |- keeps_matches (HandleReconnect_beside _ _ _ _) =>
      unfold HandleReconnect_beside; cbv beta
  | |- keeps_matches (sendErrorIfHuman _ _) => unfold sendErrorIfHuman
  | |- keeps_matches (roomTimerExpired _ _) => unfold roomTimerExpired
  | |- keeps_matches (UnregisterPlayer _ _) => unfold UnregisterPlayer
  | |- keeps_matches (handleCreatePrivateRoom _ _ _) => unfold handleCreatePrivateRoom
  | |- keeps_matches _ =>
      let w := fresh "w" in intros w; split; [|split]; reflexivity
  end.

Lemma effect_same_l w w1 w2 :
  same_matches w w1 → game_effect w1 w2 → game_effect w w2.
Proof.
  intros (E1 & E2 & E3) [H|G HG [H1 H2 H3 H4]|g G' fin Hs Hstep [H1 H2 H3 H4]].
  - apply effect_none. by apply (same_matches_trans w w1 w2).
  - apply (effect_start _ _ G HG). rewrite E1, E2, E3 in *. by constructor.
  - rewrite E1 in Hs, Hstep. apply (effect_step _ _ g G' fin Hs Hstep).
    rewrite E1, E2, E3 in *. by constructor.
Qed.

Lemma effect_same_r w w1 w2 :
  game_effect w w1 → same_matches w1 w2 → game_effect w w2.
Proof.
  intros [H|G HG [H1 H2 H3 H4]|g G' fin Hs Hstep [H1 H2 H3 H4]] (E1 & E2 & E3).
  - apply effect_none. by apply (same_matches_trans w w1 w2).
  - apply (effect_start _ _ G HG). rewrite <- E1, <- E2, <- E3 in *. by constructor.
  - apply (effect_step _ _ g G' fin Hs Hstep).
    rewrite <- E1, <- E2, <- E3 in *. by constructor.
Qed.

Lemma effects_keeps {A} (m : M A) : keeps_matches m → match_effects m.
Proof. intros H w. apply effect_none, H. Qed.

Lemma effects_bind_l {A B} (m : M A) (k : A → M B) :
  keeps_matches m → (∀ a, match_effects (k a)) → match_effects (bind m k).
Proof.
  intros Hm Hk w. unfold bind. specialize (Hm w).
  destruct (m w) as [a w1|r w1|w1]; cbn [world_of] in *; [|by apply effect_none..].
  eapply effect_same_l; [exact Hm|apply Hk].
Qed.

(* The world after a handler that did not stop early, then a tail that
   keeps the matches. *)
Lemma effect_then_keeps {A} (m : M A) w w1 :
  game_effect w w1 → keeps_matches m → game_effect w (world_of (m w1)).
Proof. intros H Hm. eapply effect_same_r; [exact H|apply Hm]. Qed.

Lemma effects_endGame_then_broadcast g winner w :
  Game.Status (gameStore w g) = "playing" →
  match_step (gameStore w g)
    (Game.set_Winner winner (Game.set_Status "finished" (gameStore w g))) true →
  game_effect w (world_of ((endGame g winner ;; BroadcastState g) w)).
Proof.
  intros Hs Hstep.
  destruct (endGame_spec g winner w)
    as (w2 & Heq & Hg & Hother & _ & _ & Hgames & _ & _ & _ & _ & Hnext & _).
  erewrite world_of_bind_Ok by exact Heq.
  apply effect_then_keeps; [|apply keeps_BroadcastState].
  apply (effect_step _ _ g _ true Hs Hstep). by constructor.
Qed.

Lemma Game_set_Board_id G : Game.set_Board (Game.Board G) G = G.
Proof. by destruct G. Qed.

Lemma effects_HandleMove g player col : match_effects (HandleMove g player col).
Proof.
  intros w.
  destruct (decide (Game.Status (gameStore w g) = "playing")) as [Hs|Hs].
  2:{ rewrite HandleMove_not_playing by done. apply effect_none, same_matches_refl. }
  destruct (moverNum (gameStore w g) player) as [n|] eqn:Hm.
  2:{ unfold HandleMove. erewrite world_of_bind_Ok by reflexivity.
      rewrite decide_False by (by intros []). rewrite Hm.
      destruct player; apply effect_none, same_matches_refl. }
  destruct (decide (n = Game.CurrentPlayer (gameStore w g))) as [Hn|Hn].
  2:{ rewrite (HandleMove_not_turn _ _ _ _ _ Hs Hm Hn).
      apply effects_keeps. keeps. }
  destruct (makeMove (Game.Board (gameStore w g)) col n) as [row b'|row err] eqn:Hmv.
  2:{ rewrite (HandleMove_move_error _ _ _ _ _ _ _ Hs Hm Hn Hmv).
      apply effects_keeps. keeps. }
  rewrite (HandleMove_placed _ _ _ _ _ _ _ Hs Hm Hn Hmv).
  erewrite world_of_bind_Ok by reflexivity. unfold afterPlaced.
  do 2 erewrite world_of_bind_Ok by reflexivity.
  match goal with |- context [world_of (_ ?W)] => set (w1 := W) end.
  assert (gameStore w1 g = Game.set_Board b' (gameStore w g)) as Hg1
    by (subst w1; fields; by rewrite fn_lookup_alter).
  assert (∀ g', g' ≠ g → gameStore w1 g' = gameStore w g') as Hother1
    by (intros g' Hg'; subst w1; fields; by rewrite fn_lookup_alter_ne).
  assert (games w1 = games w) as Hgames1 by done.
  assert (nextGame w1 = nextGame w) as Hnext1 by done.
  clearbody w1. subst n.
  destruct (checkWin b' row col (Game.CurrentPlayer (gameStore w g))) eqn:Hwin.
  { destruct (endGame_spec g (Game.CurrentPlayer (gameStore w g)) w1)
      as (w2 & Heq & Hg & Hother & _ & _ & Hgames & _ & _ & _ & _ & Hnext & _).
    erewrite world_of_bind_Ok by exact Heq.
    apply effect_then_keeps; [|apply keeps_BroadcastState].
    apply (effect_step _ _ g _ true Hs (step_win _ col row b' Hmv Hwin)).
    constructor.
    - by rewrite Hg, Hg1.
    - intros g' Hg'. by rewrite Hother, Hother1.
    - rewrite Hgames, Hgames1, Hg1. by destruct (gameStore w g).
    - congruence. }
  destruct (checkDraw b') eqn:Hdraw.
  { destruct (endGame_spec g Empty w1)
      as (w2 & Heq & Hg & Hother & _ & _ & Hgames & _ & _ & _ & _ & Hnext & _).
    erewrite world_of_bind_Ok by exact Heq.
    apply effect_then_keeps; [|apply keeps_BroadcastState].
    apply (effect_step _ _ g _ true Hs (step_draw _ col row b' Hmv Hwin Hdraw)).
    constructor.
    - by rewrite Hg, Hg1.
    - intros g' Hg'. by rewrite Hother, Hother1.
    - rewrite Hgames, Hgames1, Hg1. by destruct (gameStore w g).
    - congruence. }
  erewrite world_of_bind_Ok by reflexivity.
  apply effect_then_keeps; [|keeps].
  apply (effect_step _ _ g _ false Hs (step_move _ col row b' Hmv Hwin Hdraw)).
  constructor; fields.
  - by rewrite fn_lookup_alter, Hg1.
  - intros g' Hg'. by rewrite fn_lookup_alter_ne, Hother1.
  - done.
  - done.
Qed.

Lemma effects_reconnectTimerExpired g player :
  match_effects (reconnectTimerExpired g player).
Proof.
  intros w. unfold reconnectTimerExpired.
  erewrite world_of_bind_Ok by reflexivity.
  destruct (decide (Game.Status (gameStore w g) ≠ "playing")) as [Hs|Hs].
  { apply effect_none, same_matches_refl. }
  apply effects_endGame_then_broadcast.
  - by destruct (decide (Game.Status (gameStore w g) = "playing")).
  - apply step_forfeit. case_decide; auto.
Qed.

Lemma effects_startGame p1 p2 gameID : match_effects (startGame p1 p2 gameID).
Proof.
  intros w. unfold startGame.
  do 2 erewrite world_of_bind_Ok by reflexivity.
  apply effect_then_keeps; [|keeps].
  apply (effect_start _ _ (NewGame gameID p1 p2)); [left; by eauto|].
  constructor; fields.
  - by rewrite fn_lookup_insert.
  - intros g Hg. by rewrite fn_lookup_insert_ne.
  - done.
  - done.
Qed.

Lemma effects_startBotGame player gameID : match_effects (startBotGame player gameID).
Proof.
  intros w. unfold startBotGame.
  erewrite world_of_bind_Ok by reflexivity.
  destruct (decide (waitingPlayer w ≠ Some player)).
  { apply effect_none, same_matches_refl. }
  do 3 erewrite world_of_bind_Ok by reflexivity.
  apply effect_then_keeps; [|keeps].
  apply (effect_start _ _ (NewBotGame gameID player)); [right; by eauto|].
  constructor; fields.
  - by rewrite fn_lookup_insert.
  - intros g Hg. by rewrite fn_lookup_insert_ne.
  - done.
  - done.
Qed.

Ltac effects :=
  repeat lazymatch goal with
  | |- match_effects (bind _ _) => apply effects_bind_l; [solve [keeps] | intros ?]
  | |- match_effects (if ?c then _ else _) => destruct c
  | |- match_effects (match ?x with _ => _ end) => destruct x eqn:?
  | |- match_effects (startGame _ _ _) => apply effects_startGame
  | |- match_effects (startBotGame _ _) => apply effects_startBotGame
  | |- match_effects (HandleMove _ _ _) => apply effects_HandleMove
  | |- match_effects (reconnectTimerExpired _ _) => apply effects_reconnectTimerExpired
  | |- match_effects _ => apply effects_keeps; solve [keeps]
  end.

Lemma effects_HandleMessage player raw o : match_effects (HandleMessage player raw o).
Proof.
  unfold HandleMessage. destruct raw as [|msg]; [apply effects_keeps; keeps|].
  repeat case_decide.
  - unfold handleJoin. effects.
  - unfold handleMove. effects.
  - unfold handleReconnect. effects.
  - apply effects_keeps. keeps.
  - unfold handleJoinPrivateRoom. effects.
  - apply effects_keeps. keeps.
Qed.

Lemma run_effect e w : game_effect w (world_of (run e w)).
Proof.
  revert w. change (match_effects (run e)).
  destruct e as [p|p raw o|p order|t o|g col|p]; cbn [run].
  - apply effects_keeps. keeps.
  - apply effects_HandleMessage.
  - apply effects_keeps. keeps.
  - apply effects_bind_l; [keeps|]. intros _.
    destruct t; cbn [callback]; effects.
  - apply effects_HandleMove.
  - apply effects_keeps. keeps.
Qed.

(** X8: what one event can do to the matches.  Whatever the event (a frame
    from a connection, a disconnect, a timer, a bot move) and however its
    handler ends, its effect on the match objects, the match table and the
    allocation of matches is one of three: none at all; one new match object,
    as NewGame or NewBotGame builds it, at a fresh address and entered in the
    table under its id; or one step of one in-progress match: an accepted
    move of the player whose turn it is (passing the turn, winning or
    filling the top row) or a forfeit, where a step that finishes the match
    removes its id from the table.  No other match object changes. *)
Theorem every_event_is_one_match_step e w :
  game_effect w (world_of (run e w)).
Proof. apply run_effect. Qed.

(* --------------------------------------------------------------------- *)
(* Invariants of the matches                                             *)
(* --------------------------------------------------------------------- *)

Lemma reachable_effect w :
  reachable w →
  w = NewGameManager ∨ ∃ w0, reachable w0 ∧ game_effect w0 w.
Proof.
  intros [|w0 e w' Hr _ Hrun]; [by left|]. right. exists w0. split; [done|].
  pose proof (run_effect e w0) as H. by rewrite Hrun in H.
Qed.

(* A property of match objects that the constructors establish and the
   steps keep holds of every object of a reachable store. *)
Lemma game_invariant (Q : Game.t → Prop) :
  (∀ id p1 p2, Q (NewGame id p1 p2)) →
  (∀ id p1, Q (NewBotGame id p1)) →
  (∀ G G' fin, board_wf (Game.Board G) → Game.Status G = "playing" →
     Q G → match_step G G' fin → Q G') →
  ∀ w, reachable w → ∀ g, Q (gameStore w g).
Proof.
  intros Hnew Hbot Hstep w Hw. induction Hw as [|w e w' Hr IH _ Hrun]; intros g.
  { apply Hnew. }
  pose proof (run_effect e w) as H. rewrite Hrun in H.
  cbn [world_of] in H.
  destruct H as [(E & _ & _)|G HG [H1 H2 _ _]|g0 G' fin Hs Hst [H1 H2 _ _]].
  - rewrite E. apply IH.
  - destruct (decide (g = nextGame w)) as [->|Hne].
    + rewrite H1. destruct HG as [(id & p1 & p2 & ->)|(id & p1 & ->)]; auto.
    + rewrite H2 by done. apply IH.
  - destruct (decide (g = g0)) as [->|Hne].
    + rewrite H1. apply (Hstep (gameStore w g0) G' fin); [|done|apply IH|done].
      apply (reachable_inv w Hr).
    + rewrite H2 by done. apply IH.
Qed.

Lemma match_step_cases G G' fin :
  match_step G G' fin →
  (∃ col row b', makeMove (Game.Board G) col (Game.CurrentPlayer G) = Placed row b' ∧
     (G' = Game.set_CurrentPlayer (3 - Game.CurrentPlayer G) (Game.set_Board b' G) ∨
      G' = Game.set_Winner (Game.CurrentPlayer G)
             (Game.set_Status "finished" (Game.set_Board b' G)) ∨
      G' = Game.set_Winner Empty (Game.set_Status "finished" (Game.set_Board b' G)))) ∨
  (∃ winner, (winner = Player1 ∨ winner = Player2) ∧
     G' = Game.set_Winner winner (Game.set_Status "finished" G)).
Proof.
  intros [col row b' H _ _|col row b' H _|col row b' H _ _|winner H].
  - left. exists col, row, b'. auto.
  - left. exists col, row, b'. auto.
  - left. exists col, row, b'. auto.
  - right. exists winner. auto.
Qed.

(** X9: the numbers a match holds.  In every reachable store, every match
    object has the turn at Player1 or Player2, the status "playing" or
    "finished", the winner 0, 1 or 2 and 0 while the match is in progress,
    every cell of its board 0, 1 or 2, and it is a bot match exactly when it
    has no second participant. *)
Theorem reachable_matches_hold_valid_numbers w g :
  reachable w → game_ok (gameStore w g).
Proof.
  intros Hw. revert g. apply (game_invariant game_ok); [..|done].
  - intros id p1 p2. unfold game_ok, NewGame. cbn.
    repeat split; auto; try done. intros r c. left. apply cell_zeroBoard.
  - intros id p1. unfold game_ok, NewBotGame. cbn.
    repeat split; auto; try done. intros r c. left. apply cell_zeroBoard.
  - intros G G' fin Hwf Hs (Hcur & Hst & Hwin & Hpw & Hbot & Hcells) Hstep.
    apply match_step_cases in Hstep
      as [(col & row & b' & Hmv & HG')|(winner & Hwinner & ->)].
    + assert (∀ r c, cell b' r c = Empty ∨ cell b' r c = Player1 ∨ cell b' r c = Player2)
        as Hcells'.
      { intros r c. rewrite (makeMove_cells _ _ _ _ _ Hwf Hmv). case_decide; auto. }
      destruct HG' as [->|[->| ->]]; unfold game_ok; cbn;
        unfold Player1, Player2, Empty in *.
      * split; [lia|]. split; [done|]. split; [done|]. split; [done|]. split; done.
      * split; [done|]. split; [auto|]. split; [lia|]. split; [done|]. split; done.
      * split; [done|]. split; [auto|]. split; [auto|]. split; [done|]. split; done.
    + unfold game_ok; cbn.
      split; [done|]. split; [auto|]. split; [destruct Hwinner; auto|].
      split; [done|]. split; done.
Qed.

(* Counting over the cells of the array. *)
Lemma NoDup_all_cells : NoDup all_cells.
Proof. apply (bool_decide_unpack (NoDup all_cells)). vm_compute. reflexivity. Qed.

Lemma elem_of_all_cells r c : (r, c) ∈ all_cells ↔ 0 ≤ r < Rows ∧ 0 ≤ c < Cols.
Proof.
  unfold all_cells. rewrite list_elem_of_bind. split.
  - intros (r' & H & Hr). apply list_elem_of_bind in H as (c' & H & Hc).
    apply list_elem_of_singleton in H. injection H as -> ->.
    apply elem_of_seqZ in Hr, Hc. lia.
  - intros [Hr Hc]. exists r. split; [|apply elem_of_seqZ; lia].
    apply list_elem_of_bind. exists c. split; [|apply elem_of_seqZ; lia].
    by apply list_elem_of_singleton.
Qed.

Lemma filter_length_same {A} (P Q : A → Prop)
    `{∀ x, Decision (P x)} `{∀ x, Decision (Q x)} (l : list A) :
  (∀ y, y ∈ l → (P y ↔ Q y)) → length (filter Q l) = length (filter P l).
Proof.
  induction l as [|a l IH]; intros HPQ; [done|].
  assert (P a ↔ Q a) as Ha by apply HPQ, list_elem_of_here.
  assert (length (filter Q l) = length (filter P l)) as IH'.
  { apply IH. intros y Hy. by apply HPQ, list_elem_of_further. }
  rewrite !list.filter_cons. destruct (decide (Q a)), (decide (P a)); simpl; tauto || lia.
Qed.

Lemma filter_length_one_more {A} (P Q : A → Prop)
    `{∀ x, Decision (P x)} `{∀ x, Decision (Q x)} (l : list A) x :
  NoDup l → x ∈ l → ¬ P x → Q x → (∀ y, y ≠ x → (P y ↔ Q y)) →
  length (filter Q l) = S (length (filter P l)).
Proof.
  intros Hnd Hx HP HQ HPQ. induction l as [|a l IH]; [by apply elem_of_nil in Hx|].
  apply list.NoDup_cons in Hnd as [Ha Hnd]. rewrite !list.filter_cons.
  apply elem_of_cons in Hx as [->|Hx].
  - rewrite decide_True by done. rewrite (decide_False (P:=P a)) by done. simpl.
    f_equal. apply filter_length_same. intros y Hy. apply HPQ. by intros ->.
  - assert (a ≠ x) as Hne by (by intros ->).
    specialize (IH Hnd Hx). pose proof (HPQ a Hne) as Hiff.
    destruct (decide (Q a)), (decide (P a)); simpl; tauto || lia.
Qed.

(* An accepted move adds one disc of the mover and no other. *)
Lemma discs_makeMove b col p row b' q :
  board_wf b → makeMove b col p = Placed row b' → p ≠ Empty → q ≠ Empty →
  discs b' q = if decide (q = p) then S (discs b q) else discs b q.
Proof.
  intros Hwf Hmv Hp Hq. pose proof (makeMove_cells _ _ _ _ _ Hwf Hmv) as Hcells.
  apply makeMove_Placed in Hmv as (Hc & Hr & He & _ & _). unfold discs.
  destruct (decide (q = p)) as [->|Hne].
  - apply (filter_length_one_more _ _ _ (row, col)).
    + apply NoDup_all_cells.
    + by apply elem_of_all_cells.
    + simpl. congruence.
    + simpl. rewrite Hcells. by rewrite decide_True.
    + intros [r c] Hrc. simpl. rewrite Hcells. rewrite decide_False; [done|].
      intros [-> ->]. done.
  - apply filter_length_same. intros [r c] _. simpl. rewrite Hcells.
    case_decide as Hd; [|done]. destruct Hd as [-> ->]. split; congruence.
Qed.

Lemma discs_zeroBoard p : p ≠ Empty → discs zeroBoard p = 0%nat.
Proof.
  intros Hp. unfold discs.
  rewrite (filter_length_same (λ _, False) (λ rc, cell zeroBoard rc.1 rc.2 = p)).
  - induction all_cells as [|a l IH]; [done|]. by rewrite list.filter_cons.
  - intros [r c] _. simpl. rewrite cell_zeroBoard. split; [done|congruence].
Qed.

(** X10: the players alternate.  In every reachable store, on the board of
    every match the first participant has as many discs as the second or one
    more; and while the match is in progress the turn is the first
    participant's exactly when the two have equally many discs. *)
Theorem reachable_matches_alternate w g :
  reachable w →
  let G := gameStore w g in
  let n1 := discs (Game.Board G) Player1 in
  let n2 := discs (Game.Board G) Player2 in
  (n1 = n2 ∨ n1 = S n2) ∧
  (Game.Status G = "playing" →
   (Game.CurrentPlayer G = Player1 ∧ n1 = n2) ∨
   (Game.CurrentPlayer G = Player2 ∧ n1 = S n2)).
Proof.
  intros Hw. revert g.
  apply (game_invariant (λ G,
    (discs (Game.Board G) Player1 = discs (Game.Board G) Player2 ∨
     discs (Game.Board G) Player1 = S (discs (Game.Board G) Player2)) ∧
    (Game.Status G = "playing" →
     (Game.CurrentPlayer G = Player1 ∧
      discs (Game.Board G) Player1 = discs (Game.Board G) Player2) ∨
     (Game.CurrentPlayer G = Player2 ∧
      discs (Game.Board G) Player1 = S (discs (Game.Board G) Player2))))); [..|done].
  - intros id p1 p2. cbn. rewrite !discs_zeroBoard by done. auto.
  - intros id p1. cbn. rewrite !discs_zeroBoard by done. auto.
  - intros G G' fin Hwf Hs [_ Hturn] Hstep. specialize (Hturn Hs).
    apply match_step_cases in Hstep
      as [(col & row & b' & Hmv & HG')|(winner & Hwinner & ->)].
    + assert (Game.CurrentPlayer G ≠ Empty) as Hne
        by (unfold Player1, Player2, Empty in *; lia).
      pose proof (discs_makeMove _ _ _ _ _ Player1 Hwf Hmv Hne ltac:(done)) as H1.
      pose proof (discs_makeMove _ _ _ _ _ Player2 Hwf Hmv Hne ltac:(done)) as H2.
      assert (Game.Board G' = b' ∧
              (Game.Status G' = "playing" →
               Game.CurrentPlayer G' = 3 - Game.CurrentPlayer G)) as [Hb' Hcur'].
      { destruct HG' as [->|[->| ->]]; cbn; split; done. }
      rewrite Hb'. rewrite H1, H2. clear H1 H2 Hmv HG' Hb'.
      destruct Hturn as [[Hc E]|[Hc E]]; rewrite Hc in Hcur'; rewrite Hc;
        unfold Player1, Player2 in *; repeat case_decide; try lia;
        (split; [lia|]); intros Hs'; specialize (Hcur' Hs'); lia.
    + cbn. split; [destruct Hturn as [[_ ?]|[_ ?]]; auto|]. done.
Qed.

(** X11: the match table holds the matches in progress.  In every reachable
    store, an entry of the match table leads to an allocated match object
    whose id is the key of the entry and whose status is "playing". *)
Theorem match_table_holds_only_matches_in_progress w id g :
  reachable w → games w !! id = Some g →
  (g < nextGame w)%nat ∧ Game.ID (gameStore w g) = id ∧
  Game.Status (gameStore w g) = "playing".
Proof.
  intros Hw. revert id g. induction Hw as [|w e w' Hr IH _ Hrun]; intros id g.
  { unfold NewGameManager. cbn. by rewrite lookup_empty. }
  pose proof (run_effect e w) as H. rewrite Hrun in H.
  cbn [world_of] in H.
  destruct H as [(E1 & E2 & E3)|G HG [H1 H2 H3 H4]|g0 G' fin Hs Hst [H1 H2 H3 H4]].
  - rewrite E1, E2, E3. apply IH.
  - rewrite H3, H4. destruct (decide (id = Game.ID G)) as [->|Hne].
    + rewrite lookup_insert_eq. intros [= <-]. rewrite H1.
      split; [lia|]. split; [done|].
      by destruct HG as [(? & ? & ? & ->)|(? & ? & ->)].
    + rewrite lookup_insert_ne by done. intros Hin.
      destruct (IH _ _ Hin) as (Hlt & Hid & Hst). rewrite H2 by lia. split; [lia|done].
  - rewrite H4. intros Hin.
    assert (games w !! id = Some g ∧ (fin = true → id ≠ Game.ID (gameStore w g0)))
      as [Hin0 Hid0].
    { rewrite H3 in Hin. destruct fin; [|done].
      apply lookup_delete_Some in Hin as [? ?]. done. }
    destruct (IH _ _ Hin0) as (Hlt & Hid & Hst'). split; [done|].
    destruct (decide (g = g0)) as [->|Hne]; [|by rewrite H2].
    rewrite H1. clear H1 H3 Hin.
    destruct Hst as [col row b' _ _ _|col row b' _ _|col row b' _ _ _|winner _].
    + done.
    + by destruct Hid0.
    + by destruct Hid0.
    + by destruct Hid0.
Qed.

(* --------------------------------------------------------------------- *)
(* Matches never go back                                                 *)
(* --------------------------------------------------------------------- *)

Lemma game_effect_nextGame w w' : game_effect w w' → (nextGame w ≤ nextGame w')%nat.
Proof.
  intros [(_ & _ & E)|G _ [_ _ _ E]|g G' fin _ _ [_ _ _ E]]; rewrite E; lia.
Qed.

(* A relation between stores that every event respects is respected by
   every run of events. *)
Lemma run_all_closure (R : World → World → Prop) (I : World → Prop) :
  (∀ w, R w w) → (∀ w1 w2 w3, R w1 w2 → R w2 w3 → R w1 w3) →
  (∀ e, preserves I (run e)) → (∀ e w, I w → R w (world_of (run e w))) →
  ∀ es w, I w → R w (world_of (run_all es w)).
Proof.
  intros Hrefl Htrans HI Hstep es. induction es as [|e es IH]; intros w Hw.
  { apply Hrefl. }
  cbn [run_all]. unfold bind. pose proof (Hstep e w Hw) as H1.
  pose proof (HI e w Hw) as H2.
  destruct (run e w) as [[] w1|r w1|w1]; cbn [world_of] in *; [|done..].
  by apply (Htrans w w1), IH.
Qed.

(** X12: a finished match is final.  Once the status of an allocated match
    is no longer "playing", no run of events, of whatever kind and length,
    changes the match object again: board, turn, status and winner stay as
    they are. *)
Theorem finished_match_is_final w g es :
  (g < nextGame w)%nat → Game.Status (gameStore w g) ≠ "playing" →
  gameStore (world_of (run_all es w)) g = gameStore w g.
Proof.
  intros Hg Hs.
  pose (R := λ w w' : World, (nextGame w ≤ nextGame w')%nat ∧
          ∀ g, (g < nextGame w)%nat → Game.Status (gameStore w g) ≠ "playing" →
               gameStore w' g = gameStore w g).
  assert (R w (world_of (run_all es w))) as [_ H]; [|by apply H].
  apply (run_all_closure R (λ _, True)); [..|done].
  - intros w0. by split.
  - intros w1 w2 w3 [Hn1 H1] [Hn2 H2]. split; [lia|]. intros g0 Hg0 Hs0.
    rewrite H2; [by apply H1|lia|]. by rewrite H1.
  - by intros e w0 _.
  - intros e w0 _. pose proof (run_effect e w0) as Heff.
    split; [by apply game_effect_nextGame|]. intros g0 Hg0 Hs0.
    destruct Heff as [(E & _ & _)|G _ [_ H _ _]|g1 G' fin Hs1 _ [_ H _ _]].
    + by rewrite E.
    + apply H. lia.
    + apply H. intros ->. done.
Qed.

(** X13: who plays a match, and the discs on its board, are permanent.  From
    a reachable store on, no run of events changes the id of an allocated
    match, its two participants or whether it is a bot match, and a cell of
    its board that holds a disc holds that disc for ever. *)
Theorem match_identity_and_discs_are_permanent w g es :
  reachable w → (g < nextGame w)%nat →
  let G := gameStore w g in
  let G' := gameStore (world_of (run_all es w)) g in
  Game.ID G' = Game.ID G ∧ Game.Player1 G' = Game.Player1 G ∧
  Game.Player2 G' = Game.Player2 G ∧ Game.IsBot G' = Game.IsBot G ∧
  ∀ r c, cell (Game.Board G) r c ≠ Empty →
         cell (Game.Board G') r c = cell (Game.Board G) r c.
Proof.
  intros Hw Hg.
  pose (Q := λ G G' : Game.t,
          Game.ID G' = Game.ID G ∧ Game.Player1 G' = Game.Player1 G ∧
          Game.Player2 G' = Game.Player2 G ∧ Game.IsBot G' = Game.IsBot G ∧
          ∀ r c, cell (Game.Board G) r c ≠ Empty →
                 cell (Game.Board G') r c = cell (Game.Board G) r c).
  pose (R := λ w w' : World, (nextGame w ≤ nextGame w')%nat ∧
          ∀ g, (g < nextGame w)%nat → Q (gameStore w g) (gameStore w' g)).
  assert (∀ G, Q G G) as Qrefl by (intros G; unfold Q; auto).
  assert (R w (world_of (run_all es w))) as [_ H]; [|by apply H].
  apply (run_all_closure R inv); [..|by apply reachable_inv].
  - intros w0. split; [done|]. intros g0 _. apply Qrefl.
  - intros w1 w2 w3 [Hn1 H1] [Hn2 H2]. split; [lia|]. intros g0 Hg0.
    destruct (H1 g0 Hg0) as (a1 & a2 & a3 & a4 & a5).
    destruct (H2 g0 ltac:(lia)) as (b1 & b2 & b3 & b4 & b5).
    unfold Q. split; [congruence|]. split; [congruence|]. split; [congruence|].
    split; [congruence|]. intros r c Hrc. rewrite b5; [by apply a5|].
    by rewrite a5.
  - apply pres_inv_run.
  - intros e w0 [Hboards _].
    pose proof (run_effect e w0) as Heff.
    split; [by apply game_effect_nextGame|]. intros g0 Hg0.
    destruct Heff as [(E & _ & _)|G _ [_ H _ _]|g1 G' fin Hs1 Hst [H1 H _ _]].
    + rewrite E. apply Qrefl.
    + rewrite H by lia. apply Qrefl.
    + destruct (decide (g0 = g1)) as [->|Hne]; [|rewrite H by done; apply Qrefl].
      rewrite H1. destruct (Hboards g1) as [Hwf _].
      apply match_step_cases in Hst
        as [(col & row & b' & Hmv & HG')|(winner & _ & ->)];
        [|unfold Q; cbn; auto 10].
      assert (Q (gameStore w0 g1) (Game.set_Board b' (gameStore w0 g1))) as HQ.
      { unfold Q. cbn. repeat split; try done. intros r c Hrc.
        rewrite (makeMove_cells _ _ _ _ _ Hwf Hmv). rewrite decide_False; [done|].
        intros [-> ->]. apply makeMove_Placed in Hmv as (_ & _ & He & _). done. }
      by destruct HG' as [->|[->| ->]].
Qed.

(* --------------------------------------------------------------------- *)
(* Match: broadcasts and accepted moves                                  *)
(* --------------------------------------------------------------------- *)

Lemma SendMessage_closed w p msgType data :
  ¬ connected w p → SendMessage p msgType data w = Panic "send on closed channel" w.
Proof.
  unfold connected. intros Hc. unfold SendMessage, bind, getPlayer.
  by destruct (closed (Player.Send (playerStore w p))).
Qed.

Lemma SendMessage_outbox w p msgType data w' :
  SendMessage p msgType data w = Ok tt w' →
  connected w p ∧ only_sends w w' ∧
  (∀ q, connected w q → connected w' q) ∧
  ∀ q, outbox w' q = outbox w q ++ if decide (q = p) then [mkFrame msgType data] else [].
Proof.
  intros H. destruct (closed (Player.Send (playerStore w p))) eqn:Hc.
  { rewrite SendMessage_closed in H by (unfold connected; congruence). discriminate. }
  change (connected w p) in Hc.
  destruct (SendMessage_connected w p msgType data Hc) as (w1 & E & Hos & Hout & Hc1 & Hoth).
  assert (w1 = w') as -> by congruence. split; [done|]. split; [done|]. split.
  - intros q Hq. destruct (decide (q = p)) as [->|Hne]; [done|].
    unfold connected. by rewrite Hoth.
  - intros q. destruct (decide (q = p)) as [->|Hne]; [done|].
    unfold outbox. rewrite Hoth by done. by rewrite app_nil_r.
Qed.

(* What a broadcast does, queue by queue. *)
Lemma BroadcastState_outcomes g w :
  let G := gameStore w g in
  let frame state := mkFrame "game_update" (StateData state) in
  ∃ state, CreateState g w = Ok state w ∧
    only_sends w (world_of (BroadcastState g w)) ∧
    (¬ connected w (Game.Player1 G) →
     BroadcastState g w = Panic "send on closed channel" w) ∧
    (connected w (Game.Player1 G) →
     match humanPlayer2 G with
     | None =>
         ∃ w', BroadcastState g w = Ok tt w' ∧
           ∀ p, outbox w' p = outbox w p ++
                  if decide (p = Game.Player1 G) then [frame state] else []
     | Some p2 =>
         (connected w p2 →
          ∃ w', BroadcastState g w = Ok tt w' ∧
            ∀ p, outbox w' p = outbox w p ++
                   (if decide (p = Game.Player1 G) then [frame state] else []) ++
                   (if decide (p = p2) then [frame state] else [])) ∧
         (¬ connected w p2 →
          ∃ w', BroadcastState g w = Panic "send on closed channel" w' ∧
            ∀ p, outbox w' p = outbox w p ++
                   if decide (p = Game.Player1 G) then [frame state] else [])
     end).
Proof.
  intros G frame. eexists. split; [reflexivity|].
  split; [apply BroadcastState_only_sends, only_sends_refl|].
  unfold BroadcastState. do 2 (erewrite bind_Ok by reflexivity). fold G.
  split.
  { intros Hc. unfold bind. by rewrite SendMessage_closed. }
  intros Hc1.
  match goal with |- context [SendMessage _ _ (StateData ?s)] => set (state := s) end.
  destruct (SendMessage_connected w _ "game_update" (StateData state) Hc1)
    as (w1 & E1 & _ & _ & _ & Hoth1).
  destruct (SendMessage_outbox _ _ _ _ _ E1) as (_ & _ & Hconn1 & Hout1).
  rewrite (bind_Ok _ _ _ _ _ E1).
  destruct (humanPlayer2 G) as [p2|].
  2:{ exists w1. split; [done|]. exact Hout1. }
  split.
  - intros Hc2. apply Hconn1 in Hc2.
    destruct (SendMessage_connected w1 p2 "game_update" (StateData state) Hc2)
      as (w2 & E2 & _).
    exists w2. split; [done|]. intros p.
    destruct (SendMessage_outbox _ _ _ _ _ E2) as (_ & _ & _ & Hout2).
    rewrite Hout2, Hout1. by rewrite <- app_assoc.
  - intros Hc2. exists w1. split; [|exact Hout1].
    apply SendMessage_closed. intros Hc. apply Hc2.
    destruct (decide (p2 = Game.Player1 G)) as [->|Hne]; [done|].
    unfold connected in *. by rewrite <- Hoth1.
Qed.

(** X14: what a broadcast does.  BroadcastState sends one and the same
    snapshot of the match, as CreateState builds it, to the first participant
    and then, in a match between two connections, to the second.  A send on a
    queue that has been closed panics: if the first participant's queue is
    closed nothing is sent at all, and if only the second one's is closed the
    first participant has been served when the panic is raised.  Nothing but
    the queues changes. *)
Theorem broadcast_serves_first_participant_first g w :
  let G := gameStore w g in
  let frame state := mkFrame "game_update" (StateData state) in
  ∃ state, CreateState g w = Ok state w ∧
    only_sends w (world_of (BroadcastState g w)) ∧
    (¬ connected w (Game.Player1 G) →
     BroadcastState g w = Panic "send on closed channel" w) ∧
    (connected w (Game.Player1 G) →
     match humanPlayer2 G with
     | None =>
         ∃ w', BroadcastState g w = Ok tt w' ∧
           ∀ p, outbox w' p = outbox w p ++
                  if decide (p = Game.Player1 G) then [frame state] else []
     | Some p2 =>
         (connected w p2 →
          ∃ w', BroadcastState g w = Ok tt w' ∧
            ∀ p, outbox w' p = outbox w p ++
                   (if decide (p = Game.Player1 G) then [frame state] else []) ++
                   (if decide (p = p2) then [frame state] else [])) ∧
         (¬ connected w p2 →
          ∃ w', BroadcastState g w = Panic "send on closed channel" w' ∧
            ∀ p, outbox w' p = outbox w p ++
                   if decide (p = Game.Player1 G) then [frame state] else [])
     end).
Proof. apply BroadcastState_outcomes. Qed.

(* An accepted move that ends nothing: HandleMove up to the broadcast. *)
Lemma HandleMove_continue g player col w n row b' :
  Game.Status (gameStore w g) = "playing" →
  moverNum (gameStore w g) player = Some n →
  n = Game.CurrentPlayer (gameStore w g) →
  makeMove (Game.Board (gameStore w g)) col n = Placed row b' →
  checkWin b' row col n = false → checkDraw b' = false →
  HandleMove g player col w =
  (BroadcastState g ;;
   if Game.IsBot (gameStore w g) &&
      bool_decide (3 - Game.CurrentPlayer (gameStore w g) = Player2)
   then go (BotMakeMove g) else skip)
    (mkWorld (players w) (games w) (waitingPlayer w) (PrivateRooms w) (playerStore w)
       (alter (Game.set_CurrentPlayer (3 - Game.CurrentPlayer (gameStore w g))) g
          (alter (Game.set_Board b') g (gameStore w)))
       (nextGame w) (timers w)
       (spawned w ++
          [ProduceEvent "move_made"
             [("gameId", EvStr (Game.ID (gameStore w g)));
              ("player", EvStr (getPlayerName w (gameStore w g) player));
              ("column", EvInt col); ("row", EvInt row)]])
       (connClosed w)).
Proof.
  intros Hs Hm Hn Hmv Hwin Hdraw.
  rewrite (HandleMove_placed _ _ _ _ _ _ _ Hs Hm Hn Hmv).
  erewrite bind_Ok by reflexivity. unfold afterPlaced.
  do 2 erewrite bind_Ok by reflexivity. rewrite Hwin, Hdraw.
  erewrite bind_Ok by reflexivity. reflexivity.
Qed.

Lemma filter_SaveGame_app g sp t :
  t ≠ SaveGame g →
  length (filter (λ t, t = SaveGame g) (sp ++ [t])) =
  length (filter (λ t, t = SaveGame g) sp).
Proof.
  intros Ht. rewrite list.filter_app, length_app, list.filter_cons, list.filter_nil.
  rewrite decide_False by done. simpl. lia.
Qed.

(* The broadcast and the bot trigger that close an accepted move. *)
Lemma broadcast_then_trigger g t (c : bool) w4 :
  let m := (BroadcastState g ;; if c then go t else skip) in
  same_matches w4 (world_of (m w4)) ∧ timers (world_of (m w4)) = timers w4 ∧
  (spawned (world_of (m w4)) = spawned w4 ∨ spawned (world_of (m w4)) = spawned w4 ++ [t]) ∧
  (∀ w', m w4 = Ok tt w' → spawned w' = spawned w4 ++ if c then [t] else []).
Proof.
  intros m. subst m. pose proof (BroadcastState_only_sends w4 g w4 (only_sends_refl _)) as H.
  unfold bind. destruct (BroadcastState g w4) as [[] w5|r w5|w5]; cbn [world_of] in *.
  - destruct H as [_ Hg _ _ Hgs Hn Ht Hsp _ _ _ _]. destruct c; cbn; unfold same_matches; fields.
    + rewrite Hgs, Hg, Hn, Ht, Hsp. split; [by split|]. split; [done|]. split; [by right|].
      intros w' [= <-]. cbn. by rewrite Hsp.
    + rewrite Hgs, Hg, Hn, Ht, Hsp. split; [by split|]. split; [done|]. split; [by left|].
      intros w' [= <-]. by rewrite app_nil_r.
  - destruct H as [_ Hg _ _ Hgs Hn Ht Hsp _ _ _ _].
    split; [by split|]. split; [done|]. split; [by left|]. intros w' [=].
  - destruct H as [_ Hg _ _ Hgs Hn Ht Hsp _ _ _ _].
    split; [by split|]. split; [done|]. split; [by left|]. intros w' [=].
Qed.

(** X15: an accepted move that neither wins nor fills the top row passes
    the turn.  On an in-progress match, when the player whose turn it is
    drops a disc that makeMove accepts and neither checkWin nor checkDraw
    fires, HandleMove stores the new board, gives the turn to the other
    player (3 minus the mover), leaves status, winner, the match table, the
    timers and every other match as they were, and finishes nothing.  If the
    handler returns, the bot has been started exactly when the match is a bot
    match and the mover was the first participant. *)
Theorem accepted_move_passes_the_turn w g player col n row b' :
  Game.Status (gameStore w g) = "playing" →
  moverNum (gameStore w g) player = Some n →
  n = Game.CurrentPlayer (gameStore w g) →
  makeMove (Game.Board (gameStore w g)) col n = Placed row b' →
  checkWin b' row col n = false → checkDraw b' = false →
  ∀ w', w' = world_of (HandleMove g player col w) →
    gameStore w' g =
      Game.set_CurrentPlayer (3 - n) (Game.set_Board b' (gameStore w g)) ∧
    (∀ g', g' ≠ g → gameStore w' g' = gameStore w g') ∧
    games w' = games w ∧ timers w' = timers w ∧ nextGame w' = nextGame w ∧
    finishes g w' = finishes g w ∧
    (HandleMove g player col w = Ok tt w' →
     ∃ event,
       spawned w' = spawned w ++ [ProduceEvent "move_made" event] ++
         if Game.IsBot (gameStore w g) && bool_decide (n = Player1)
         then [BotMakeMove g] else []).
Proof.
  intros Hs Hm Hn Hmv Hwin Hdraw w' ->.
  rewrite (HandleMove_continue _ _ _ _ _ _ _ Hs Hm Hn Hmv Hwin Hdraw). subst n.
  match goal with |- context [world_of (_ ?W)] => set (w4 := W) end.
  destruct (broadcast_then_trigger g (BotMakeMove g)
              (Game.IsBot (gameStore w g) &&
               bool_decide (3 - Game.CurrentPlayer (gameStore w g) = Player2)) w4)
    as ((Hgs & Hg & Hnx) & Ht & Hsp & Hok).
  rewrite Hgs, Hg, Hnx, Ht. subst w4. fields.
  split; [by rewrite !fn_lookup_alter|].
  split; [by intros g' Hg'; rewrite !fn_lookup_alter_ne|].
  split; [done|]. split; [done|]. split; [done|]. split.
  - unfold finishes. destruct Hsp as [->| ->]; fields.
    + by rewrite filter_SaveGame_app.
    + by rewrite !filter_SaveGame_app.
  - intros HOk. eexists. rewrite (Hok _ HOk). fields. rewrite <- app_assoc.
    f_equal. f_equal.
    assert (bool_decide (3 - Game.CurrentPlayer (gameStore w g) = Player2) =
            bool_decide (Game.CurrentPlayer (gameStore w g) = Player1)) as ->; [|done].
    apply bool_decide_ext. unfold Player1, Player2. lia.
Qed.

(** X16: a column outside the board is refused.  On an in-progress match, a
    move of the participant whose turn it is on a column below 0 or above
    Cols - 1 makes HandleMove do nothing but send that participant the error
    "Invalid column": nothing but the participant's queue changes. *)
Theorem out_of_range_column_is_rejected w g p col n :
  Game.Status (gameStore w g) = "playing" →
  moverNum (gameStore w g) (Some p) = Some n →
  n = Game.CurrentPlayer (gameStore w g) →
  ¬ 0 ≤ col < Cols →
  HandleMove g (Some p) col w = SendError p "Invalid column" w ∧
  only_sends w (world_of (HandleMove g (Some p) col w)) ∧
  (connected w p →
   ∃ w', HandleMove g (Some p) col w = Ok tt w' ∧
         outbox w' p = outbox w p ++ [errorFrame "Invalid column"]).
Proof.
  intros Hs Hm Hn Hcol.
  rewrite (HandleMove_move_error _ _ _ _ _ _ _ Hs Hm Hn
             (makeMove_invalid_column _ _ _ Hcol)).
  split; [done|]. apply sendError_outcome.
Qed.

(** X17: a move from a connection that plays no part in the match is
    dropped.  On an in-progress match, HandleMove called for a connection
    that is neither the first participant nor, in a match between two
    connections, the second returns without a reply and without any change
    to the store. *)
Theorem move_from_stranger_is_dropped w g p col :
  Game.Status (gameStore w g) = "playing" →
  p ≠ Game.Player1 (gameStore w g) →
  Game.IsBot (gameStore w g) = true ∨ Game.Player2 (gameStore w g) ≠ Some p →
  HandleMove g (Some p) col w = Ok tt w.
Proof.
  intros Hs H1 H2. unfold HandleMove. erewrite bind_Ok by reflexivity.
  rewrite decide_False by (by intros []).
  assert (moverNum (gameStore w g) (Some p) = None) as ->; [|done].
  unfold moverNum. rewrite decide_False by congruence.
  destruct H2 as [->|H2]; [done|].
  rewrite (bool_decide_eq_false_2 (Some p = _)) by congruence.
  by rewrite andb_false_r.
Qed.

(** X18: with the first participant's queue closed, every handler that
    broadcasts ends in a panic.  On an in-progress match whose first
    participant's queue has been closed (as a disconnect leaves it), an
    accepted move is still stored on the board and the forfeit timer still
    finishes the match, but the broadcast that follows panics on the first
    send, so no participant is told: no queue receives a frame. *)
Theorem closed_queue_makes_broadcasting_handlers_panic w g :
  Game.Status (gameStore w g) = "playing" →
  ¬ connected w (Game.Player1 (gameStore w g)) →
  (∀ player col n row b',
     moverNum (gameStore w g) player = Some n →
     n = Game.CurrentPlayer (gameStore w g) →
     makeMove (Game.Board (gameStore w g)) col n = Placed row b' →
     ∃ w', HandleMove g player col w = Panic "send on closed channel" w' ∧
           Game.Board (gameStore w' g) = b' ∧ ∀ p, outbox w' p = outbox w p) ∧
  (∀ player,
     ∃ w', reconnectTimerExpired g player w = Panic "send on closed channel" w' ∧
           Game.Status (gameStore w' g) = "finished" ∧ ∀ p, outbox w' p = outbox w p).
Proof.
  intros Hs Hclosed.
  assert (∀ winner w1,
    Game.Player1 (gameStore w1 g) = Game.Player1 (gameStore w g) →
    (∀ p, Player.Send (playerStore w1 p) = Player.Send (playerStore w p)) →
    ∃ w', (endGame g winner ;; BroadcastState g) w1 = Panic "send on closed channel" w' ∧
          gameStore w' g =
            Game.set_Winner winner (Game.set_Status "finished" (gameStore w1 g)) ∧
          ∀ p, outbox w' p = outbox w p) as Hend.
  { intros winner w1 Hp1 Hsend.
    destruct (endGame_spec g winner w1)
      as (w2 & Heq & Hg & _ & _ & _ & _ & _ & _ & _ & _ & _ & Hsend2 & _).
    exists w2. rewrite (bind_Ok _ _ _ _ _ Heq).
    destruct (BroadcastState_outcomes g w2) as (state & _ & _ & Hp & _).
    rewrite Hp.
    - split; [done|]. split; [done|]. intros p. unfold outbox. by rewrite Hsend2, Hsend.
    - rewrite Hg. cbn. rewrite Hp1. unfold connected. by rewrite Hsend2, Hsend. }
  split.
  - intros player col n row b' Hm Hn Hmv.
    destruct (checkWin b' row col n) eqn:Hwin; [|destruct (checkDraw b') eqn:Hdraw].
    + rewrite (HandleMove_placed _ _ _ _ _ _ _ Hs Hm Hn Hmv).
      erewrite bind_Ok by reflexivity. unfold afterPlaced.
      do 2 erewrite bind_Ok by reflexivity. rewrite Hwin.
      match goal with |- context [_ ?W = Panic _ _] => set (w1 := W) end.
      destruct (Hend n w1) as (w' & E & Hg & Hout).
      * subst w1. fields. by rewrite fn_lookup_alter.
      * done.
      * exists w'. split; [done|]. split; [|done]. rewrite Hg. subst w1. fields.
        by rewrite fn_lookup_alter.
    + rewrite (HandleMove_placed _ _ _ _ _ _ _ Hs Hm Hn Hmv).
      erewrite bind_Ok by reflexivity. unfold afterPlaced.
      do 2 erewrite bind_Ok by reflexivity. rewrite Hwin, Hdraw.
      match goal with |- context [_ ?W = Panic _ _] => set (w1 := W) end.
      destruct (Hend Empty w1) as (w' & E & Hg & Hout).
      * subst w1. fields. by rewrite fn_lookup_alter.
      * done.
      * exists w'. split; [done|]. split; [|done]. rewrite Hg. subst w1. fields.
        by rewrite fn_lookup_alter.
    + rewrite (HandleMove_continue _ _ _ _ _ _ _ Hs Hm Hn Hmv Hwin Hdraw).
      match goal with |- context [_ ?W = Panic _ _] => set (w1 := W) end.
      destruct (BroadcastState_outcomes g w1) as (state & _ & _ & Hp & _).
      exists w1. unfold bind. rewrite Hp.
      * split; [done|]. split; [|done]. subst w1. fields. by rewrite !fn_lookup_alter.
      * subst w1. fields. by rewrite !fn_lookup_alter.
  - intros player. unfold reconnectTimerExpired. erewrite bind_Ok by reflexivity.
    rewrite decide_False by (by intros []).
    match goal with |- context [endGame g ?W] => destruct (Hend W w) as (w' & E & Hg & Hout) end;
      [done..|].
    exists w'. split; [done|]. split; [by rewrite Hg|done].
Qed.

(* --------------------------------------------------------------------- *)
(* Bot: termination, and the move as the match takes it                  *)
(* --------------------------------------------------------------------- *)

(** X19: when findBestMove returns.  On a board whose top row is full it
    never returns: no column is open, and the random fallback draws for
    ever.  On any other well-formed board that obeys gravity it returns as
    soon as one of the draws allowed to the fallback names an open column
    (and without any draw when one of the first three phases finds a
    column). *)
Theorem bot_returns_unless_the_board_is_full b botPlayer humanPlayer rnd k attempts :
  board_wf b → gravity b →
  (top_row_full b → findBestMove b botPlayer humanPlayer rnd k attempts = None) ∧
  (∀ i, (i < attempts)%nat →
     isValidMove b (Z.of_nat (rnd (k + i)%nat mod Z.to_nat Cols)) = true →
     is_Some (findBestMove b botPlayer humanPlayer rnd k attempts)).
Proof.
  intros Hwf Hg.
  pose proof (findBestMove_phases b botPlayer humanPlayer rnd k attempts Hwf Hg) as H.
  split.
  - intros Hfull.
    assert (∀ c, 0 ≤ c < Cols → isValidMove b c = false) as Hclosed.
    { intros c Hc. unfold isValidMove. by apply Z.eqb_neq, Hfull. }
    destruct H as [(c0 & _ & Hc & Hw%winsAt_valid & _)|
                   [_ [(c0 & _ & Hc & Hw%winsAt_valid & _)|
                       [_ [(c0 & l1 & l2 & _ & El & Hs%openAndSafe_valid & _)|[_ ->]]]]]].
    + rewrite Hclosed in Hw; done.
    + rewrite Hclosed in Hw; done.
    + rewrite Hclosed in Hs; [done|]. apply centerCols_range. rewrite El.
      apply elem_of_app. right. apply list_elem_of_here.
    + by apply randomMove_full.
  - intros i Hi Hv.
    destruct H as [(c0 & -> & _)|[_ [(c0 & -> & _)|[_ [(c0 & l1 & l2 & -> & _)|[_ ->]]]]]];
      [by eexists..|].
    by apply (randomMove_returns attempts rnd k b i).
Qed.

Lemma moverNum_bot G :
  Game.IsBot G = true → moverNum G None = Some Player2.
Proof. intros H. unfold moverNum. rewrite H. by rewrite decide_False. Qed.

(** X20: the bot's move is never refused.  In a reachable store, on a bot
    match in progress with the turn at the bot, the column findBestMove
    returns is played by Bot.MakeMove through HandleMove and accepted there:
    the bot's disc lands in the lowest empty cell of that column; if the
    column is one where the bot wins, the match is finished with the bot as
    winner; and if the match goes on, the turn is back at the first
    participant. *)
Theorem bot_move_is_always_accepted w g o col :
  reachable w →
  Game.Status (gameStore w g) = "playing" →
  Game.IsBot (gameStore w g) = true →
  Game.CurrentPlayer (gameStore w g) = Player2 →
  findBestMove (Game.Board (gameStore w g)) Player2 Player1 (rnd o) 1 (attempts o)
    = Some col →
  let b := Game.Board (gameStore w g) in
  let row := getNextOpenRow b col in
  let w' := world_of (Bot_MakeMove g o w) in
  Bot_MakeMove g o w = HandleMove g None col w ∧
  0 ≤ col < Cols ∧ 0 ≤ row < Rows ∧ cell b row col = Empty ∧
  Game.Board (gameStore w' g) = set_cell b row col Player2 ∧
  (winsAt b Player2 col = true →
   Game.Status (gameStore w' g) = "finished" ∧ Game.Winner (gameStore w' g) = Player2) ∧
  (Game.Status (gameStore w' g) = "playing" →
   Game.CurrentPlayer (gameStore w' g) = Player1).
Proof.
  intros Hw Hs Hbot Hturn Hfind b row w'.
  destruct (reachable_inv w Hw) as [Hboards _]. destruct (Hboards g) as [Hwf Hg].
  destruct (findBestMove_open _ _ _ _ _ _ _ Hwf Hg Hfind) as [Hc Hv].
  pose proof (isValidMove_makeMove _ _ Player2 Hc Hv) as Hmv.
  fold b in Hmv, Hv. fold row in Hmv.
  destruct (isValidMove_open_row _ _ Hv) as [Hrow He]. fold row in Hrow, He.
  assert (Bot_MakeMove g o w = HandleMove g None col w) as HB.
  { unfold Bot_MakeMove. erewrite bind_Ok by reflexivity. by rewrite Hfind. }
  split; [done|]. split; [done|]. split; [done|]. split; [done|].
  pose proof (moverNum_bot _ Hbot) as Hm. symmetry in Hturn.
  subst w'. rewrite HB.
  destruct (checkWin (set_cell b row col Player2) row col Player2) eqn:Hwin;
    [|destruct (checkDraw (set_cell b row col Player2)) eqn:Hdraw].
  - rewrite (HandleMove_placed _ _ _ _ _ _ _ Hs Hm Hturn Hmv).
    destruct (placed_then_endGame g (gameStore w g) None col Player2 row
                (set_cell b row col Player2) Player2 w
                (or_introl (conj Hwin eq_refl)) _ eq_refl) as (HG & _).
    rewrite HG. cbn. split; [done|]. split; [done|]. intros [=].
  - rewrite (HandleMove_placed _ _ _ _ _ _ _ Hs Hm Hturn Hmv).
    destruct (placed_then_endGame g (gameStore w g) None col Player2 row
                (set_cell b row col Player2) Empty w
                (or_intror (conj Hwin (conj Hdraw eq_refl))) _ eq_refl) as (HG & _).
    rewrite HG. cbn. split; [done|]. split; [|intros [=]].
    unfold winsAt. fold b row. rewrite Hv, Hwin. done.
  - rewrite (HandleMove_continue _ _ _ _ _ _ _ Hs Hm Hturn Hmv Hwin Hdraw).
    match goal with |- context [world_of (_ ?W)] => set (w4 := W) end.
    destruct (broadcast_then_trigger g (BotMakeMove g)
                (Game.IsBot (gameStore w g) &&
                 bool_decide (3 - Game.CurrentPlayer (gameStore w g) = Player2)) w4)
      as ((Hgs & _) & _).
    rewrite Hgs. subst w4. fields. rewrite !fn_lookup_alter. cbn. rewrite <- Hturn.
    split; [done|]. split; [|done].
    unfold winsAt. fold b row. rewrite Hv, Hwin. done.
Qed.

(* --------------------------------------------------------------------- *)
(* Session Director: refusals, the lobby, rooms and reconnects           *)
(* --------------------------------------------------------------------- *)

(** X21: the order in which joining is refused.  handleJoin answers an
    empty username with "Username cannot be empty." and a registered one with
    "Username already taken. Try 'reconnect' if you were in a game.";
    handleJoinPrivateRoom checks, in this order, the empty username, the
    empty room code, the registered username and the unknown room code.  The
    refusal is all the handler does: an error frame on the requester's queue
    and no other change. *)
Theorem joining_is_refused_in_a_fixed_order w player username roomCode gameID :
  (username = "" ∨ is_Some (players w !! username) →
   handleJoin player username gameID w =
   SendError player
     (if decide (username = "") then "Username cannot be empty."
      else "Username already taken. Try 'reconnect' if you were in a game.") w) ∧
  (username = "" ∨ roomCode = "" ∨ is_Some (players w !! username) ∨
   PrivateRooms w !! roomCode = None →
   handleJoinPrivateRoom player username roomCode gameID w =
   SendError player
     (if decide (username = "") then "Username cannot be empty."
      else if decide (roomCode = "") then "Room code cannot be empty."
      else if decide (is_Some (players w !! username)) then "Username already taken."
      else "Invalid or expired room code.") w) ∧
  (∀ message,
     only_sends w (world_of (SendError player message w)) ∧
     (connected w player →
      ∃ w', SendError player message w = Ok tt w' ∧
            outbox w' player = outbox w player ++ [errorFrame message])).
Proof.
  split; [|split].
  - intros H. unfold handleJoin. case_decide; [done|].
    destruct H as [?|H]; [done|].
    unfold bind at 1. unfold get. cbv beta iota. by rewrite decide_True.
  - intros H. unfold handleJoinPrivateRoom. case_decide; [done|]. case_decide; [done|].
    destruct H as [?|[?|H]]; [done..|].
    unfold bind at 1. unfold get. cbv beta iota. case_decide; [done|].
    destruct H as [?|H]; [done|]. by rewrite H.
  - intros message. apply sendError_outcome.
Qed.

(** X22: a frame that cannot be routed is answered with an error.  A frame
    that does not parse gets "Invalid message format."; a frame whose type is
    none of join, move, reconnect, create_private_room, join_private_room
    gets "Unknown message type.".  Nothing but the sender's queue changes. *)
Theorem unroutable_frame_is_answered_with_an_error w player o :
  HandleMessage player Malformed o w = SendError player "Invalid message format." w ∧
  (∀ msg,
     msgType msg ∉ ["join"; "move"; "reconnect"; "create_private_room";
                    "join_private_room"] →
     HandleMessage player (Parsed msg) o w = SendError player "Unknown message type." w) ∧
  (∀ message, only_sends w (world_of (SendError player message w))).
Proof.
  split; [done|]. split.
  - intros msg Hty. unfold HandleMessage.
    repeat (case_decide as Hd;
            [exfalso; apply Hty; rewrite Hd;
             repeat first [apply list_elem_of_here | apply list_elem_of_further]
            |clear Hd]).
    done.
  - intros message. apply SendError_only_sends, only_sends_refl.
Qed.

Lemma UnregisterPlayer_waitingPlayer player order w :
  Player.Username (playerStore w player) ≠ "" →
  waitingPlayer (world_of (UnregisterPlayer player order w)) =
  if decide (waitingPlayer w = Some player) then None else waitingPlayer w.
Proof.
  intros Hu. unfold UnregisterPlayer.
  erewrite world_of_bind_Ok by reflexivity. rewrite decide_False by done.
  do 2 erewrite world_of_bind_Ok by reflexivity.
  destruct (decide (waitingPlayer w = Some player));
    erewrite world_of_bind_Ok by reflexivity;
    (apply (pres_seq_at (λ w', waitingPlayer w' = _)); [reflexivity|intros _; pres_field]).
Qed.

Lemma keeps_UnregisterPlayer player order : keeps_matches (UnregisterPlayer player order).
Proof. keeps. Qed.

Lemma handleJoin_waits w player username gameID :
  username ≠ "" → players w !! username = None → waitingPlayer w = None →
  waitingPlayer (world_of (handleJoin player username gameID w)) = Some player.
Proof.
  intros Hu Hfree Hwait. unfold handleJoin. rewrite decide_False by done.
  erewrite world_of_bind_Ok by reflexivity.
  rewrite decide_False by (rewrite Hfree; by intros [? [=]]).
  do 2 erewrite world_of_bind_Ok by reflexivity. rewrite Hwait.
  erewrite world_of_bind_Ok by reflexivity.
  match goal with |- waitingPlayer (world_of (?m ?W)) = _ =>
    assert (preserves (λ w', waitingPlayer w' = Some player) m) as Hp by pres_field;
    apply Hp
  end.
  reflexivity.
Qed.

(** X23: leaving the lobby.  The disconnect of a connection that never
    joined (its username is empty) changes nothing at all; its queue is not
    even closed.  The disconnect of the waiting player deletes that identity,
    empties the waiting slot and touches no match; so the matchmaking timer
    armed for the departed player later finds the slot changed and does
    nothing, and the next joiner becomes the waiting player instead of being
    paired with the departed one. *)
Theorem leaving_the_lobby w player order :
  (Player.Username (playerStore w player) = "" →
   UnregisterPlayer player order w = Ok tt w) ∧
  (Player.Username (playerStore w player) ≠ "" → waitingPlayer w = Some player →
   let w1 := world_of (UnregisterPlayer player order w) in
   waitingPlayer w1 = None ∧
   players w1 = delete (Player.Username (playerStore w player)) (players w) ∧
   same_matches w w1 ∧
   (∀ gameID, startBotGame player gameID w1 = Ok tt w1) ∧
   (∀ other username gameID,
      username ≠ "" → players w1 !! username = None →
      waitingPlayer (world_of (handleJoin other username gameID w1)) = Some other)).
Proof.
  split.
  - intros Hu. unfold UnregisterPlayer. erewrite bind_Ok by reflexivity.
    by rewrite decide_True.
  - intros Hu Hwait w1.
    assert (waitingPlayer w1 = None) as Hw1.
    { unfold w1. rewrite UnregisterPlayer_waitingPlayer by done. by rewrite decide_True. }
    split; [done|]. split; [by apply UnregisterPlayer_players|].
    split; [apply keeps_UnregisterPlayer|]. split.
    + intros gameID. apply startBotGame_stale. by rewrite Hw1.
    + intros other username gameID Hn Hfree. by apply handleJoin_waits.
Qed.

(** X24: the expiry timer of a private room acts only on a room that is still
    open and still the host's.  If the code is no longer in the registry (the
    room was joined or removed) or is mapped to another connection, the
    callback returns with the store untouched.  Otherwise it removes the
    code, touches no match, and tells the host that the room has expired. *)
Theorem room_timer_expires_open_rooms_only w roomCode player :
  (PrivateRooms w !! roomCode ≠ Some player →
   roomTimerExpired roomCode player w = Ok tt w) ∧
  (PrivateRooms w !! roomCode = Some player →
   let w' := world_of (roomTimerExpired roomCode player w) in
   PrivateRooms w' = delete roomCode (PrivateRooms w) ∧
   players w' = players w ∧ same_matches w w' ∧
   (connected w player →
    roomTimerExpired roomCode player w = Ok tt w' ∧
    outbox w' player = outbox w player ++
      [mkFrame "private_room_expired"
         (MessageData "No one joined your room. It has expired.")])).
Proof.
  split.
  - intros H. unfold roomTimerExpired. erewrite bind_Ok by reflexivity.
    destruct (PrivateRooms w !! roomCode) as [roomPlayer|]; [|done].
    rewrite decide_False; [done|]. congruence.
  - intros H w'.
    destruct (roomTimerExpired_unclaimed w roomCode player w' H eq_refl) as [Hr Hc].
    split; [done|]. split; [|split; [|done]].
    + assert (preserves (λ w', players w' = players w) (roomTimerExpired roomCode player))
        as Hp by (unfold roomTimerExpired; pres_field).
      by apply Hp.
    + assert (keeps_matches (roomTimerExpired roomCode player)) as Hk by keeps.
      apply Hk.
Qed.

(* The forfeit and the broadcast after it, when a participant's queue is
   closed. *)
Lemma endGame_broadcast_closed g winner w1 p :
  p = Game.Player1 (gameStore w1 g) ∨ humanPlayer2 (gameStore w1 g) = Some p →
  ¬ connected w1 p →
  ∃ w', (endGame g winner ;; BroadcastState g) w1 = Panic "send on closed channel" w' ∧
        gameStore w' g =
          Game.set_Winner winner (Game.set_Status "finished" (gameStore w1 g)) ∧
        games w' = delete (Game.ID (gameStore w1 g)) (games w1).
Proof.
  intros Hpart Hclosed.
  destruct (endGame_spec g winner w1)
    as (w2 & Heq & Hg & _ & _ & _ & Hgames & _ & _ & _ & _ & _ & Hsend & _).
  rewrite (bind_Ok _ _ _ _ _ Heq).
  assert (∀ q, connected w2 q ↔ connected w1 q) as Hconn
    by (intros q; unfold connected; by rewrite Hsend).
  destruct (BroadcastState_outcomes g w2) as (state & _ & Hos & Hp1 & Hp2).
  assert (Game.Player1 (gameStore w2 g) = Game.Player1 (gameStore w1 g)) as HP1
    by (by rewrite Hg).
  assert (humanPlayer2 (gameStore w2 g) = humanPlayer2 (gameStore w1 g)) as HH2
    by (by rewrite Hg).
  cbv zeta in Hp1, Hp2. rewrite HP1 in Hp1, Hp2. rewrite HH2 in Hp2.
  destruct (closed (Player.Send (playerStore w2 (Game.Player1 (gameStore w1 g))))) eqn:Hc.
  - exists w2. rewrite Hp1; [done|]. unfold connected. congruence.
  - specialize (Hp2 Hc). destruct Hpart as [->|Hp].
    { destruct Hclosed. by apply Hconn. }
    rewrite Hp in Hp2. destruct Hp2 as [_ Hp2].
    destruct Hp2 as (w' & E & _); [by rewrite Hconn|].
    exists w'. split; [done|]. rewrite E in Hos. cbn [world_of] in Hos.
    destruct Hos as [_ Eg _ _ Egs _ _ _ _ _ _ _]. by rewrite Egs, Eg.
Qed.

Lemma UnregisterPlayer_in_match player order w g :
  Player.Username (playerStore w player) ≠ "" →
  Player.Game (playerStore w player) = Some g →
  Game.Status (gameStore w g) = "playing" →
  connected w player →
  ∃ w1, UnregisterPlayer player order w = Ok tt w1 ∧
    timers w1 = timers w ++ [ReconnectTimer g player] ∧
    gameStore w1 = gameStore w ∧ games w1 = games w ∧ spawned w1 = spawned w ∧
    players w1 = delete (Player.Username (playerStore w player)) (players w) ∧
    ¬ connected w1 player.
Proof.
  intros Hu HG Hs Hc. unfold connected in *.
  destruct w as [pls gms wp rooms ps gs ng tms sp cc].
  fields in Hu. fields in HG. fields in Hs. fields in Hc.
  unfold UnregisterPlayer, HandleDisconnect, closeSend. wsimpl.
  rewrite decide_False by done. wsimpl. rewrite HG.
  case_decide; wsimpl; (rewrite decide_False by (by intros [])); wsimpl; rewrite Hc;
    wsimpl; (eexists; split; [reflexivity|]); wsimpl;
    rewrite fn_lookup_alter; cbn [Player.set_Send Player.Send closed];
    repeat split; done.
Qed.

(** X25: a disconnect in mid-match ends in a forfeit that is recorded but
    never announced.  When a participant of an in-progress match disconnects
    through the Director, the identity is deleted, the 30-second timer is
    armed, the queue is closed and the match is left as it is.  When the timer
    then fires, the match is finished with the other side as winner and
    removed from the match table, and the broadcast of that result panics on
    the queue the disconnect closed. *)
Theorem forfeit_after_disconnect_is_recorded_then_panics w player order g o :
  Player.Username (playerStore w player) ≠ "" →
  Player.Game (playerStore w player) = Some g →
  Game.Status (gameStore w g) = "playing" →
  connected w player →
  player = Game.Player1 (gameStore w g) ∨ humanPlayer2 (gameStore w g) = Some player →
  ∃ w1 w3,
    UnregisterPlayer player order w = Ok tt w1 ∧
    ReconnectTimer g player ∈ timers w1 ∧
    gameStore w1 = gameStore w ∧
    players w1 = delete (Player.Username (playerStore w player)) (players w) ∧
    run (Fire (ReconnectTimer g player) o) w1 = Panic "send on closed channel" w3 ∧
    Game.Status (gameStore w3 g) = "finished" ∧
    Game.Winner (gameStore w3 g) =
      (if decide (player = Game.Player1 (gameStore w g)) then Player2 else Player1) ∧
    games w3 = delete (Game.ID (gameStore w g)) (games w).
Proof.
  intros Hu HG Hs Hc Hpart.
  destruct (UnregisterPlayer_in_match player order w g Hu HG Hs Hc)
    as (w1 & E1 & Ht & Hgs & Hgm & _ & Hpl & Hclosed).
  pose (w2 := mkWorld (players w1) (games w1) (waitingPlayer w1) (PrivateRooms w1)
                (playerStore w1) (gameStore w1) (nextGame w1)
                (removeTimer (ReconnectTimer g player) (timers w1)) (spawned w1)
                (connClosed w1)).
  assert (run (Fire (ReconnectTimer g player) o) w1 = reconnectTimerExpired g player w2)
    as Hrun by reflexivity.
  assert (gameStore w2 = gameStore w) as Hgs2 by done.
  assert (games w2 = games w) as Hgm2 by done.
  assert (¬ connected w2 player) as Hclosed2 by done.
  clearbody w2.
  destruct (endGame_broadcast_closed g
              (if decide (player = Game.Player1 (gameStore w g)) then Player2 else Player1)
              w2 player) as (w3 & E3 & Hg3 & Hgames3); [by rewrite Hgs2|done|].
  exists w1, w3. split; [done|]. split.
  { rewrite Ht. apply elem_of_app. right. apply list_elem_of_here. }
  split; [done|]. split; [done|]. split.
  { rewrite Hrun. unfold reconnectTimerExpired. erewrite bind_Ok by reflexivity.
    rewrite Hgs2. rewrite decide_False by (by intros []). exact E3. }
  rewrite Hg3, Hgames3, Hgs2, Hgm2. done.
Qed.

(* --------------------------------------------------------------------- *)
(* Reconnect: the handler and the goroutine it starts                    *)
(* --------------------------------------------------------------------- *)

Lemma handleReconnect_found w player username race oldPlayer g :
  players w !! username = Some oldPlayer →
  Player.Game (playerStore w oldPlayer) = Some g →
  handleReconnect player username race w =
  (go (DiscardConnection player) ;;
   HandleReconnect_beside
     (λ n, if decide (n = race) then discardConnection player else skip)
     g oldPlayer (Player.Conn (playerStore w player))) w.
Proof.
  intros Hp HG. unfold handleReconnect. erewrite bind_Ok by reflexivity.
  rewrite Hp. cbn [mbind option_bind]. by rewrite HG.
Qed.

Lemma closed_twice (cc : nat → bool) a b :
  (<[a := true]> (<[b := true]> cc)) b = true ∧
  (<[b := true]> (<[a := true]> cc)) a = true.
Proof.
  split; (destruct (decide (a = b)) as [->|];
    [apply fn_lookup_insert|rewrite fn_lookup_insert_ne by done; apply fn_lookup_insert]).
Qed.

(* Reads the player objects after the updates of a reconnect. *)
Ltac psimpl :=
  repeat progress
    (wsimpl;
     repeat first
       [ rewrite fn_lookup_alter
       | match goal with
         | H : ?p ≠ ?q |- _ => rewrite (fn_lookup_alter_ne _ _ p q) by exact H
         end ];
     rewrite ?fn_lookup_insert;
     cbn [Player.set_Send Player.set_Conn Player.Send Player.Conn closed buf newChan
          gsBoard gsCurrentPlayer gsStatus app]).

(* The transport is among those closed. *)
Ltac transport_closed :=
  first [reflexivity | apply fn_lookup_insert | apply closed_twice].

(* The requester is another connection than the one registered. *)
Lemma handleReconnect_other w player username oldPlayer g race :
  players w !! username = Some oldPlayer →
  Player.Game (playerStore w oldPlayer) = Some g →
  Game.Status (gameStore w g) = "playing" →
  connected w oldPlayer → connected w player →
  player ≠ oldPlayer →
  ∃ w' state,
    handleReconnect player username race w = Ok tt w' ∧
    Player.Conn (playerStore w' oldPlayer) = Player.Conn (playerStore w player) ∧
    connected w' oldPlayer ∧
    outbox w' oldPlayer = [mkFrame "reconnected" (StateData state)] ∧
    gsBoard state = Game.Board (gameStore w g) ∧
    gsCurrentPlayer state = Game.CurrentPlayer (gameStore w g) ∧
    gsStatus state = "playing" ∧
    connClosed w' (Player.Conn (playerStore w oldPlayer)) = true ∧
    spawned w' = spawned w ++ [DiscardConnection player; WriteMessages oldPlayer] ∧
    gameStore w' = gameStore w ∧ games w' = games w ∧ players w' = players w ∧
    PrivateRooms w' = PrivateRooms w ∧ waitingPlayer w' = waitingPlayer w ∧
    timers w' = timers w ∧
    ∃ w'',
      (if decide (race < 3)%nat then w'' = w'
       else run (Discard player) w' = Ok tt w'') ∧
      ¬ connected w'' player ∧
      connClosed w'' (Player.Conn (playerStore w'' oldPlayer)) = true ∧
      playerStore w'' oldPlayer = playerStore w' oldPlayer.
Proof.
  intros Hp HG Hs Hc Hcp Hne. rewrite (handleReconnect_found _ _ _ _ _ _ Hp HG).
  clear Hp HG. unfold connected in *.
  assert (oldPlayer ≠ player) as Hne' by (by intros ->).
  destruct w as [pls gms wp rooms ps gs ng tms sp cc].
  fields in Hs. fields in Hc. fields in Hcp.
  unfold run, HandleReconnect_beside, discardConnection, closeSend, SendMessage,
    CreateState, connected, outbox.
  destruct race as [|[|[|race]]].
  - wsimpl. rewrite decide_True by done. wsimpl. rewrite Hcp. wsimpl.
    rewrite decide_False by (by intros []).
    psimpl. rewrite Hc. psimpl. rewrite !decide_False by done. psimpl.
    do 2 eexists. split; [reflexivity|]. psimpl. rewrite <- app_assoc. cbn [app].
    repeat (split; [first [exact Hs|transport_closed]|]).
    eexists. split; [rewrite decide_True by lia; reflexivity|]. psimpl.
    split; [done|]. split; [transport_closed|reflexivity].
  - wsimpl. rewrite decide_False by done. wsimpl.
    rewrite decide_False by (by intros []).
    psimpl. rewrite Hc. psimpl. rewrite decide_True by done. psimpl.
    rewrite Hcp. psimpl. rewrite decide_False by done. psimpl.
    do 2 eexists. split; [reflexivity|]. psimpl. rewrite <- app_assoc. cbn [app].
    repeat (split; [first [exact Hs|transport_closed]|]).
    eexists. split; [rewrite decide_True by lia; reflexivity|]. psimpl.
    split; [done|]. split; [transport_closed|reflexivity].
  - wsimpl. rewrite decide_False by done. wsimpl.
    rewrite decide_False by (by intros []).
    psimpl. rewrite Hc. psimpl. rewrite decide_False by done. psimpl.
    rewrite decide_True by done. psimpl.
    rewrite Hcp. psimpl.
    do 2 eexists. split; [reflexivity|]. psimpl. rewrite <- app_assoc. cbn [app].
    repeat (split; [first [exact Hs|transport_closed]|]).
    eexists. split; [rewrite decide_True by lia; reflexivity|]. psimpl.
    split; [done|]. split; [transport_closed|reflexivity].
  - wsimpl. rewrite decide_False by done. wsimpl.
    rewrite decide_False by (by intros []).
    psimpl. rewrite Hc. psimpl. rewrite !decide_False by done. psimpl.
    do 2 eexists. split; [reflexivity|]. psimpl. rewrite <- app_assoc. cbn [app].
    repeat (split; [first [exact Hs|transport_closed]|]).
    eexists. split.
    { rewrite decide_False by lia. psimpl. rewrite Hcp. psimpl. reflexivity. }
    psimpl.
    split; [done|]. split; [transport_closed|reflexivity].
Qed.

(* The requester is the registered connection itself: the goroutine and
   HandleReconnect work on the same queue. *)
Lemma handleReconnect_own w player username g race :
  players w !! username = Some player →
  Player.Game (playerStore w player) = Some g →
  Game.Status (gameStore w g) = "playing" →
  connected w player →
  ((race < 2)%nat →
   ∃ w', handleReconnect player username race w = Panic "close of closed channel" w') ∧
  (race = 2%nat →
   ∃ w', handleReconnect player username race w = Panic "send on closed channel" w') ∧
  ((3 ≤ race)%nat →
   ∃ w' w'' state,
     handleReconnect player username race w = Ok tt w' ∧
     connected w' player ∧
     outbox w' player = [mkFrame "reconnected" (StateData state)] ∧
     run (Discard player) w' = Ok tt w'' ∧
     ¬ connected w'' player).
Proof.
  intros Hp HG Hs Hc. rewrite (handleReconnect_found _ _ _ _ _ _ Hp HG).
  clear Hp HG. unfold connected in *.
  destruct w as [pls gms wp rooms ps gs ng tms sp cc].
  fields in Hs. fields in Hc.
  unfold run, HandleReconnect_beside, discardConnection, closeSend, SendMessage,
    CreateState, connected, outbox.
  split; [|split].
  - intros Hr. destruct race as [|[|race]]; [| |lia].
    + wsimpl. rewrite decide_True by done. wsimpl. rewrite Hc. psimpl.
      rewrite decide_False by (by intros []). psimpl. by eexists.
    + wsimpl. rewrite decide_False by done. wsimpl.
      rewrite decide_False by (by intros []). psimpl. rewrite Hc. psimpl.
      rewrite decide_True by done. psimpl. by eexists.
  - intros ->. wsimpl. rewrite decide_False by done. wsimpl.
    rewrite decide_False by (by intros []). psimpl. rewrite Hc. psimpl.
    rewrite decide_False by done. psimpl. rewrite decide_True by done. psimpl.
    by eexists.
  - intros Hr. destruct race as [|[|[|race]]]; [lia..|].
    wsimpl. rewrite decide_False by done. wsimpl.
    rewrite decide_False by (by intros []). psimpl. rewrite Hc. psimpl.
    rewrite !decide_False by done. psimpl.
    do 3 eexists. split; [reflexivity|]. psimpl.
    split; [reflexivity|]. split; [reflexivity|]. split; [reflexivity|]. psimpl. done.
Qed.

(** X26: a reconnect while the old connection is still registered, in an
    in-progress match, with both queues open.  The goroutine the handler
    starts takes no lock, so it runs at one of three places inside
    HandleReconnect or after the handler has returned.
    If the requester is another connection than the registered one, the
    handler returns wherever the goroutine runs: the registered connection
    object gets the requester's transport and a new queue that holds only the
    "reconnected" frame with the state of the match, its old transport and
    queue are closed, a writer is started, and registries, matches and timers
    are untouched.  Once the goroutine has run, the requester's queue is
    closed and so is the transport that was just handed over.
    If the requester is the registered connection itself, the goroutine and
    the method work on the same queue: the handler returns only if the
    goroutine runs after it, and the goroutine then closes the queue that was
    just made; at any earlier place one of the two closes a closed channel or
    the state is sent on a closed channel. *)
Theorem reconnect_hands_over_a_transport_the_goroutine_closes
    w player username oldPlayer g race :
  players w !! username = Some oldPlayer →
  Player.Game (playerStore w oldPlayer) = Some g →
  Game.Status (gameStore w g) = "playing" →
  connected w oldPlayer → connected w player →
  (player ≠ oldPlayer →
   ∃ w' state,
     handleReconnect player username race w = Ok tt w' ∧
     Player.Conn (playerStore w' oldPlayer) = Player.Conn (playerStore w player) ∧
     connected w' oldPlayer ∧
     outbox w' oldPlayer = [mkFrame "reconnected" (StateData state)] ∧
     gsBoard state = Game.Board (gameStore w g) ∧
     gsCurrentPlayer state = Game.CurrentPlayer (gameStore w g) ∧
     gsStatus state = "playing" ∧
     connClosed w' (Player.Conn (playerStore w oldPlayer)) = true ∧
     spawned w' = spawned w ++ [DiscardConnection player; WriteMessages oldPlayer] ∧
     gameStore w' = gameStore w ∧ games w' = games w ∧ players w' = players w ∧
     PrivateRooms w' = PrivateRooms w ∧ waitingPlayer w' = waitingPlayer w ∧
     timers w' = timers w ∧
     enabled (Discard player) w' ∧
     ∃ w'',
       (if decide (race < 3)%nat then w'' = w'
        else run (Discard player) w' = Ok tt w'') ∧
       ¬ connected w'' player ∧
       connClosed w'' (Player.Conn (playerStore w'' oldPlayer)) = true ∧
       playerStore w'' oldPlayer = playerStore w' oldPlayer) ∧
  (player = oldPlayer →
   ((race < 2)%nat →
    ∃ w', handleReconnect player username race w = Panic "close of closed channel" w') ∧
   (race = 2%nat →
    ∃ w', handleReconnect player username race w = Panic "send on closed channel" w') ∧
   ((3 ≤ race)%nat →
    ∃ w' w'' state,
      handleReconnect player username race w = Ok tt w' ∧
      connected w' player ∧
      outbox w' player = [mkFrame "reconnected" (StateData state)] ∧
      run (Discard player) w' = Ok tt w'' ∧
      ¬ connected w'' player)).
Proof.
  intros Hp HG Hs Hc Hcp. split.
  - intros Hne.
    destruct (handleReconnect_other w player username oldPlayer g race Hp HG Hs Hc Hcp Hne)
      as (w' & state & H & H1 & H2 & H3 & H4 & H5 & H6 & H7 & H8 & H9 & H10 & H11 &
          H12 & H13 & H14 & H15).
    exists w', state. do 15 (split; [assumption|]). split; [|exact H15].
    cbn [enabled]. rewrite H8. apply elem_of_app. right. apply list_elem_of_here.
  - intros ->. by apply (handleReconnect_own w oldPlayer username g race).
Qed.

(* --------------------------------------------------------------------- *)
(* Room codes: the loop on one state of the table, and the handler       *)
(* --------------------------------------------------------------------- *)

(* The loop stops at the first code its table does not hold. *)
Lemma generateRoomCode_first rnd rooms : ∀ n k i,
  (∀ j, (j < i)%nat → is_Some (rooms !! randomCode codeLength rnd (k + j * codeLength))) →
  rooms !! randomCode codeLength rnd (k + i * codeLength) = None →
  (i < n)%nat →
  generateRoomCode n rnd k rooms = Some (randomCode codeLength rnd (k + i * codeLength)).
Proof.
  induction n as [|n IH]; intros k i Htaken Hfree Hi; [lia|].
  cbn [generateRoomCode].
  destruct i as [|i].
  - rewrite Nat.add_0_r in *. rewrite decide_False; [done|].
    rewrite Hfree. by intros [? [=]].
  - rewrite decide_True.
    2: { specialize (Htaken 0%nat). rewrite Nat.add_0_r in Htaken. apply Htaken. lia. }
    replace (k + S i * codeLength)%nat with (k + codeLength + i * codeLength)%nat by lia.
    apply IH; [|by replace (k + codeLength + i * codeLength)%nat
                     with (k + S i * codeLength)%nat by lia|lia].
    intros j Hj. specialize (Htaken (S j)).
    replace (k + codeLength + j * codeLength)%nat with (k + S j * codeLength)%nat by lia.
    apply Htaken. lia.
Qed.

Lemma generateRoomCode_stops rnd rooms : ∀ n k roomCode,
  generateRoomCode n rnd k rooms = Some roomCode →
  ∃ i, (i < n)%nat ∧ roomCode = randomCode codeLength rnd (k + i * codeLength) ∧
       rooms !! roomCode = None ∧
       ∀ j, (j < i)%nat → is_Some (rooms !! randomCode codeLength rnd (k + j * codeLength)).
Proof.
  induction n as [|n IH]; intros k roomCode; [done|].
  cbn [generateRoomCode].
  destruct (decide (is_Some (rooms !! randomCode codeLength rnd k))) as [Htaken|Hfree].
  - intros (i & Hi & -> & Hnone & Hbefore)%IH. exists (S i).
    replace (k + S i * codeLength)%nat with (k + codeLength + i * codeLength)%nat by lia.
    split; [lia|]. split; [done|]. split; [done|].
    intros [|j] Hj.
    + by rewrite Nat.add_0_r.
    + replace (k + S j * codeLength)%nat with (k + codeLength + j * codeLength)%nat by lia.
      apply Hbefore. lia.
  - intros [= <-]. exists 0%nat. rewrite Nat.add_0_r.
    split; [lia|]. split; [done|]. split; [by apply eq_None_not_Some|]. intros j Hj. lia.
Qed.

(** X27: creating a private room.  generateRoomCode, followed on one state of
    the room table, returns the first code of its stream that the table does
    not hold: if the first i codes are taken and the next is free, every run
    of more than i iterations returns that code, and a code it returns is
    free in that table with every earlier code taken.  handleCreatePrivateRoom
    calls it before taking the lock and does not look the code up again.
    With a non-empty username that is registered, the answer is "Username
    already taken." and nothing else happens.  With a free one and an open
    queue, the handler returns: the connection is registered under the
    username and as host of the code, which is six characters long and made
    of capital letters and digits; it is sent the code and the expiry timer
    of the room is armed.  The code is entered whatever the table holds under
    it by then: a room another host opened under the same code after it was
    generated passes to the new host.  Only if the table under the lock is
    still the one the loop read is the code new in it. *)
Theorem room_creation_registers_the_generated_code :
  (∀ rnd rooms i n,
     (∀ j, (j < i)%nat → is_Some (rooms !! generatedCode rnd j)) →
     rooms !! generatedCode rnd i = None → (i < n)%nat →
     generateRoomCode n rnd 0 rooms = Some (generatedCode rnd i)) ∧
  (∀ rnd rooms n roomCode,
     generateRoomCode n rnd 0 rooms = Some roomCode →
     ∃ i, (i < n)%nat ∧ roomCode = generatedCode rnd i ∧ rooms !! roomCode = None ∧
          ∀ j, (j < i)%nat → is_Some (rooms !! generatedCode rnd j)) ∧
  (∀ w player username o,
     username ≠ "" → is_Some (players w !! username) →
     handleCreatePrivateRoom player username o w =
     SendError player "Username already taken." w) ∧
  (∀ w player username o,
     username ≠ "" → players w !! username = None → connected w player →
     let roomCode := generatedCode (rnd o) (rejected o) in
     ∃ w',
       handleCreatePrivateRoom player username o w = Ok tt w' ∧
       String.length roomCode = codeLength ∧
       (∀ i ch, String.get i roomCode = Some ch →
          ∃ j, (j < String.length charset)%nat ∧ String.get j charset = Some ch) ∧
       PrivateRooms w' = <[roomCode := player]> (PrivateRooms w) ∧
       PrivateRooms w' !! roomCode = Some player ∧
       players w' = <[username := player]> (players w) ∧
       outbox w' player = outbox w player ++
         [mkFrame "private_room_created" (RoomCodeData roomCode)] ∧
       RoomTimer roomCode player ∈ timers w' ∧
       (∀ n, generateRoomCode n (rnd o) 0 (PrivateRooms w) = Some roomCode →
             PrivateRooms w !! roomCode = None)).
Proof.
  split; [|split; [|split]].
  - intros rnd rooms i n Htaken Hfree Hi.
    apply (generateRoomCode_first rnd rooms n 0%nat i); done.
  - intros rnd rooms n roomCode H.
    by apply (generateRoomCode_stops rnd rooms n 0%nat).
  - intros w player username o Hu Htaken. unfold handleCreatePrivateRoom.
    rewrite decide_False by done. cbv zeta. erewrite bind_Ok by reflexivity.
    by rewrite decide_True.
  - intros w player username o Hu Hfree Hc roomCode.
    destruct (handleCreatePrivateRoom_spec w player username o _ Hu Hfree eq_refl)
      as (c & -> & Hlen & Hchars & Hrooms & Hplayers & Hrest).
    destruct (Hrest Hc) as (Hok & Hout & Htimer).
    eexists. split; [exact Hok|]. split; [exact Hlen|]. split; [exact Hchars|].
    split; [exact Hrooms|]. split; [by rewrite Hrooms, lookup_insert_eq|].
    split; [exact Hplayers|]. split; [exact Hout|]. split; [exact Htimer|].
    intros n Hgen.
    by destruct (generateRoomCode_stops _ _ _ _ _ Hgen) as (i & _ & _ & Hnone & _).
Qed.

(** X28: joining a private room pairs the joiner with the host.  A join
    with a fresh, non-empty username and the code of an open room whose
    host's username differs creates a match between two connections with the
    host as first participant, who moves first, and the joiner as second; the
    match is entered in the match table, the code is removed from the room
    registry, the joiner is registered, and both connections point to the
    match. *)
Theorem private_join_pairs_the_joiner_with_the_host
    w player username roomCode gameID roomHost :
  username ≠ "" → roomCode ≠ "" → players w !! username = None →
  PrivateRooms w !! roomCode = Some roomHost →
  Player.Username (playerStore w roomHost) ≠ username →
  let w' := world_of (handleJoinPrivateRoom player username roomCode gameID w) in
  let G := gameStore w' (nextGame w) in
  Game.Player1 G = roomHost ∧ Game.Player2 G = Some player ∧ Game.IsBot G = false ∧
  Game.CurrentPlayer G = Player1 ∧ Game.Status G = "playing" ∧
  Game.Board G = zeroBoard ∧ Game.ID G = gameID ∧
  games w' = <[gameID := nextGame w]> (games w) ∧
  PrivateRooms w' = delete roomCode (PrivateRooms w) ∧
  players w' = <[username := player]> (players w) ∧
  Player.Game (playerStore w' roomHost) = Some (nextGame w) ∧
  Player.Game (playerStore w' player) = Some (nextGame w).
Proof.
  intros Hu Hc Hfree Hroom Hhost w' G.
  destruct (handleJoinPrivateRoom_pairs w player username roomCode gameID roomHost w'
              Hu Hc Hfree Hroom Hhost eq_refl) as (HG & Hg & Hr & Hp & H1 & H2).
  subst G. rewrite HG. cbn. repeat split; done.
Qed.

(** X29: a host with a single open room leaves none behind.  When a joined
    connection that hosts exactly one room disconnects, that code is removed
    from the room registry, whatever the order in which the registry is
    enumerated, and no room of the registry is mapped to the departed
    connection any more. *)
Theorem host_with_one_room_leaves_none_behind player order w roomCode :
  Player.Username (playerStore w player) ≠ "" →
  roomCode ∈ order → PrivateRooms w !! roomCode = Some player →
  (∀ c, PrivateRooms w !! c = Some player → c = roomCode) →
  let w' := world_of (UnregisterPlayer player order w) in
  PrivateRooms w' = delete roomCode (PrivateRooms w) ∧
  ∀ c, PrivateRooms w' !! c ≠ Some player.
Proof.
  intros Hu Hin Hroom Honly w'.
  assert (PrivateRooms w' = delete roomCode (PrivateRooms w)) as Hr
    by (by apply host_disconnect_removes_only_room).
  split; [done|]. intros c. rewrite Hr. intros [Hne H]%lookup_delete_Some.
  by apply Honly in H.
Qed.

(* --------------------------------------------------------------------- *)
(* What endGame books                                                    *)
(* --------------------------------------------------------------------- *)

Lemma endGame_spawned g winner w :
  let G := gameStore w g in
  spawned (world_of (endGame g winner w)) =
  spawned w ++
    [SaveGame g;
     UpdatePlayerStats (Player.Username (playerStore w (Game.Player1 G)))
       (bool_decide (winner = Player1))] ++
    match humanPlayer2 G with
    | Some p2 =>
        [UpdatePlayerStats (Player.Username (playerStore w p2))
           (bool_decide (winner = Player2))]
    | None => []
    end ++
    [ProduceEvent "game_ended"
       [("gameId", EvStr (Game.ID G)); ("winner", EvStr (winnerLabel w G winner));
        ("isBot", EvBool (Game.IsBot G))]].
Proof.
  destruct w as [pls gms wp rooms ps gs ng tms sp cc].
  unfold endGame, winnerLabel; wsimpl.
  rewrite !fn_lookup_alter.
  change (humanPlayer2 (Game.set_Winner winner (Game.set_Status "finished" (gs g))))
    with (humanPlayer2 (gs g)).
  destruct (humanPlayer2 (gs g)) as [p2|] eqn:E2.
  all: repeat case_decide.
  all: wsimpl.
  all: rewrite <- ?app_assoc; cbn [app].
  all: try (rewrite (bool_decide_eq_true_2 (winner = Player1)) by done).
  all: try (rewrite (bool_decide_eq_false_2 (winner = Player1)) by done).
  all: try (rewrite (bool_decide_eq_true_2 (winner = Player2)) by done).
  all: try (rewrite (bool_decide_eq_false_2 (winner = Player2)) by done).
  all: try reflexivity.
  all: subst; done.
Qed.

(** X30: what endGame books.  endGame starts, in this order, the task that
    saves the match, one statistics update for the first participant, one
    for the second if the match is between two connections (the bot gets
    none), and the game_ended event, whose winner is the winner's username,
    the bot's name, or "Draw".  An update is booked as won exactly for the
    participant whose number is the winner; so when the match ends in a draw
    (the winner is neither 1 nor 2) both updates are booked as not won.
    UpdatePlayerStats hands its statement the increments boolToInt(won) for
    games_won and boolToInt(!won) for games_lost: 0 and 1 for an update that
    is not won, so the server books a draw like a loss, and it has no
    argument for games_drawn.  With no database the function returns before
    the statement. *)
Theorem endGame_books_a_draw_as_a_loss :
  (∀ g winner w,
     let G := gameStore w g in
     spawned (world_of (endGame g winner w)) =
     spawned w ++
       [SaveGame g;
        UpdatePlayerStats (Player.Username (playerStore w (Game.Player1 G)))
          (bool_decide (winner = Player1))] ++
       match humanPlayer2 G with
       | Some p2 =>
           [UpdatePlayerStats (Player.Username (playerStore w p2))
              (bool_decide (winner = Player2))]
       | None => []
       end ++
       [ProduceEvent "game_ended"
          [("gameId", EvStr (Game.ID G)); ("winner", EvStr (winnerLabel w G winner));
           ("isBot", EvBool (Game.IsBot G))]]) ∧
  (∀ g winner w,
     winner ≠ Player1 → winner ≠ Player2 →
     let G := gameStore w g in
     spawned (world_of (endGame g winner w)) =
     spawned w ++
       [SaveGame g;
        UpdatePlayerStats (Player.Username (playerStore w (Game.Player1 G))) false] ++
       match humanPlayer2 G with
       | Some p2 => [UpdatePlayerStats (Player.Username (playerStore w p2)) false]
       | None => []
       end ++
       [ProduceEvent "game_ended"
          [("gameId", EvStr (Game.ID G)); ("winner", EvStr "Draw");
           ("isBot", EvBool (Game.IsBot G))]]) ∧
  (∀ username,
     UpdatePlayerStats_args true username false = Some (username, 0, 1) ∧
     UpdatePlayerStats_args true username true = Some (username, 1, 0)) ∧
  (∀ username won, UpdatePlayerStats_args false username won = None).
Proof.
  split; [|split; [|split]].
  - intros g winner w. apply endGame_spawned.
  - intros g winner w H1 H2 G. pose proof (endGame_spawned g winner w) as H.
    cbv zeta in H. fold G in H. rewrite H. unfold winnerLabel.
    rewrite !bool_decide_eq_false_2 by done. by rewrite !decide_False by done.
  - intros username. split; reflexivity.
  - intros username won. reflexivity.
Qed.

(* --------------------------------------------------------------------- *)
(* The properties on the scenarios                                       *)
(* --------------------------------------------------------------------- *)

Lemma gravityb_spec b : gravityb b = true → gravity b.
Proof.
  unfold gravityb, gravity. intros H r c Hr Hc Hocc r' Hr'.
  rewrite forallb_forall in H. specialize (H c).
  rewrite forallb_forall in H.
  specialize (H ltac:(apply list_elem_of_In, elem_of_seqZ; lia) r
                ltac:(apply list_elem_of_In, elem_of_seqZ; lia)).
  apply orb_true_iff in H as [H%Z.eqb_eq|H]; [done|].
  rewrite forallb_forall in H.
  specialize (H r' ltac:(apply list_elem_of_In, elem_of_seqZ; lia)).
  apply negb_true_iff, Z.eqb_neq in H. done.
Qed.

Lemma no_win_cols b who :
  forallb (λ c, negb (winsAt b who c)) (seqZ 0 Cols) = true →
  ∀ c, 0 ≤ c < Cols → winsAt b who c = false.
Proof.
  intros H c Hc. rewrite forallb_forall in H.
  specialize (H c ltac:(apply list_elem_of_In, elem_of_seqZ; lia)).
  by apply negb_true_iff in H.
Qed.

Lemma board_wf_bot_boards :
  board_wf bot_win_board ∧ board_wf bot_block_board ∧ board_wf bot_centre_board.
Proof. repeat split; (reflexivity || by repeat constructor). Qed.

Lemma reachable_bot_match : reachable bot_match.
Proof.
  apply (reachable_step waiting_alice (Fire (MatchmakingTimer alice) oracle0)).
  - apply reachable_waiting_alice.
  - apply list_elem_of_In. vm_compute. by left.
  - vm_compute. reflexivity.
Qed.

Lemma reachable_bot_to_move : reachable bot_to_move.
Proof.
  apply (reachable_step bot_match (Receive alice (moveMsg 3) oracle0)).
  - apply reachable_bot_match.
  - done.
  - vm_compute. reflexivity.
Qed.

Lemma checkWin_finds_runs_on_the_lines_of_the_last_cell_witness :
  checkWin won_board 2 3 Player1 = true ↔ run_on_line won_board Player1 2 3.
Proof.
  apply (checkWin_finds_runs_on_the_lines_of_the_last_cell won_board Player1 2 3).
  - reflexivity.
  - discriminate.
Defined.

Lemma bot_helpers_agree_with_makeMove_witness :
  makeMove zeroBoard 3 Player2 = Placed 5 (set_cell zeroBoard 5 3 Player2).
Proof.
  unshelve epose proof (bot_helpers_agree_with_makeMove zeroBoard 3 Player2 _)
    as (_ & H & _).
  - unfold Cols. lia.
  - exact (H eq_refl).
Defined.

Lemma bot_column_is_playable_witness :
  0 ≤ 3 < Cols ∧ isValidMove bot_centre_board 3 = true.
Proof.
  unshelve epose proof
    (bot_column_is_playable bot_centre_board Player2 Player1 (λ k, k) 1 1 3 _ _ _)
    as (H1 & H2 & _).
  - apply board_wf_bot_boards.
  - apply gravityb_spec. vm_compute. reflexivity.
  - vm_compute. reflexivity.
  - exact (conj H1 H2).
Defined.

Lemma bot_takes_the_leftmost_winning_column_witness :
  ∃ c0, findBestMove bot_win_board Player2 Player1 (λ k, k) 1 1 = Some c0 ∧
        0 ≤ c0 ≤ 0 ∧ winsAt bot_win_board Player2 c0 = true.
Proof.
  unshelve epose proof
    (bot_takes_the_leftmost_winning_column bot_win_board Player2 Player1 (λ k, k) 1 1 0
       _ _ _ _) as (c0 & H1 & H2 & H3 & _).
  - apply board_wf_bot_boards.
  - apply gravityb_spec. vm_compute. reflexivity.
  - unfold Cols. lia.
  - vm_compute. reflexivity.
  - exists c0. exact (conj H1 (conj H2 H3)).
Defined.

Lemma bot_blocks_the_leftmost_threat_witness :
  ∃ c0, findBestMove bot_block_board Player2 Player1 (λ k, k) 1 1 = Some c0 ∧
        0 ≤ c0 ≤ 3 ∧ winsAt bot_block_board Player1 c0 = true.
Proof.
  unshelve epose proof
    (bot_blocks_the_leftmost_threat bot_block_board Player2 Player1 (λ k, k) 1 1 3
       _ _ _ _ _) as (c0 & H1 & H2 & H3 & _).
  - apply board_wf_bot_boards.
  - apply gravityb_spec. vm_compute. reflexivity.
  - apply no_win_cols. vm_compute. reflexivity.
  - unfold Cols. lia.
  - vm_compute. reflexivity.
  - exists c0. exact (conj H1 (conj H2 H3)).
Defined.

Lemma bot_prefers_the_centre_witness :
  findBestMove bot_centre_board Player2 Player1 (λ k, k) 1 1 = Some 3.
Proof.
  apply (bot_prefers_the_centre bot_centre_board Player2 Player1 (λ k, k) 1 1
           [] 3 [2; 4; 1; 5; 0; 6]).
  - apply board_wf_bot_boards.
  - apply gravityb_spec. vm_compute. reflexivity.
  - apply no_win_cols. vm_compute. reflexivity.
  - apply no_win_cols. vm_compute. reflexivity.
  - reflexivity.
  - intros c Hc. by apply elem_of_nil in Hc.
  - vm_compute. reflexivity.
Defined.

Lemma reachable_matches_hold_valid_numbers_witness :
  game_ok (gameStore before_win 0%nat).
Proof.
  exact (reachable_matches_hold_valid_numbers before_win 0%nat reachable_before_win).
Defined.

Lemma reachable_matches_alternate_witness :
  discs (Game.Board (gameStore before_win 0%nat)) Player1 =
    discs (Game.Board (gameStore before_win 0%nat)) Player2 ∨
  discs (Game.Board (gameStore before_win 0%nat)) Player1 =
    S (discs (Game.Board (gameStore before_win 0%nat)) Player2).
Proof.
  exact (proj1 (reachable_matches_alternate before_win 0%nat reachable_before_win)).
Defined.

Lemma match_table_holds_only_matches_in_progress_witness :
  (0 < nextGame paired)%nat ∧ Game.ID (gameStore paired 0%nat) = "game-1" ∧
  Game.Status (gameStore paired 0%nat) = "playing".
Proof.
  apply (match_table_holds_only_matches_in_progress paired "game-1" 0%nat).
  - exact reachable_paired.
  - vm_compute. reflexivity.
Defined.

Lemma finished_match_is_final_witness :
  gameStore (world_of (run_all [Receive bob (moveMsg 0) oracle0; Disconnect alice [];
                                Receive bob (joinMsg "bob2") oracle1] after_win)) 0%nat
  = gameStore after_win 0%nat.
Proof.
  apply (finished_match_is_final after_win 0%nat).
  - vm_compute. lia.
  - vm_compute. discriminate.
Defined.

Lemma match_identity_and_discs_are_permanent_witness :
  Game.Player1 (gameStore (world_of (run_all (alternate alice bob [3; 0; 3]) paired)) 0%nat)
  = Game.Player1 (gameStore paired 0%nat).
Proof.
  unshelve epose proof
    (match_identity_and_discs_are_permanent paired 0%nat (alternate alice bob [3; 0; 3])
       _ _) as (_ & H & _).
  - exact reachable_paired.
  - vm_compute. lia.
  - exact H.
Defined.

Lemma accepted_move_passes_the_turn_witness :
  Game.CurrentPlayer (gameStore after_opening 0%nat) = Player2 ∧
  Game.Status (gameStore after_opening 0%nat) = "playing" ∧
  cell (Game.Board (gameStore after_opening 0%nat)) 5 3 = Player1.
Proof.
  unshelve epose proof
    (accepted_move_passes_the_turn paired 0%nat (Some alice) 3 Player1 5
       (set_cell zeroBoard 5 3 Player1) _ _ _ _ _ _ after_opening eq_refl) as (H & _).
  - vm_compute. reflexivity.
  - vm_compute. reflexivity.
  - vm_compute. reflexivity.
  - vm_compute. reflexivity.
  - vm_compute. reflexivity.
  - vm_compute. reflexivity.
  - rewrite H. vm_compute. repeat split; reflexivity.
Defined.

Lemma out_of_range_column_is_rejected_witness :
  HandleMove 0%nat (Some alice) 7 paired = SendError alice "Invalid column" paired.
Proof.
  unshelve epose proof
    (out_of_range_column_is_rejected paired 0%nat alice 7 Player1 _ _ _ _) as [H _].
  - vm_compute. reflexivity.
  - vm_compute. reflexivity.
  - vm_compute. reflexivity.
  - unfold Cols. lia.
  - exact H.
Defined.

Lemma move_from_stranger_is_dropped_witness :
  HandleMove 0%nat (Some carol) 3 paired = Ok tt paired.
Proof.
  apply (move_from_stranger_is_dropped paired 0%nat carol 3).
  - vm_compute. reflexivity.
  - vm_compute. discriminate.
  - right. vm_compute. discriminate.
Defined.

Lemma closed_queue_makes_broadcasting_handlers_panic_witness :
  ∃ w', reconnectTimerExpired 0%nat alice alice_left = Panic "send on closed channel" w' ∧
        Game.Status (gameStore w' 0%nat) = "finished".
Proof.
  unshelve epose proof
    (closed_queue_makes_broadcasting_handlers_panic alice_left 0%nat _ _) as [_ H].
  - vm_compute. reflexivity.
  - unfold connected. vm_compute. discriminate.
  - destruct (H alice) as (w' & H1 & H2 & _). exists w'. exact (conj H1 H2).
Defined.

Lemma bot_returns_unless_the_board_is_full_witness :
  is_Some (findBestMove bot_centre_board Player2 Player1 (λ k, k) 1 1) ∧
  findBestMove drawn_board Player2 Player1 (λ k, k) 1 1 = None.
Proof.
  split.
  - unshelve epose proof
      (bot_returns_unless_the_board_is_full bot_centre_board Player2 Player1 (λ k, k) 1 1
         _ _) as [_ H].
    + apply board_wf_bot_boards.
    + apply gravityb_spec. vm_compute. reflexivity.
    + apply (H 0%nat); [lia|]. vm_compute. reflexivity.
  - unshelve epose proof
      (bot_returns_unless_the_board_is_full drawn_board Player2 Player1 (λ k, k) 1 1
         _ _) as [H _].
    + split; [reflexivity|by repeat constructor].
    + apply gravityb_spec. vm_compute. reflexivity.
    + apply H. apply checkDraw_spec. vm_compute. reflexivity.
Defined.

Lemma bot_move_is_always_accepted_witness :
  Bot_MakeMove 0%nat oracle0 bot_to_move = HandleMove 0%nat None 3 bot_to_move ∧
  Game.Board (gameStore (world_of (Bot_MakeMove 0%nat oracle0 bot_to_move)) 0%nat) =
    set_cell (Game.Board (gameStore bot_to_move 0%nat)) 4 3 Player2.
Proof.
  unshelve epose proof
    (bot_move_is_always_accepted bot_to_move 0%nat oracle0 3 _ _ _ _ _)
    as (H1 & _ & _ & _ & H2 & _).
  - exact reachable_bot_to_move.
  - vm_compute. reflexivity.
  - vm_compute. reflexivity.
  - vm_compute. reflexivity.
  - vm_compute. reflexivity.
  - split; [exact H1|]. rewrite H2. vm_compute. reflexivity.
Defined.

Lemma joining_is_refused_in_a_fixed_order_witness :
  handleJoin carol "alice" "game-2" paired =
    SendError carol "Username already taken. Try 'reconnect' if you were in a game." paired ∧
  handleJoinPrivateRoom carol "carol" "NOROOM" "game-2" paired =
    SendError carol "Invalid or expired room code." paired.
Proof.
  destruct (joining_is_refused_in_a_fixed_order paired carol "alice" "" "game-2")
    as (H1 & _ & _).
  destruct (joining_is_refused_in_a_fixed_order paired carol "carol" "NOROOM" "game-2")
    as (_ & H2 & _).
  split.
  - rewrite H1; [reflexivity|]. right. vm_compute. by eexists.
  - rewrite H2; [vm_compute; reflexivity|]. do 3 right. vm_compute. reflexivity.
Defined.

Lemma unroutable_frame_is_answered_with_an_error_witness :
  HandleMessage alice (Parsed (mkMessage "chat" "" 0 "")) oracle0 paired =
    SendError alice "Unknown message type." paired.
Proof.
  destruct (unroutable_frame_is_answered_with_an_error paired alice oracle0) as (_ & H & _).
  apply H. cbn. rewrite !elem_of_cons, elem_of_nil.
  intros [?|[?|[?|[?|[?|[]]]]]]; discriminate.
Defined.

Lemma leaving_the_lobby_witness :
  waitingPlayer (world_of (UnregisterPlayer alice [] waiting_alice)) = None ∧
  startBotGame alice "game-1" (world_of (UnregisterPlayer alice [] waiting_alice)) =
    Ok tt (world_of (UnregisterPlayer alice [] waiting_alice)).
Proof.
  destruct (leaving_the_lobby waiting_alice alice []) as [_ H].
  unshelve epose proof (H _ _) as (H1 & _ & _ & H2 & _).
  - vm_compute. discriminate.
  - vm_compute. reflexivity.
  - exact (conj H1 (H2 "game-1")).
Defined.

Lemma room_timer_expires_open_rooms_only_witness :
  PrivateRooms (world_of (roomTimerExpired "ABCDEF" alice one_room)) =
    delete "ABCDEF" (PrivateRooms one_room) ∧
  roomTimerExpired "ABCDEF" bob one_room = Ok tt one_room.
Proof.
  split.
  - destruct (room_timer_expires_open_rooms_only one_room "ABCDEF" alice) as [_ H].
    unshelve epose proof (H _) as [H1 _].
    + vm_compute. reflexivity.
    + exact H1.
  - destruct (room_timer_expires_open_rooms_only one_room "ABCDEF" bob) as [H _].
    apply H. vm_compute. discriminate.
Defined.

Lemma forfeit_after_disconnect_is_recorded_then_panics_witness :
  ∃ w1 w3,
    UnregisterPlayer alice [] paired = Ok tt w1 ∧
    run (Fire (ReconnectTimer 0%nat alice) oracle0) w1 = Panic "send on closed channel" w3 ∧
    Game.Status (gameStore w3 0%nat) = "finished" ∧
    Game.Winner (gameStore w3 0%nat) = Player2.
Proof.
  unshelve epose proof
    (forfeit_after_disconnect_is_recorded_then_panics paired alice [] 0%nat oracle0
       _ _ _ _ _) as (w1 & w3 & H1 & _ & _ & _ & H2 & H3 & H4 & _).
  - vm_compute. discriminate.
  - vm_compute. reflexivity.
  - vm_compute. reflexivity.
  - vm_compute. reflexivity.
  - left. vm_compute. reflexivity.
  - exists w1, w3. split; [exact H1|]. split; [exact H2|]. split; [exact H3|].
    rewrite H4. vm_compute. reflexivity.
Defined.

(* carol asks for alice's place in the match of `paired`, the goroutine
   running after the handler; alice asks for her own, the goroutine running
   first. *)
Lemma reconnect_hands_over_a_transport_the_goroutine_closes_witness :
  (∃ w' w'',
     handleReconnect carol "alice" 3%nat paired = Ok tt w' ∧
     Player.Conn (playerStore w' alice) = Player.Conn (playerStore paired carol) ∧
     run (Discard carol) w' = Ok tt w'' ∧
     connClosed w'' (Player.Conn (playerStore w'' alice)) = true) ∧
  (∃ w', handleReconnect alice "alice" 0%nat paired =
         Panic "close of closed channel" w').
Proof.
  split.
  - unshelve epose proof
      (reconnect_hands_over_a_transport_the_goroutine_closes paired carol "alice" alice
         0%nat 3%nat _ _ _ _ _) as [H _].
    + vm_compute. reflexivity.
    + vm_compute. reflexivity.
    + vm_compute. reflexivity.
    + vm_compute. reflexivity.
    + vm_compute. reflexivity.
    + destruct H as (w' & state & H1 & H2 & _ & _ & _ & _ & _ & _ & _ & _ & _ & _ &
                     _ & _ & _ & _ & w'' & H3 & _ & H4 & _).
      { vm_compute. discriminate. }
      exists w', w''. exact (conj H1 (conj H2 (conj H3 H4))).
  - unshelve epose proof
      (reconnect_hands_over_a_transport_the_goroutine_closes paired alice "alice" alice
         0%nat 0%nat _ _ _ _ _) as [_ H].
    + vm_compute. reflexivity.
    + vm_compute. reflexivity.
    + vm_compute. reflexivity.
    + vm_compute. reflexivity.
    + vm_compute. reflexivity.
    + destruct (H eq_refl) as (H0 & _). apply H0. lia.
Defined.

(* With the table of `one_room` the loop skips ABCDEF and returns GHIJKL;
   bob creates a room while the code ABCDEF, drawn for him earlier, has
   become alice's room. *)
Lemma room_creation_registers_the_generated_code_witness :
  generateRoomCode 2 (λ k, k) 0 (PrivateRooms one_room) = Some "GHIJKL" ∧
  handleCreatePrivateRoom carol "alice" oracle0 one_room =
    SendError carol "Username already taken." one_room ∧
  PrivateRooms one_room !! "ABCDEF" = Some alice ∧
  ∃ w', handleCreatePrivateRoom bob "bob" oracle0 one_room = Ok tt w' ∧
        PrivateRooms w' !! "ABCDEF" = Some bob.
Proof.
  destruct room_creation_registers_the_generated_code as (Ha & _ & Hc & Hd).
  split; [|split; [|split]].
  - apply (Ha (λ k, k) (PrivateRooms one_room) 1%nat 2%nat).
    + intros j Hj. assert (j = 0%nat) as -> by lia. vm_compute. by eexists.
    + vm_compute. reflexivity.
    + lia.
  - apply Hc; [discriminate|]. vm_compute. by eexists.
  - vm_compute. reflexivity.
  - unshelve epose proof (Hd one_room bob "bob" oracle0 _ _ _)
      as (w' & H1 & _ & _ & _ & H2 & _).
    + discriminate.
    + vm_compute. reflexivity.
    + vm_compute. reflexivity.
    + exists w'. exact (conj H1 H2).
Defined.

Lemma private_join_pairs_the_joiner_with_the_host_witness :
  Game.Player1 (gameStore (world_of (handleJoinPrivateRoom bob "bob" "ABCDEF" "game-1"
                                       one_room)) 0%nat) = alice ∧
  Game.Player2 (gameStore (world_of (handleJoinPrivateRoom bob "bob" "ABCDEF" "game-1"
                                       one_room)) 0%nat) = Some bob.
Proof.
  unshelve epose proof
    (private_join_pairs_the_joiner_with_the_host one_room bob "bob" "ABCDEF" "game-1" alice
       _ _ _ _ _) as (H1 & H2 & _).
  - discriminate.
  - discriminate.
  - vm_compute. reflexivity.
  - vm_compute. reflexivity.
  - vm_compute. discriminate.
  - exact (conj H1 H2).
Defined.

Lemma host_with_one_room_leaves_none_behind_witness :
  PrivateRooms (world_of (UnregisterPlayer alice ["ABCDEF"] one_room)) =
    delete "ABCDEF" (PrivateRooms one_room).
Proof.
  unshelve epose proof
    (host_with_one_room_leaves_none_behind alice ["ABCDEF"] one_room "ABCDEF" _ _ _ _)
    as [H _].
  - vm_compute. discriminate.
  - apply list_elem_of_here.
  - vm_compute. reflexivity.
  - intros c Hc.
    destruct (decide (c = "ABCDEF")) as [->|Hne]; [done|]. exfalso.
    assert (PrivateRooms one_room = {["ABCDEF" := alice]}) as E
      by (vm_compute; reflexivity).
    rewrite E in Hc. apply lookup_singleton_Some in Hc as [? _]. done.
  - exact H.
Defined.

(* The match of `paired` ends in a draw: alice and bob are both booked as
   not having won. *)
Lemma endGame_books_a_draw_as_a_loss_witness :
  spawned (world_of (endGame 0%nat Empty paired)) =
  spawned paired ++
    [SaveGame 0%nat; UpdatePlayerStats "alice" false; UpdatePlayerStats "bob" false;
     ProduceEvent "game_ended"
       [("gameId", EvStr "game-1"); ("winner", EvStr "Draw"); ("isBot", EvBool false)]].
Proof.
  destruct endGame_books_a_draw_as_a_loss as (_ & H & _).
  rewrite (H 0%nat Empty paired); [|discriminate|discriminate].
  vm_compute. reflexivity.
Defined.
